(** * Paper.js [Path]: a shallow embedding of src/path/Path.js

    The embedding follows the JavaScript source function by function.
    - JavaScript numbers are kept abstract behind the [Number] class, with two
      instances: IEEE-754 binary64 ([PrimFloat], what a JavaScript engine
      computes, NaN and infinities included) and exact integers (a second
      instance, for examples of what holds of every instance).
    - Segment objects live in a store (a list indexed by reference); a path
      holds references, so that aliasing between the arguments of a call, the
      segment list and the curve list is the one of the source.
    - A method that mutates the path maps a [State] to a [State]; a method
      that can throw returns an [Outcome]. *)

From Stdlib Require Import ZArith List Bool Lia.
From Stdlib Require Import PrimFloat Uint63 FloatOps SpecFloat FloatAxioms.
From stdpp Require Import base list option.

Set Default Proof Using "Type*".

(* ------------------------------------------------------------------ *)
(** * JavaScript numbers *)

(** The operations of the source on numbers. [nltb], [nleb], [neqb] are
    [<], [<=] and [==]; [>] and [>=] are written with swapped arguments.
    [ntoInt32] is [~~x]. *)
Class Number (num : Type) := {
  of_Z : Z → num;
  nadd : num → num → num;
  nsub : num → num → num;
  nmul : num → num → num;
  ndiv : num → num → num;
  nopp : num → num;
  nsqrt : num → num;
  nltb : num → num → bool;
  nleb : num → num → bool;
  neqb : num → num → bool;
  nisNaN : num → bool;
  ntoInt32 : num → Z;
}.

Declare Scope js_scope.
Delimit Scope js_scope with js.
Infix "+" := nadd : js_scope.
Infix "-" := nsub : js_scope.
Infix "*" := nmul : js_scope.
Infix "/" := ndiv : js_scope.
Notation "- x" := (nopp x) : js_scope.
Infix "<?" := nltb : js_scope.
Infix "<=?" := nleb : js_scope.
Infix "=?" := neqb : js_scope.
Notation "# z" := (of_Z z%Z) (at level 1, format "# z") : js_scope.

(** Truthiness of a number: everything but [0] and [NaN]. *)
Definition ntruthy {num} `{!Number num} (x : num) : bool :=
  negb (neqb x (of_Z 0)) && negb (nisNaN x).

(** ** The IEEE-754 instance *)

Definition float_of_Z (z : Z) : float :=
  match z with
  | Z0 => PrimFloat.zero
  | Zpos _ => PrimFloat.of_uint63 (Uint63.of_Z z)
  | Zneg p => PrimFloat.opp (PrimFloat.of_uint63 (Uint63.of_Z (Zpos p)))
  end.

Definition float_isNaN (x : float) : bool := negb (PrimFloat.eqb x x).

(** [~~x]: truncation towards zero, then wrap-around to a signed 32-bit
    integer; NaN and the infinities give 0. *)
Definition float_toInt32 (x : float) : Z :=
  match Prim2SF x with
  | S754_finite s m e =>
      let mag := if (0 <=? e)%Z then Z.shiftl (Zpos m) e else Z.shiftr (Zpos m) (- e) in
      let z := if s then (- mag)%Z else mag in
      ((z + 2 ^ 31) mod 2 ^ 32 - 2 ^ 31)%Z
  | _ => 0%Z
  end.

#[export] Instance float_Number : Number float := {|
  of_Z := float_of_Z;
  nadd := PrimFloat.add;
  nsub := PrimFloat.sub;
  nmul := PrimFloat.mul;
  ndiv := PrimFloat.div;
  nopp := PrimFloat.opp;
  nsqrt := PrimFloat.sqrt;
  nltb := PrimFloat.ltb;
  nleb := PrimFloat.leb;
  neqb := PrimFloat.eqb;
  nisNaN := float_isNaN;
  ntoInt32 := float_toInt32;
|}.

(** ** The integers

    A second instance: exact, without NaN, with the division of [Z]. It
    stands for no JavaScript number. The theorems are stated for every
    instance; the examples that are about lists, indices and references
    are run on this one. *)

Definition Z_toInt32 (z : Z) : Z := ((z + 2 ^ 31) mod 2 ^ 32 - 2 ^ 31)%Z.

#[export] Instance Z_Number : Number Z := {|
  of_Z := λ z, z;
  nadd := Z.add;
  nsub := Z.sub;
  nmul := Z.mul;
  ndiv := Z.div;
  nopp := Z.opp;
  nsqrt := Z.sqrt;
  nltb := Z.ltb;
  nleb := Z.leb;
  neqb := Z.eqb;
  nisNaN := λ _, false;
  ntoInt32 := Z_toInt32;
|}.

(* ------------------------------------------------------------------ *)
(** * The data model *)

(** An object reference: the position of the object in the store. *)
Abbreviation ref := nat.

Module Point.
(** Modelled from the spec: Point.js is not part of the sources; a point
    is a "pair of floating-point coordinates (x, y); supports
    add/subtract/scale", a value type without identity. *)
Record t (num : Type) := mk { _x : num; _y : num }.
Arguments mk {num} _ _.
Arguments _x {num} _.
Arguments _y {num} _.

Section ops.
Context {num : Type} `{!Number num}.
Definition zero : t num := mk (of_Z 0) (of_Z 0).
Definition add (p q : t num) : t num := mk (_x p + _x q)%js (_y p + _y q)%js.
Definition subtract (p q : t num) : t num := mk (_x p - _x q)%js (_y p - _y q)%js.
Definition multiply (p : t num) (k : num) : t num := mk (_x p * k)%js (_y p * k)%js.
Definition divide (p : t num) (k : num) : t num := mk (_x p / k)%js (_y p / k)%js.
(** "handle components evaluate to not-a-number" *)
Definition isNaN (p : t num) : bool := nisNaN (_x p) || nisNaN (_y p).
Definition isZero (p : t num) : bool := neqb (_x p) (of_Z 0) && neqb (_y p) (of_Z 0).
Definition equals (p q : t num) : bool := neqb (_x p) (_x q) && neqb (_y p) (_y q).
End ops.
End Point.

Module Segment.
(** Modelled from the spec: Segment.js is not part of the sources. The
    fields are the ones Path.js reads and writes: the anchor, the two
    handles relative to it, the back-reference to the owning path (the
    path's id; [None] is [undefined]), the index in the owner's list and
    the selection flags (0 is "nothing selected"). *)
Record t (num : Type) := mk {
  _point : Point.t num;
  _handleIn : Point.t num;
  _handleOut : Point.t num;
  _path : option nat;
  _index : option nat;
  _selectionState : Z;
}.
Arguments mk {num} _ _ _ _ _ _.
Arguments _point {num} _.
Arguments _handleIn {num} _.
Arguments _handleOut {num} _.
Arguments _path {num} _.
Arguments _index {num} _.
Arguments _selectionState {num} _.

Section ops.
Context {num : Type} `{!Number num}.
(** [new Segment(point, handleIn, handleOut)]: a fresh, unattached segment. *)
Definition create (point handleIn handleOut : Point.t num) : t num :=
  mk point handleIn handleOut None None 0.
(** [new Segment(segment)]: "deep-copied (never aliased across two
    paths)": the geometry is copied, the copy is unattached. *)
Definition clone (s : t num) : t num :=
  create (_point s) (_handleIn s) (_handleOut s).
Definition with_path (p : option nat) (s : t num) : t num :=
  mk (_point s) (_handleIn s) (_handleOut s) p (_index s) (_selectionState s).
Definition with_index (i : option nat) (s : t num) : t num :=
  mk (_point s) (_handleIn s) (_handleOut s) (_path s) i (_selectionState s).
Definition with_selectionState (z : Z) (s : t num) : t num :=
  mk (_point s) (_handleIn s) (_handleOut s) (_path s) (_index s) z.
Definition with_handleIn (h : Point.t num) (s : t num) : t num :=
  mk (_point s) h (_handleOut s) (_path s) (_index s) (_selectionState s).
Definition with_handleOut (h : Point.t num) (s : t num) : t num :=
  mk (_point s) (_handleIn s) h (_path s) (_index s) (_selectionState s).
(** The body of the loop of [reverse]: the two handles trade places. *)
Definition swapHandles (s : t num) : t num :=
  mk (_point s) (_handleOut s) (_handleIn s) (_path s) (_index s) (_selectionState s).
End ops.
End Segment.

#[export] Instance Segment_inhabited {num} `{!Number num} : Inhabited (Segment.t num) :=
  populate (Segment.create Point.zero Point.zero Point.zero).

Module Curve.
(** Modelled from the spec: Curve.js is not part of the sources. A curve
    is "a view over two adjacent segments": it holds references, not
    copies; a reference is [None] where the source stores [undefined]. *)
Record t := create { _path : nat; _segment1 : option ref; _segment2 : option ref }.
Definition with_segment1 (r : option ref) (c : t) : t := create (_path c) r (_segment2 c).
Definition with_segment2 (r : option ref) (c : t) : t := create (_path c) (_segment1 c) r.
End Curve.

Module CurveLocation.
(** "an immutable (curve, parameter) pair"; the curve is whatever
    [curves[i]] gave, [None] when that was [undefined]. *)
Record t (num : Type) := mk { _curve : option Curve.t; _parameter : num }.
Arguments mk {num} _ _.
Arguments _curve {num} _.
Arguments _parameter {num} _.
End CurveLocation.

Module Rectangle.
(** Modelled from the spec: Rectangle.js is not part of the sources.
    [Rectangle.create(x, y, width, height)]. *)
Record t (num : Type) := create { x : num; y : num; width : num; height : num }.
Arguments create {num} _ _ _ _.
Arguments x {num} _.
Arguments y {num} _.
Arguments width {num} _.
Arguments height {num} _.
End Rectangle.

Inductive StrokeJoin := JoinRound | JoinBevel | JoinMiter.
Inductive StrokeCap := CapRound | CapButt | CapSquare.
#[export] Instance StrokeJoin_eq_dec : EqDecision StrokeJoin.
Proof. solve_decision. Defined.
#[export] Instance StrokeCap_eq_dec : EqDecision StrokeCap.
Proof. solve_decision. Defined.

Module Style.
(** The part of the path style that Path.js reads. [_strokeColor] only
    matters through its truthiness. *)
Record t (num : Type) := mk {
  _strokeColor : bool;
  _strokeWidth : num;
  _strokeJoin : StrokeJoin;
  _strokeCap : StrokeCap;
  _miterLimit : num;
}.
Arguments mk {num} _ _ _ _ _.
Arguments _strokeColor {num} _.
Arguments _strokeWidth {num} _.
Arguments _strokeJoin {num} _.
Arguments _strokeCap {num} _.
Arguments _miterLimit {num} _.
End Style.

(** The path object. [_curves] is [None] until [getCurves] is called; an
    entry of the array is [None] where the JavaScript array has a hole. The
    five cached values are [None] when the property is deleted. *)
Record Path (num : Type) := mkPath {
  _id : nat;
  _segments : list ref;
  _curves : option (list (option Curve.t));
  _closed : bool;
  _selectedSegmentCount : Z;
  _length : option num;
  _bounds : option (Rectangle.t num);
  _position : option (Point.t num);
  _strokeBounds : option (Rectangle.t num);
  _clockwise : option bool;
  _style : Style.t num;
}.
Arguments mkPath {num} _ _ _ _ _ _ _ _ _ _ _.
Arguments _id {num} _.
Arguments _segments {num} _.
Arguments _curves {num} _.
Arguments _closed {num} _.
Arguments _selectedSegmentCount {num} _.
Arguments _length {num} _.
Arguments _bounds {num} _.
Arguments _position {num} _.
Arguments _strokeBounds {num} _.
Arguments _clockwise {num} _.
Arguments _style {num} _.

(** The store of segment objects together with the path under study. *)
Record State (num : Type) := mkState {
  heap : list (Segment.t num);
  this : Path num;
}.
Arguments mkState {num} _ _.
Arguments heap {num} _.
Arguments this {num} _.

Inductive ChangeFlags := GEOMETRY | STROKE.

(** What a method that may throw produces; the state at the throw is kept,
    since the mutations made before it stay. *)
Inductive Exn :=
| UseMoveToFirst        (* throw('Use a moveTo() command first') *)
| CannotPutCurve        (* new Error("Cannot put a curve through points ...") *)
| TypeError.            (* a property of undefined or null was read *)

Inductive Outcome (S A : Type) :=
| Ret (a : A) (s : S)
| Throw (e : Exn) (s : S).
Arguments Ret {S A} _ _.
Arguments Throw {S A} _ _.

Definition bind {S A B} (m : Outcome S A) (k : A → S → Outcome S B) : Outcome S B :=
  match m with
  | Ret a s => k a s
  | Throw e s => Throw e s
  end.

Section Path.
Context {num : Type} `{!Number num}.
Implicit Types (st : State num) (p : Path num) (r : ref).

(** ** Field updates *)

Definition set_segments (l : list ref) p : Path num :=
  mkPath (_id p) l (_curves p) (_closed p) (_selectedSegmentCount p) (_length p)
    (_bounds p) (_position p) (_strokeBounds p) (_clockwise p) (_style p).
Definition set_curves (c : option (list (option Curve.t))) p : Path num :=
  mkPath (_id p) (_segments p) c (_closed p) (_selectedSegmentCount p) (_length p)
    (_bounds p) (_position p) (_strokeBounds p) (_clockwise p) (_style p).
Definition set_closed (b : bool) p : Path num :=
  mkPath (_id p) (_segments p) (_curves p) b (_selectedSegmentCount p) (_length p)
    (_bounds p) (_position p) (_strokeBounds p) (_clockwise p) (_style p).
Definition set_selectedSegmentCount (z : Z) p : Path num :=
  mkPath (_id p) (_segments p) (_curves p) (_closed p) z (_length p)
    (_bounds p) (_position p) (_strokeBounds p) (_clockwise p) (_style p).
Definition set_length (v : option num) p : Path num :=
  mkPath (_id p) (_segments p) (_curves p) (_closed p) (_selectedSegmentCount p) v
    (_bounds p) (_position p) (_strokeBounds p) (_clockwise p) (_style p).
Definition set_bounds (v : option (Rectangle.t num)) p : Path num :=
  mkPath (_id p) (_segments p) (_curves p) (_closed p) (_selectedSegmentCount p) (_length p)
    v (_position p) (_strokeBounds p) (_clockwise p) (_style p).
Definition set_strokeBounds (v : option (Rectangle.t num)) p : Path num :=
  mkPath (_id p) (_segments p) (_curves p) (_closed p) (_selectedSegmentCount p) (_length p)
    (_bounds p) (_position p) v (_clockwise p) (_style p).
Definition set_clockwise (v : option bool) p : Path num :=
  mkPath (_id p) (_segments p) (_curves p) (_closed p) (_selectedSegmentCount p) (_length p)
    (_bounds p) (_position p) (_strokeBounds p) v (_style p).

Definition on_this (f : Path num → Path num) st : State num :=
  mkState (heap st) (f (this st)).
Definition on_heap (f : list (Segment.t num) → list (Segment.t num)) st : State num :=
  mkState (f (heap st)) (this st).

(** ** The store *)

(** A reference held by a JavaScript variable always designates an object;
    [!!!] falls back on a default only for a reference outside the store. *)
Definition deref st r : Segment.t num := heap st !!! r.
Definition update r (f : Segment.t num → Segment.t num) st : State num :=
  on_heap (alter f r) st.
Definition alloc (s : Segment.t num) st : ref * State num :=
  (length (heap st), on_heap (λ h, h ++ [s]) st).

(** ** [_changed] *)
Definition _changed (flags : ChangeFlags) p : Path num :=
  match flags with
  | GEOMETRY =>
      mkPath (_id p) (_segments p) (_curves p) (_closed p) (_selectedSegmentCount p)
        None None None None None (_style p)
  | STROKE => set_strokeBounds None p
  end.

(** ** [_updateSelection]
    The upcall [this._project._selectItem] goes to the project, which is
    not part of the path. *)
Definition _updateSelection r st : State num :=
  let count := (_selectedSegmentCount (this st)
                + if bool_decide (Segment._selectionState (deref st r) ≠ 0%Z) then 1 else -1)%Z in
  on_this (set_selectedSegmentCount count) st.

(** ** [getCurves] *)
Definition getCurves st : list (option Curve.t) * State num :=
  match _curves (this st) with
  | Some curves => (curves, st)
  | None =>
      let segments := _segments (this st) in
      let length := length segments in
      (* Reduce length by one if it's an open path: *)
      let length := if negb (_closed (this st)) && (0 <? length)%nat
                    then (length - 1)%nat else length in
      let curves :=
        (λ i, Some (Curve.create (_id (this st)) (segments !! i)
                      (* Use first segment for segment2 of closing curve *)
                      (if segments !! (i + 1)%nat is Some s then Some s else segments !! 0%nat)))
        <$> seq 0 length in
      (curves, on_this (set_curves (Some curves)) st)
  end.

(** ** [setClosed]
    [this._curves.length = length] truncates the array or extends it with
    holes; [curves[-1] = ...] (closing a path without segments) sets a
    property that is not an element. *)
Definition setClosed (closed : bool) st : State num :=
  if bool_decide (_closed (this st) ≠ closed) then
    let st := on_this (set_closed closed) st in
    let st :=
      match _curves (this st) with
      | Some curves =>
          let length := length (_segments (this st)) in
          let length := if negb closed && (0 <? length)%nat then (length - 1)%nat else length in
          let curves := resize length None curves in
          let curves :=
            if closed then
              match length with
              | O => curves
              | S i => <[i := Some (Curve.create (_id (this st))
                                      (_segments (this st) !! i) (_segments (this st) !! 0%nat))]> curves
              end
            else curves in
          on_this (set_curves (Some curves)) st
      | None => st
      end in
    on_this (_changed GEOMETRY) st
  else st.

(** ** [_add] *)

(** The body of the first loop of [_add], for [segs[i] = r]: clone the
    segment if it belongs to a path already, attach it and give it its
    index. The result is the segment that [segs[i]] holds afterwards. *)
Definition _add_attach_one (index i : nat) r st : ref * State num :=
  let '(r, st) :=
    if Segment._path (deref st r) is Some _
    then alloc (Segment.clone (deref st r)) st
    else (r, st) in
  let st := update r (Segment.with_path (Some (_id (this st)))) st in
  let st := update r (Segment.with_index (Some (index + i)%nat)) st in
  let st := if bool_decide (Segment._selectionState (deref st r) ≠ 0%Z)
            then _updateSelection r st else st in
  (r, st).

(** The first loop of [_add]; [i] is the loop counter, and the returned
    list is the array [segs] after the loop. *)
Fixpoint _add_attach (index i : nat) (segs : list ref) st : list ref * State num :=
  match segs with
  | [] => ([], st)
  | r :: segs' =>
      let '(r, st) := _add_attach_one index i r st in
      let '(rs, st) := _add_attach index (S i) segs' st in
      (r :: rs, st)
  end.

(** [for (i = from; i < segments.length; i++) segments[i]._index = i] *)
Fixpoint reindex_loop (i : nat) (rs : list ref) (h : list (Segment.t num)) : list (Segment.t num) :=
  match rs with
  | [] => h
  | r :: rs' => reindex_loop (S i) rs' (alter (Segment.with_index (Some i)) r h)
  end.
Definition reindex (from : nat) st : State num :=
  on_heap (reindex_loop from (drop from (_segments (this st)))) st.

(** [if (curve = curves[k]) curve._segment1 = v] *)
Definition patch_segment1 (k : nat) (v : option ref) (curves : list (option Curve.t)) :=
  match curves !! k with
  | Some (Some c) => <[k := Some (Curve.with_segment1 v c)]> curves
  | _ => curves
  end.
Definition patch_segment2 (k : nat) (v : option ref) (curves : list (option Curve.t)) :=
  match curves !! k with
  | Some (Some c) => <[k := Some (Curve.with_segment2 v c)]> curves
  | _ => curves
  end.

Definition _add (segs : list ref) (index : option nat) st : list ref * State num :=
  let segments := _segments (this st) in
  let curves := _curves (this st) in
  let amount := length segs in
  let append := bool_decide (index = None) in
  let index := default (length segments) index in
  let '(segs, st) := _add_attach index 0 segs st in
  let st :=
    if append then
      (* Append them all at the end by using push *)
      on_this (set_segments (segments ++ segs)) st
    else
      (* Insert somewhere else *)
      let st := on_this (set_segments (take index segments ++ segs ++ drop index segments)) st in
      (* Adjust the indices of the segments above. *)
      reindex (index + amount) st in
  let segments := _segments (this st) in
  let st :=
    match curves, index with
    | Some curves, S index =>
        (* Insert a new curve as well and update the curves above *)
        let curves := take index curves
                      ++ Some (Curve.create (_id (this st)) (segments !! index) (segments !! (index + 1)%nat))
                      :: drop index curves in
        (* Adjust segment1 now for the curves above the inserted one *)
        let curves := patch_segment1 (index + amount) (segments !! (index + amount)%nat) curves in
        on_this (set_curves (Some curves)) st
    | _, _ => st
    end in
  (segs, on_this (_changed GEOMETRY) st).

(** ** [removeSegments]
    [from] and [to] are [None] when the argument is omitted. The statement
    [removed._index = removed._path = undefined] assigns to two properties
    of the array [removed], not of [segment]: no segment changes. *)
Fixpoint removeSegments_deselect (removed : list ref) st : State num :=
  match removed with
  | [] => st
  | r :: removed' =>
      let st :=
        if bool_decide (Segment._selectionState (deref st r) ≠ 0%Z) then
          _updateSelection r (update r (Segment.with_selectionState 0) st)
        else st in
      removeSegments_deselect removed' st
  end.

Definition removeSegments (from to : option nat) st : list ref * State num :=
  let from := default 0%nat from in
  let segments := _segments (this st) in
  (* to = Base.pick(to, this._segments.length - 1) *)
  let to : Z := match to with Some t => Z.of_nat t | None => (Z.of_nat (length segments) - 1)%Z end in
  let curves := _curves (this st) in
  let last := (Z.of_nat (length segments) <=? to)%Z in
  let count := Z.to_nat (to - Z.of_nat from) in
  let removed := take count (drop from segments) in
  let st := on_this (set_segments (take from segments ++ drop (from + count) segments)) st in
  let amount := length removed in
  if bool_decide (amount = 0%nat) then (removed, st) else
  (* Update selection state accordingly *)
  let st := removeSegments_deselect removed st in
  (* Adjust the indices of the segments above. *)
  let st := reindex from st in
  let segments := _segments (this st) in
  (* Keep curves in sync *)
  let st :=
    match curves with
    | Some curves =>
        let curves := take from curves ++ drop (from + amount) curves in
        (* Adjust segments for the curves before and after the removed ones *)
        let curves := match from with
                      | S k => patch_segment2 k (segments !! from) curves
                      | O => curves
                      end in
        let curves := patch_segment1 from (segments !! from) curves in
        (* If the last segment of a closing path was removed, we need to
           readjust the last curve of the list now. *)
        let curves := if last && _closed (this st)
                      then match length curves with
                           | S k => patch_segment2 k (segments !! 0%nat) curves
                           | O => curves
                           end
                      else curves in
        on_this (set_curves (Some curves)) st
    | None => st
    end in
  (removed, on_this (_changed GEOMETRY) st).

(** ** [reverse] *)
Definition reverse st : State num :=
  let st := on_this (set_segments (rev (_segments (this st)))) st in
  (* Reverse the handles: *)
  let st := on_heap (λ h, foldl (λ h r, alter Segment.swapHandles r h) h (_segments (this st))) st in
  (* Flip clockwise state if it's defined *)
  on_this (λ p, set_clockwise (negb <$> _clockwise p) p) st.

End Path.

(* ------------------------------------------------------------------ *)
(** * Length and location *)

Section Location.
Context {num : Type} `{!Number num}.
Implicit Types (st : State num).

(** Curve.js is not part of the sources: the two methods of a curve that
    Path.js calls are parameters. They read the segments of the curve in
    the store. *)
Variable Curve_getLength : list (Segment.t num) → Curve.t → num.
Variable Curve_getParameter : list (Segment.t num) → Curve.t → num → num.

(** The loop of [getLength]; reading a hole of the array throws. *)
Fixpoint getLength_loop (curves : list (option Curve.t)) st : Outcome (State num) unit :=
  match curves with
  | [] => Ret () st
  | None :: _ => Throw TypeError st
  | Some curve :: curves' =>
      getLength_loop curves'
        (on_this (λ p, set_length
                         (Some (default (of_Z 0) (_length p) + Curve_getLength (heap st) curve)%js) p) st)
  end.

Definition getLength st : Outcome (State num) num :=
  match _length (this st) with
  | Some length => Ret length st
  | None =>
      let '(curves, st) := getCurves st in
      let st := on_this (set_length (Some (of_Z 0))) st in
      bind (getLength_loop curves st) (λ _ st, Ret (default (of_Z 0) (_length (this st))) st)
  end.

(** [curves[index]] for a JavaScript integer [index]. *)
Definition curve_at (curves : list (option Curve.t)) (index : Z) : option Curve.t :=
  if (index <? 0)%Z then None else mjoin (curves !! Z.to_nat index).

(** The loop of [getLocationAt]: [Ret (Some loc)] is the [return] inside
    the loop, [Ret None] the normal end of the loop. *)
Fixpoint getLocationAt_loop (curves : list (option Curve.t)) (length offset : num) st
  : Outcome (State num) (option (CurveLocation.t num)) :=
  match curves with
  | [] => Ret None st
  | None :: _ => Throw TypeError st
  | Some curve :: curves' =>
      let start := length in
      let length := (length + Curve_getLength (heap st) curve)%js in
      if (offset <=? length)%js then
        (* Found the segment within which the length lies *)
        Ret (Some (CurveLocation.mk (Some curve)
                     (Curve_getParameter (heap st) curve (offset - start)%js))) st
      else getLocationAt_loop curves' length offset st
  end.

Definition getLocationAt (offset : num) (isParameter : bool) st
  : Outcome (State num) (option (CurveLocation.t num)) :=
  let '(curves, st) := getCurves st in
  if isParameter then
    (* offset consists of curve index and curve parameter, before and
       after the fractional digit. *)
    let index := ntoInt32 offset in
    Ret (Some (CurveLocation.mk (curve_at curves index) (offset - of_Z index)%js)) st
  else
    bind (getLocationAt_loop curves (of_Z 0) offset st) (λ found st,
      match found with
      | Some loc => Ret (Some loc) st
      | None =>
          (* It may be that through impreciseness of getLength, that the end
             of the curves was missed: *)
          bind (getLength st) (λ total st,
            if (offset <=? total)%js
            then Ret (Some (CurveLocation.mk
                              (curve_at curves (Z.of_nat (length curves) - 1)) (of_Z 1))) st
            else Ret None st)
      end).
End Location.

(* ------------------------------------------------------------------ *)
(** * Orientation *)

Section Orientation.
Context {num : Type} `{!Number num}.
Implicit Types (st : State num).

(** The local function [edge] of [isClockwise]; the pair is [(sum, pre)]
    where [pre] is [None] while [xPre] is [undefined]. *)
Definition edge (x y : num) (acc : num * option (num * num)) : num * option (num * num) :=
  let '(sum, pre) := acc in
  let sum := match pre with
             | Some (xPre, yPre) => (sum + (xPre - x) * (y + yPre))%js
             | None => sum
             end in
  (sum, Some (x, y)).

Definition isClockwise st : bool :=
  match _clockwise (this st) with
  | Some clockwise => clockwise
  | None =>
      let segments := _segments (this st) in
      let l := length segments in
      let step acc i :=
        let seg1 := deref st (segments !!! i) in
        let seg2 := deref st (segments !!! (if (i + 1 <? l)%nat then (i + 1)%nat else 0%nat)) in
        let point1 := Segment._point seg1 in
        let handle1 := Segment._handleOut seg1 in
        let handle2 := Segment._handleIn seg2 in
        let point2 := Segment._point seg2 in
        let acc := edge (Point._x point1) (Point._y point1) acc in
        let acc := edge (Point._x point1 + Point._x handle1)%js (Point._y point1 + Point._y handle1)%js acc in
        let acc := edge (Point._x point2 + Point._x handle2)%js (Point._y point2 + Point._y handle2)%js acc in
        edge (Point._x point2) (Point._y point2) acc in
      let '(sum, _) := foldl step (of_Z 0, None) (seq 0 l) in
      (of_Z 0 <? sum)%js
  end.

Definition setClockwise (clockwise : bool) st : State num :=
  if bool_decide (isClockwise st ≠ clockwise) then
    (* Only revers the path if its clockwise orientation is not the same
       as what it is now demanded to be. *)
    on_this (set_clockwise (Some clockwise)) (reverse st)
  else st.
End Orientation.

(* ------------------------------------------------------------------ *)
(** * Smoothing *)

(** A JavaScript array filled by index: a write past the end extends the
    array, leaving holes; reading a hole gives [undefined]. *)
Definition aset {A} (a : list (option A)) (i : nat) (v : A) : list (option A) :=
  if (i <? length a)%nat then <[i := Some v]> a
  else a ++ replicate (i - length a) None ++ [Some v].
Definition aget {A} (a : list (option A)) (i : nat) : option A := mjoin (a !! i).

Section Smooth.
Context {num : Type} `{!Number num}.
Implicit Types (st : State num) (r : ref).

(** The number that arithmetic on [undefined] produces ([NaN] for IEEE). *)
Definition undefined_number : num := (of_Z 0 / of_Z 0)%js.
Definition num_at (a : list (option num)) (i : nat) : num := default undefined_number (aget a i).
(** Every read of [knots] in [smooth] is at an index written before. *)
Definition knot_at (a : list (option (Point.t num))) (i : nat) : Point.t num :=
  default (Point.mk undefined_number undefined_number) (aget a i).

(** Modelled from the spec: Segment.setHandleIn and Segment.setHandleOut
    are not part of the sources. They store the handle and, the segment
    geometry having changed, the owning path drops its cached values
    ("All are invalidated together whenever segment geometry or topology
    changes"). *)
Definition Segment_changed r st : State num :=
  if bool_decide (Segment._path (deref st r) = Some (_id (this st)))
  then on_this (_changed GEOMETRY) st else st.
Definition setHandleIn r (h : Point.t num) st : State num :=
  Segment_changed r (update r (Segment.with_handleIn h) st).
Definition setHandleOut r (h : Point.t num) st : State num :=
  Segment_changed r (update r (Segment.with_handleOut h) st).

(** [getFirstControlPoints]: the loop state is [(x, tmp, b)]. *)
Definition getFirstControlPoints (rhs : list (option num)) : list (option num) :=
  let n := length rhs in
  let b := of_Z 2 in
  let x := aset [] 0 (num_at rhs 0 / b)%js in
  (* Decomposition and forward substitution. *)
  let '(x, tmp, _) :=
    foldl (λ '(x, tmp, b) i,
             let tmp := aset tmp i (of_Z 1 / b)%js in
             let b := ((if (i <? n - 1)%nat then of_Z 4 else of_Z 2) - num_at tmp i)%js in
             let x := aset x i ((num_at rhs i - num_at x (i - 1)) / b)%js in
             (x, tmp, b))
          (x, ([] : list (option num)), b) (seq 1 (n - 1)) in
  (* Back-substitution. *)
  foldl (λ x i, aset x (n - i - 1) (num_at x (n - i - 1) - num_at tmp (n - i) * num_at x (n - i))%js)
        x (seq 1 (n - 1)).

(** The right hand side vector for one coordinate [c] of the knots; [rhs]
    is the array of the previous coordinate, written over. *)
Definition smooth_rhs (c : Point.t num → num) (knots : list (option (Point.t num)))
    (n : nat) (rhs : list (option num)) : list (option num) :=
  let rhs := foldl (λ rhs i, aset rhs i (of_Z 4 * c (knot_at knots i)
                                         + of_Z 2 * c (knot_at knots (i + 1)))%js)
                   rhs (seq 1 (n - 1 - 1)) in
  let rhs := aset rhs 0 (c (knot_at knots 0) + of_Z 2 * c (knot_at knots 1))%js in
  aset rhs (n - 1) (of_Z 3 * c (knot_at knots (n - 1)))%js.

(** One turn of the loop that sets the calculated handles. *)
Definition smooth_set (segments : list ref) (knots : list (option (Point.t num)))
    (x y : list (option num)) (overlap n : nat)
    (acc : option (Point.t num) * State num) (i : nat) : option (Point.t num) * State num :=
  let '(handleIn, st) := acc in
  let segment := segments !!! (i - overlap)%nat in
  let st := match handleIn with
            | Some h => setHandleIn segment (Point.subtract h (Segment._point (deref st segment))) st
            | None => st
            end in
  if (i <? n)%nat then
    let st := setHandleOut segment
                (Point.subtract (Point.mk (num_at x i) (num_at y i))
                                (Segment._point (deref st segment))) st in
    if (i <? n - 1)%nat then
      (Some (Point.mk (of_Z 2 * Point._x (knot_at knots (i + 1)) - num_at x (i + 1))%js
                      (of_Z 2 * Point._y (knot_at knots (i + 1)) - num_at y (i + 1))%js), st)
    else
      (Some (Point.mk ((Point._x (knot_at knots n) + num_at x (n - 1)) / of_Z 2)%js
                      ((Point._y (knot_at knots n) + num_at y (n - 1)) / of_Z 2)%js), st)
  else (handleIn, st).

(** The part of [smooth] that computes: the knots, the first control
    points [x] and [y], the overlap and [n] as they stand when the handles
    are set. It is not entered with fewer than three segments. *)
Definition smooth_solve st
  : list (option (Point.t num)) * list (option num) * list (option num) * nat * nat :=
  let segments := _segments (this st) in
  let size := length segments in
  let n := size in
  let closed := _closed (this st) in
  (* Overlap up to 4 points since averaging beziers affect the 4
     neighboring points *)
  let overlap := if closed then Nat.min size 4 else 0%nat in
  let n := if closed then (n + Nat.min size overlap * 2)%nat else n in
  let point_of i := Segment._point (deref st (segments !!! i)) in
  let knots := foldl (λ knots i, aset knots (i + overlap) (point_of i)) [] (seq 0 size) in
  let knots :=
    if closed then
      (* If we're averaging, add the 4 last points again at the
         beginning, and the 4 first ones at the end. *)
      foldl (λ knots i, aset (aset knots i (point_of (i + size - overlap)%nat))
                             (i + size + overlap) (point_of i))
            knots (seq 0 overlap)
    else knots in
  let n := if closed then n else (n - 1)%nat in
  (* Calculate first Bezier control points *)
  let rhs := smooth_rhs Point._x knots n [] in
  let x := getFirstControlPoints rhs in
  let rhs := smooth_rhs Point._y knots n rhs in
  let y := getFirstControlPoints rhs in
  let '(x, y) :=
    if closed then
      (* Do the actual averaging simply by linearly fading between the
         overlapping values. *)
      foldl (λ '(x, y) i,
               let j := (size + i)%nat in
               let f1 := (of_Z (Z.of_nat i) / of_Z (Z.of_nat overlap))%js in
               let f2 := (of_Z 1 - f1)%js in
               (* Beginning *)
               let x := aset x j (num_at x i * f1 + num_at x j * f2)%js in
               let y := aset y j (num_at y i * f1 + num_at y j * f2)%js in
               (* End *)
               let ie := (i + overlap)%nat in
               let je := (j + overlap)%nat in
               let x := aset x je (num_at x ie * f2 + num_at x je * f1)%js in
               let y := aset y je (num_at y ie * f2 + num_at y je * f1)%js in
               (x, y))
            (x, y) (seq 0 overlap)
    else (x, y) in
  let n := if closed then (n - 1)%nat else n in
  (knots, x, y, overlap, n).

Definition smooth st : State num :=
  let segments := _segments (this st) in
  let size := length segments in
  if (size <=? 2)%nat then st else
  let '(knots, x, y, overlap, n) := smooth_solve st in
  (* Now set the calculated handles *)
  let '(handleIn, st) :=
    foldl (smooth_set segments knots x y overlap n) (None, st)
          (seq overlap (n - overlap + 1 - overlap)) in
  match _closed (this st), handleIn with
  | true, Some h =>
      let segment := _segments (this st) !!! 0%nat in
      setHandleIn segment (Point.subtract h (Segment._point (deref st segment))) st
  | _, _ => st
  end.
End Smooth.

(* ------------------------------------------------------------------ *)
(** * PostScript-style drawing commands *)

(** The functions of JavaScript's [Math] that [arcTo] calls. *)
Class MathLib (num : Type) := {
  Math_PI : num;
  Math_sin : num → num;
  Math_cos : num → num;
  Math_atan2 : num → num → num;
  Math_abs : num → num;
  Math_ceil : num → num;
  Math_min : num → num → num;
  Math_max : num → num → num;
}.

(** The two ways of calling [arcTo]: [arcTo(through, to)] and
    [arcTo(to, clockwise)], where [clockwise] is [None] when omitted. *)
Inductive ArcArgs (num : Type) :=
| ArcThrough (through to : Point.t num)
| ArcClockwise (to : Point.t num) (clockwise : option bool).
Arguments ArcThrough {num} _ _.
Arguments ArcClockwise {num} _ _.

Section Drawing.
Context {num : Type} `{!Number num}.
Implicit Types (st : State num) (r : ref).

Definition getCurrentSegment st : Outcome (State num) ref :=
  match list.last (_segments (this st)) with
  | None => Throw UseMoveToFirst st
  | Some r => Ret r st
  end.

(** [this._add([ new Segment(...) ])] *)
Definition add_new_Segment (s : Segment.t num) st : State num :=
  let '(r, st) := alloc s st in
  (_add [r] None st).2.

Definition moveTo (point : Point.t num) st : State num :=
  (* Let's not be picky about calling moveTo() when not at the
     beginning of a path, just bail out: *)
  if bool_decide (length (_segments (this st)) = 0%nat)
  then add_new_Segment (Segment.create point Point.zero Point.zero) st
  else st.

Definition lineTo (point : Point.t num) st : State num :=
  (* Let's not be picky about calling moveTo() first: *)
  add_new_Segment (Segment.create point Point.zero Point.zero) st.

Definition cubicCurveTo (handle1 handle2 to : Point.t num) st : Outcome (State num) unit :=
  (* First modify the current segment: *)
  bind (getCurrentSegment st) (λ current st,
    (* Convert to relative values: *)
    let st := setHandleOut current
                (Point.subtract handle1 (Segment._point (deref st current))) st in
    (* And add the new segment, with handleIn set to c2 *)
    Ret () (add_new_Segment (Segment.create to (Point.subtract handle2 to) Point.zero) st)).

Definition quadraticCurveTo (handle to : Point.t num) st : Outcome (State num) unit :=
  bind (getCurrentSegment st) (λ r st,
    let current := Segment._point (deref st r) in
    cubicCurveTo
      (Point.add handle (Point.multiply (Point.subtract current handle) (of_Z 1 / of_Z 3)%js))
      (Point.add handle (Point.multiply (Point.subtract to handle) (of_Z 1 / of_Z 3)%js))
      to st).

(** [parameter] is [None] when omitted: [Base.pick(parameter, 0.5)]. *)
Definition curveTo (through to : Point.t num) (parameter : option num) st
  : Outcome (State num) unit :=
  let t := default (of_Z 1 / of_Z 2)%js parameter in
  let t1 := (of_Z 1 - t)%js in
  bind (getCurrentSegment st) (λ r st,
    let current := Segment._point (deref st r) in
    (* handle = (through - (1 - t)^2 * current - t^2 * to) / (2 * (1 - t) * t) *)
    let handle :=
      Point.divide
        (Point.subtract (Point.subtract through (Point.multiply current (t1 * t1)%js))
                        (Point.multiply to (t * t)%js))
        (of_Z 2 * t * t1)%js in
    if Point.isNaN handle then Throw CannotPutCurve st
    else quadraticCurveTo handle to st).

Definition lineBy (vector : Point.t num) st : Outcome (State num) unit :=
  bind (getCurrentSegment st) (λ current st,
    Ret () (lineTo (Point.add (Segment._point (deref st current)) vector) st)).

(** [curveBy] and [arcBy] hand each vector to [Point.read] in the place
    of a list of arguments: [Point.read(throughVector)], not
    [Point.read(arguments, 0, 1)]. What [Base.read] makes of a point
    object read as a list rests on [Point#initialize] and on the
    properties of a point, which are in Point.js, not part of the
    sources: [Point_read] is the point that the call returns. *)
Variable Point_read : Point.t num → Point.t num.

Definition curveBy (throughVector toVector : Point.t num) (parameter : option num) st
  : Outcome (State num) unit :=
  let throughVector := Point_read throughVector in
  let toVector := Point_read toVector in
  bind (getCurrentSegment st) (λ r st,
    let current := Segment._point (deref st r) in
    curveTo (Point.add current throughVector) (Point.add current toVector) parameter st).

(** [arcBy] calls the method [arcBy] again. [fuel] bounds the depth of the
    calls that are followed; [None] means that the call at that depth has
    not returned. *)
Fixpoint arcBy (fuel : nat) (throughVector toVector : Point.t num) st
  : option (Outcome (State num) unit) :=
  match fuel with
  | O => None
  | S fuel =>
      let throughVector := Point_read throughVector in
      let toVector := Point_read toVector in
      match getCurrentSegment st with
      | Throw e st => Some (Throw e st)
      | Ret r st =>
          let current := Segment._point (deref st r) in
          arcBy fuel (Point.add current throughVector) (Point.add current toVector) st
      end
  end.

Definition closePath st : State num := setClosed true st.

(** ** [arcTo] *)
Context `{!MathLib num}.

(** The circle through the three points: [(cx, cy, radius)]. *)
Definition arcTo_circle (x1 y1 x2 y2 x3 y3 : num) : num * num * num :=
  let f := (x3 * x3 - x3 * x2 - x1 * x3 + x1 * x2 + y3 * y3 - y3 * y2
            - y1 * y3 + y1 * y2)%js in
  let g := (x3 * y1 - x3 * y2 + x1 * y2 - x1 * y3 + x2 * y3 - x2 * y1)%js in
  let m := if (g =? of_Z 0)%js then of_Z 0 else (f / g)%js in
  let e := (x1 * x2 + y1 * y2 - m * (x1 * y2 - y1 * x2))%js in
  let cx := ((x1 + x2 - m * (y2 - y1)) / of_Z 2)%js in
  let cy := ((y1 + y2 - m * (x1 - x2)) / of_Z 2)%js in
  let radius := nsqrt (cx * cx + cy * cy - e)%js in
  (cx, cy, radius).

(** The number of turns of [for (i = 0; i <= arcSegs; i++)]; [arcSegs] is
    4 or a value of [Math.ceil], and never reaches 2^31. *)
Definition arcTo_turns (arcSegs : num) : nat :=
  if (of_Z 0 <=? arcSegs)%js then Z.to_nat (ntoInt32 arcSegs + 1) else 0%nat.

(** One turn of the loop; the state is [(angle, segments, st)]. *)
Definition arcTo_turn (current : ref) (cx cy radius z inc arcSegs : num)
    (acc : num * list ref * State num) (i : nat) : num * list ref * State num :=
  let '(angle, segments, st) := acc in
  let relx := Math_cos angle in
  let rely := Math_sin angle in
  let pt := Point.mk (cx + relx * radius)%js (cy + rely * radius)%js in
  let out :=
    if (of_Z (Z.of_nat i) =? arcSegs)%js then None
    else Some (Point.mk (cx + (relx - z * rely) * radius - Point._x pt)%js
                        (cy + (rely + z * relx) * radius - Point._y pt)%js) in
  let '(segments, st) :=
    if bool_decide (i = 0%nat) then
      (* Modify startSegment *)
      (segments, setHandleOut current (default Point.zero out) st)
    else
      (* Add new Segment *)
      let '(r, st) :=
        alloc (Segment.create pt
                 (Point.mk (cx + (relx + z * rely) * radius - Point._x pt)%js
                           (cy + (rely - z * relx) * radius - Point._y pt)%js)
                 (default Point.zero out)) st in
      (segments ++ [r], st) in
  ((angle + inc)%js, segments, st).

Definition arcTo (args : ArcArgs num) st : Outcome (State num) unit :=
  (* Get the start point: *)
  bind (getCurrentSegment st) (λ current st,
    let cpoint := Segment._point (deref st current) in
    let '(through, to) :=
      match args with
      | ArcThrough through to => (through, to)
      | ArcClockwise to clockwise =>
          let middle := Point.divide (Point.add cpoint to) (of_Z 2) in
          let step := Point.subtract middle cpoint in
          let through :=
            if default false clockwise
            then Point.subtract middle (Point.mk (- Point._y step)%js (Point._x step))
            else Point.add middle (Point.mk (- Point._y step)%js (Point._x step)) in
          (through, to)
      end in
    let x1 := Point._x cpoint in let x2 := Point._x through in let x3 := Point._x to in
    let y1 := Point._y cpoint in let y2 := Point._y through in let y3 := Point._y to in
    let '(cx, cy, radius) := arcTo_circle x1 y1 x2 y2 x3 y3 in
    let angle := Math_atan2 (y1 - cy)%js (x1 - cx)%js in
    let middle := Math_atan2 (y2 - cy)%js (x2 - cx)%js in
    let extent := Math_atan2 (y3 - cy)%js (x3 - cx)%js in
    let diff := (middle - angle)%js in
    let d90 := Math_PI in
    let d180 := (d90 * of_Z 2)%js in
    let diff := if (diff <? - d90)%js then (diff + d180)%js
                else if (d90 <? diff)%js then (diff - d180)%js else diff in
    let extent := (extent - angle)%js in
    let extent := if (extent <=? of_Z 0)%js then (extent + d180)%js else extent in
    let extent := if (diff <? of_Z 0)%js then (extent - d180)%js else extent in
    let ext := Math_abs extent in
    let arcSegs := if (d180 <=? ext)%js then of_Z 4 else Math_ceil (ext * of_Z 2 / Math_PI)%js in
    let inc := (Math_min (Math_max extent (- d180)%js) d180 / arcSegs)%js in
    let z := (of_Z 4 / of_Z 3 * Math_sin (inc / of_Z 2) / (of_Z 1 + Math_cos (inc / of_Z 2)))%js in
    let '(_, segments, st) :=
      foldl (arcTo_turn current cx cy radius z inc arcSegs) (angle, [], st)
            (seq 0 (arcTo_turns arcSegs)) in
    (* Add all segments at once at the end for higher performance *)
    Ret () (_add segments None st).2).
End Drawing.

(* ------------------------------------------------------------------ *)
(** * Bounds *)

Section Bounds.
Context {num : Type} `{!Number num}.
Implicit Types (st : State num) (r : ref).

#[local] Instance num_inhabited : Inhabited num := populate (of_Z 0).

(** Modelled from the spec: Rectangle.js is not part of the sources.
    [include] and [unite] give the smallest rectangle that covers the
    receiver and the point, or the other rectangle ("extend bounds to
    cover", "union with"); [centered] is [new Rectangle(size)] followed by
    [setCenter(point)] ("a square of side 2×padding centered on the
    anchor"). *)
Definition nmin (a b : num) : num := if (b <? a)%js then b else a.
Definition nmax (a b : num) : num := if (a <? b)%js then b else a.

Definition Rectangle_include (rect : Rectangle.t num) (point : Point.t num) : Rectangle.t num :=
  let x1 := nmin (Rectangle.x rect) (Point._x point) in
  let y1 := nmin (Rectangle.y rect) (Point._y point) in
  let x2 := nmax (Rectangle.x rect + Rectangle.width rect)%js (Point._x point) in
  let y2 := nmax (Rectangle.y rect + Rectangle.height rect)%js (Point._y point) in
  Rectangle.create x1 y1 (x2 - x1)%js (y2 - y1)%js.

Definition Rectangle_unite (rect other : Rectangle.t num) : Rectangle.t num :=
  let x1 := nmin (Rectangle.x rect) (Rectangle.x other) in
  let y1 := nmin (Rectangle.y rect) (Rectangle.y other) in
  let x2 := nmax (Rectangle.x rect + Rectangle.width rect)%js
                 (Rectangle.x other + Rectangle.width other)%js in
  let y2 := nmax (Rectangle.y rect + Rectangle.height rect)%js
                 (Rectangle.y other + Rectangle.height other)%js in
  Rectangle.create x1 y1 (x2 - x1)%js (y2 - y1)%js.

Definition Rectangle_centered (width height : num) (point : Point.t num) : Rectangle.t num :=
  Rectangle.create (Point._x point - width / of_Z 2)%js (Point._y point - height / of_Z 2)%js
                   width height.


(** Modelled from the spec: Segment._transformCoordinates is not part of
    the sources. Without a matrix it fills the array with the anchor and
    the two handles in absolute coordinates: "segment.point,
    segment.point + segment.handleIn, segment.point + segment.handleOut". *)
Definition Segment_coords (s : Segment.t num) : list num :=
  let x := Point._x (Segment._point s) in
  let y := Point._y (Segment._point s) in
  [ x; y;
    (x + Point._x (Segment._handleIn s))%js; (y + Point._y (Segment._handleIn s))%js;
    (x + Point._x (Segment._handleOut s))%js; (y + Point._y (Segment._handleOut s))%js ].

(** An array of two numbers, [min] or [max], read and written at [i]. *)
Definition get2 (i : nat) (a : num * num) : num := if i is O then a.1 else a.2.
Definition set2 (i : nat) (v : num) (a : num * num) : num * num :=
  if i is O then (v, a.2) else (a.1, v).

(** [Numerical.TOLERANCE]; Numerical.js is not part of the sources. *)
Variable TOLERANCE : num.

(** The local function [add] of [processSegment]: [inl value] is
    [add(value, null)], [inr t] is [add(null, t)]. *)
Definition bounds_add (strokePadding : option (num * num)) (i : nat) (v0 v1 v2 v3 : num)
    (arg : num + num) (mm : (num * num) * (num * num)) : (num * num) * (num * num) :=
  let '(min, max) := mm in
  let '(value, padding) :=
    match arg with
    | inl value => (value, of_Z 0)
    | inr t =>
        (* Calculate bezier polynomial at t *)
        let u := (of_Z 1 - t)%js in
        ((u * u * u * v0 + of_Z 3 * u * u * t * v1 + of_Z 3 * u * t * t * v2 + t * t * t * v3)%js,
         (* Only add strokeWidth to bounds for points which lie
            within 0 < t < 1. *)
         if strokePadding is Some sp then get2 i sp else of_Z 0)
    end in
  let left := (value - padding)%js in
  let right := (value + padding)%js in
  let min := if (left <? get2 i min)%js then set2 i left min else min in
  let max := if (get2 i max <? right)%js then set2 i right max else max in
  (min, max).

(** The body of [for (var i = 0; i < 2; i++)] in [processSegment]. *)
Definition processAxis (strokePadding : option (num * num)) (prevCoords coords : list num)
    (i : nat) (mm : (num * num) * (num * num)) : (num * num) * (num * num) :=
  let tMin := TOLERANCE in
  let tMax := (of_Z 1 - tMin)%js in
  let v0 := prevCoords !!! i in              (* prev.point *)
  let v1 := prevCoords !!! (i + 4)%nat in    (* prev.handleOut *)
  let v2 := coords !!! (i + 2)%nat in        (* segment.handleIn *)
  let v3 := coords !!! i in                  (* segment.point *)
  let add := bounds_add strokePadding i v0 v1 v2 v3 in
  let mm := add (inl v3) mm in
  (* Calculate derivative of our bezier polynomial, divided by 3. *)
  let a := (of_Z 3 * (v1 - v2) - v0 + v3)%js in
  let b := (of_Z 2 * (v0 + v2) - of_Z 4 * v1)%js in
  let c := (v1 - v0)%js in
  if (a =? of_Z 0)%js then
    if (b =? of_Z 0)%js then mm
    else
      let t := (- c / b)%js in
      (* Test for good root and add to bounds if good (same below) *)
      if (tMin <? t)%js && (t <? tMax)%js then add (inr t) mm else mm
  else
    let b2ac := (b * b - of_Z 4 * a * c)%js in
    if (b2ac <? of_Z 0)%js then mm
    else
      let sqrt := nsqrt b2ac in
      let f := (of_Z 1 / (a * of_Z (-2)))%js in
      let t1 := ((b - sqrt) * f)%js in
      let t2 := ((b + sqrt) * f)%js in
      let mm := if (tMin <? t1)%js && (t1 <? tMax)%js then add (inr t1) mm else mm in
      if (tMin <? t2)%js && (t2 <? tMax)%js then add (inr t2) mm else mm.

(** [processSegment]; the state is [(min, max)] and [prevCoords]. *)
Definition processSegment (strokePadding : option (num * num)) st
    (acc : (num * num) * (num * num) * list num) (segment : ref)
  : (num * num) * (num * num) * list num :=
  let '(mm, prevCoords) := acc in
  let coords := Segment_coords (deref st segment) in
  let mm := processAxis strokePadding prevCoords coords 0 mm in
  let mm := processAxis strokePadding prevCoords coords 1 mm in
  (* Swap coordinate buffers *)
  (mm, coords).

(** The private function [getBounds(that, matrix, strokePadding)], called
    without a matrix. *)
Definition getBounds (strokePadding : option (num * num)) st : option (Rectangle.t num) :=
  match _segments (this st) with
  | [] => None
  | first :: rest =>
      (* Make coordinates for first segment available in prevCoords. *)
      let prevCoords := Segment_coords (deref st first) in
      let min := (prevCoords !!! 0%nat, prevCoords !!! 1%nat) in
      let max := min in
      let acc := foldl (processSegment strokePadding st) (min, max, prevCoords) rest in
      let acc := if _closed (this st) then processSegment strokePadding st acc first else acc in
      let '(min, max, _) := acc in
      Some (Rectangle.create (get2 0 min) (get2 1 min)
              (get2 0 max - get2 0 min)%js (get2 1 max - get2 1 min)%js)
  end.

(** [getPenPadding(radius)], without a matrix. *)
Definition getPenPadding (radius : num) : num * num := (radius, radius).

(** The method [getBounds()], called without a matrix. *)
Definition Path_getBounds st : Outcome (State num) (Rectangle.t num) :=
  match _bounds (this st) with
  | Some bounds => Ret bounds st
  | None =>
      match getBounds None st with
      | None => Throw TypeError st       (* bounds.x, bounds being null *)
      | Some bounds =>
          let linked := Rectangle.create (Rectangle.x bounds) (Rectangle.y bounds)
                          (Rectangle.width bounds) (Rectangle.height bounds) in
          Ret linked (on_this (set_bounds (Some linked)) st)
      end
  end.

(** ** [getStrokeBounds] *)

(** The geometry of curves, lines and vectors lives in Curve.js, Line.js,
    Point.js and Segment.js, none of which is part of the sources: the
    methods called by [getStrokeBounds] are parameters. [segment.getCurve()]
    and [curve.getPrevious()] give a curve or [null] ([None]); a method
    called on [null] throws a TypeError, so the methods of a curve take a
    curve. *)
Variable Segment_getCurve : State num → ref → option Curve.t.
Variable Curve_getPrevious : State num → Curve.t → option Curve.t.
Variable Curve_getPoint : State num → Curve.t → num → Point.t num.
Variable Curve_getNormal : State num → Curve.t → num → Point.t num.
Variable Point_normalize : Point.t num → num → Point.t num.
Variable Point_getDistance : Point.t num → Point.t num → num.
Variable Line_intersect :
  Point.t num * Point.t num → Point.t num * Point.t num → option (Point.t num).

(** Modelled from the spec: [getHandleInIfSet] is the handle when it is
    "set", that is not the zero vector. *)
Definition handleIfSet (h : Point.t num) : bool := negb (Point.isZero h).

Section closures.
(** The local variables that the closures of [getStrokeBounds] capture.
    A closure maps [bounds] to the new [bounds]; [None] is the TypeError
    of a method called on a curve that is [null]. *)
Variable st : State num.
Variables radius miter : num.
Variable joinBounds : num * num.

Definition sb_add (point : Point.t num) (bounds : Rectangle.t num) : Rectangle.t num :=
  Rectangle_include bounds point.

Definition addBevelJoin (curve : option Curve.t) (t : num) (bounds : Rectangle.t num)
  : option (Rectangle.t num) :=
  curve ← curve;
  let point := Curve_getPoint st curve t in
  let normal := Point_normalize (Curve_getNormal st curve t) radius in
  Some (sb_add (Point.subtract point normal) (sb_add (Point.add point normal) bounds)).

Definition addJoin_bevel (segment : ref) (bounds : Rectangle.t num)
  : option (Rectangle.t num) :=
  let curve := Segment_getCurve st segment in
  bounds ← addBevelJoin curve (of_Z 0) bounds;
  curve ← curve;
  addBevelJoin (Curve_getPrevious st curve) (of_Z 1) bounds.

Definition addJoin_round (segment : ref) (bounds : Rectangle.t num) : Rectangle.t num :=
  Rectangle_unite bounds
    (Rectangle_centered joinBounds.1 joinBounds.2 (Segment._point (deref st segment))).

Definition addJoin (segment : ref) (join : StrokeJoin) (bounds : Rectangle.t num)
  : option (Rectangle.t num) :=
  let handleIn := handleIfSet (Segment._handleIn (deref st segment)) in
  let handleOut := handleIfSet (Segment._handleOut (deref st segment)) in
  (* When both handles are set in a segment, the join setting is
     ignored and round is always used. *)
  if bool_decide (join = JoinRound) || (handleIn && handleOut) then
    Some (addJoin_round segment bounds)
  else
    match join with
    | JoinRound => Some bounds
    | JoinBevel => addJoin_bevel segment bounds
    | JoinMiter =>
        curve2 ← Segment_getCurve st segment;
        curve1 ← Curve_getPrevious st curve2;
        let point := Curve_getPoint st curve2 (of_Z 0) in
        let normal1 := Point_normalize (Curve_getNormal st curve1 (of_Z 1)) radius in
        let normal2 := Point_normalize (Curve_getNormal st curve2 (of_Z 0)) radius in
        (* Intersect the two lines *)
        let line1 := (Point.add point normal1,
                      Point.mk (- Point._y normal1)%js (Point._x normal1)) in
        let line2 := (Point.subtract point normal2,
                      Point.mk (- Point._y normal2)%js (Point._x normal2)) in
        match Line_intersect line1 line2 with
        | None => addJoin_bevel segment bounds
        | Some corner =>
            (* Now measure the distance from the segment to the
               intersection, which his half of the miter distance *)
            if (miter <? Point_getDistance point corner)%js
            then addJoin_bevel segment bounds
            else Some (sb_add corner bounds)
        end
    end.

Definition addCap (segment : ref) (cap : StrokeCap) (t : num) (bounds : Rectangle.t num)
  : option (Rectangle.t num) :=
  match cap with
  | CapRound => addJoin segment JoinRound bounds
  | CapButt | CapSquare =>
      (* Calculate the corner points of butt and square caps *)
      curve ← Segment_getCurve st segment;
      let point := Curve_getPoint st curve t in
      let normal := Point_normalize (Curve_getNormal st curve t) radius in
      (* For square caps, we need to step away from point in the
         direction of the tangent, which is the rotated normal *)
      let point := if bool_decide (cap = CapSquare)
                   then Point.add point (Point.mk (Point._y normal) (- Point._x normal)%js)
                   else point in
      Some (sb_add (Point.subtract point normal) (sb_add (Point.add point normal) bounds))
  end.
End closures.

(** The method [getStrokeBounds()], called without a matrix. On a path
    without segments [bounds] is [null] and [segments[0]] is [undefined]:
    the first use throws. A join or a cap that calls a method on a curve
    that is [null] throws too; nothing has been stored then. *)
Definition getStrokeBounds st : Outcome (State num) (Rectangle.t num) :=
  let style := _style (this st) in
  if negb (Style._strokeColor style) || negb (ntruthy (Style._strokeWidth style))
  then Path_getBounds st
  else
    match _strokeBounds (this st) with
    | Some bounds => Ret bounds st
    | None =>
        let width := Style._strokeWidth style in
        let radius := (width / of_Z 2)%js in
        let padding := getPenPadding radius in
        let join := Style._strokeJoin style in
        let cap := Style._strokeCap style in
        (* miter is relative to width. Divide it by 2 since we're
           measuring half the distance below *)
        let miter := (Style._miterLimit style * width / of_Z 2)%js in
        let segments := _segments (this st) in
        let length := length segments in
        match getBounds (Some (getPenPadding radius)) st with
        | None => Throw TypeError st
        | Some bounds =>
            (* Create a rectangle of padding size, used for union with bounds
               further down *)
            let joinBounds := ((padding.1 * of_Z 2)%js, (padding.2 * of_Z 2)%js) in
            let l := (length - (if _closed (this st) then 0 else 1))%nat in
            let bounds :=
              foldl (λ bounds i,
                       bounds ← bounds;
                       addJoin st radius miter joinBounds (segments !!! i) join bounds)
                    (Some bounds) (seq 1 (l - 1)) in
            let bounds :=
              bounds ← bounds;
              if _closed (this st) then
                addJoin st radius miter joinBounds (segments !!! 0%nat) join bounds
              else
                bounds ← addCap st radius miter joinBounds (segments !!! 0%nat) cap (of_Z 0) bounds;
                addCap st radius miter joinBounds (segments !!! (length - 1)%nat) cap (of_Z 1)
                  bounds in
            match bounds with
            | None => Throw TypeError st
            | Some bounds => Ret bounds (on_this (set_strokeBounds (Some bounds)) st)
            end
        end
    end.
End Bounds.

(* ------------------------------------------------------------------ *)
(** * [Math] on IEEE-754 numbers

    [Math.abs], [Math.ceil], [Math.min] and [Math.max] are exact.
    ECMAScript leaves [Math.sin], [Math.cos] and [Math.atan2]
    "implementation-approximated"; they are computed here by argument
    reduction and a truncated power series, with the values that ECMAScript
    fixes at zeros, infinities and NaN. An engine may differ from them in
    the last bits. *)

Module FloatMath.
#[local] Open Scope float_scope.

Definition PI : float := 0x1.921fb54442d18p+1.  (* 3.141592653589793 *)
Definition NaN : float := 0 / 0.

Definition ceil (x : float) : float :=
  match Prim2SF x with
  | S754_finite s m e =>
      if (0 <=? e)%Z then x
      else
        let q := Z.shiftr (Zpos m) (- e) in
        let exact := (Z.shiftl q (- e) =? Zpos m)%Z in
        if s then (if (q =? 0)%Z then PrimFloat.opp 0 else float_of_Z (- q))
        else float_of_Z (if exact then q else q + 1)
  | _ => x
  end.

Definition floor (x : float) : float := - ceil (- x).

Definition min (a b : float) : float :=
  if float_isNaN a || float_isNaN b then NaN
  else if a <? b then a else if b <? a then b
  else if get_sign a then a else b.
Definition max (a b : float) : float :=
  if float_isNaN a || float_isNaN b then NaN
  else if a <? b then b else if b <? a then a
  else if get_sign a then b else a.

(** [1 - x2/(n(n+1)) (1 - x2/((n+2)(n+3)) (1 - ...))], [k] factors deep. *)
Fixpoint alternating (k : nat) (n : Z) (x2 : float) : float :=
  match k with
  | O => 1
  | S k => 1 - x2 / float_of_Z (n * (n + 1)) * alternating k (n + 2) x2
  end.

(** Reduction of the argument to [-PI, PI]. *)
Definition reduce (x : float) : float :=
  if (- PI <=? x) && (x <=? PI) then x
  else x - 2 * PI * floor (x / (2 * PI) + 0.5).

Definition sin (x : float) : float :=
  let x := reduce x in x * alternating 16 2 (x * x).
Definition cos (x : float) : float :=
  let x := reduce x in alternating 16 1 (x * x).

(** [1/n - t2 (1/(n+2) - t2 (...))], [k] terms. *)
Fixpoint gregory (k : nat) (n : Z) (t2 : float) : float :=
  match k with
  | O => 0
  | S k => 1 / float_of_Z n - t2 * gregory k (n + 2) t2
  end.

(** [atan t = 2 atan (t / (1 + sqrt (1 + t^2)))], used twice to bring an
    argument of [0, 1] below [tan (PI/16)]. *)
Definition halve (t : float) : float := t / (1 + PrimFloat.sqrt (1 + t * t)).
Definition atan_unit (t : float) : float :=
  let t := halve (halve t) in 4 * (t * gregory 24 1 (t * t)).
Definition atan_pos (t : float) : float :=
  if 1 <? t then PI / 2 - atan_unit (1 / t) else atan_unit t.
Definition atan (t : float) : float :=
  if t <? 0 then - atan_pos (- t) else atan_pos t.

Definition atan2 (y x : float) : float :=
  if float_isNaN y || float_isNaN x then NaN
  else if is_infinity y && is_infinity x then
    let a := if get_sign x then 3 * PI / 4 else PI / 4 in
    if get_sign y then - a else a
  else if 0 <? x then atan (y / x)
  else if x <? 0 then
    (if get_sign y then atan (y / x) - PI else PI + atan (y / x))
  else (* x is +0 or -0 *)
    if 0 <? y then PI / 2
    else if y <? 0 then - (PI / 2)
    else if get_sign x then (if get_sign y then - PI else PI)
    else y.
End FloatMath.

#[export] Instance float_MathLib : MathLib float := {|
  Math_PI := FloatMath.PI;
  Math_sin := FloatMath.sin;
  Math_cos := FloatMath.cos;
  Math_atan2 := FloatMath.atan2;
  Math_abs := PrimFloat.abs;
  Math_ceil := FloatMath.ceil;
  Math_min := FloatMath.min;
  Math_max := FloatMath.max;
|}.

(* ------------------------------------------------------------------ *)
(** * Construction and the public mutation methods *)

Section Construct.
Context {num : Type} `{!Number num}.
Implicit Types (st : State num).

(** [new Path()] in an empty store: [initialize] sets [_closed] and
    [_selectedSegmentCount], [setSegments] creates the empty segment list
    and [_add([])] signals the change. *)
Definition initialize (id : nat) (style : Style.t num) : State num :=
  mkState [] (mkPath id [] None false 0 None None None None None style).

(** [new Segment(point)] evaluated by the caller: a fresh object. *)
Definition new_Segment (point handleIn handleOut : Point.t num) st : ref * State num :=
  alloc (Segment.create point handleIn handleOut) st.

(** [addSegments], [insertSegments], [add] and [insert] of segment
    objects. *)
Definition addSegments (segments : list ref) st : list ref * State num :=
  _add segments None st.
Definition insertSegments (index : nat) (segments : list ref) st : list ref * State num :=
  _add segments (Some index) st.
(** [removeSegment(index)] returns [segments[0] || null]: the removed
    segment, or [null] when nothing was removed. The result is never
    [undefined]: [None] is [null]. *)
Definition removeSegment (index : nat) st : option ref * State num :=
  let '(segments, st) := removeSegments (Some index) (Some (index + 1)%nat) st in
  (head segments, st).

(** The number of curves that the segment count and the closed flag call
    for. *)
Definition curveCount (closed : bool) (segmentCount : nat) : nat :=
  if closed then segmentCount else (segmentCount - 1)%nat.

(** The curve list, when there is one, has the length called for. *)
Definition curves_in_sync st : Prop :=
  ∀ curves, _curves (this st) = Some curves →
    length curves = curveCount (_closed (this st)) (length (_segments (this st))).
End Construct.

(** The default style: no stroke colour, width 1, miter join, butt cap. *)
Definition default_style {num} `{!Number num} : Style.t num :=
  Style.mk false (of_Z 1) JoinMiter CapButt (of_Z 10).

(* ------------------------------------------------------------------ *)
(** * Statements used by the theorems *)

Section Statements.
Context {num : Type} `{!Number num}.
Implicit Types (st : State num).

(** The curve list of a path as the specification describes it: as long
as called for, and empty whenever there are fewer than two segments,
the path being open or closed. *)
Definition curve_list_as_specified st : Prop :=
let curves := (getCurves st).1 in
let n := length (_segments (this st)) in
length curves = curveCount (_closed (this st)) n
∧ ((n < 2)%nat → curves = []).

(** What [smooth] may not touch in a segment: everything but the two
handles. *)
Definition Segment_frame (s : Segment.t num)
: Point.t num * option nat * option nat * Z :=
(Segment._point s, Segment._path s, Segment._index s, Segment._selectionState s).

(** The loop of [reverse] on the store. *)
Definition swap_all (rs : list ref) (h : list (Segment.t num)) : list (Segment.t num) :=
foldl (λ h r, alter Segment.swapHandles r h) h rs.

(** [st'] has the segment list, the closed flag and, handles apart, the
segments of [st]. *)
Definition same_frame st st' : Prop :=
_segments (this st') = _segments (this st)
∧ _closed (this st') = _closed (this st)
∧ Segment_frame <$> heap st' = Segment_frame <$> heap st.

(** Modelled from the spec: Point.getDistance is not part of the sources;
the distance between two points is the length of their difference. *)
Definition Point_distance (p q : Point.t num) : num :=
let dx := (Point._x q - Point._x p)%js in
let dy := (Point._y q - Point._y p)%js in
nsqrt (dx * dx + dy * dy)%js.

(** The length of the chord of a curve: the distance between its two
anchors, which is the length of the curve when it is a straight line. *)
Definition chord_length (h : list (Segment.t num)) (c : Curve.t) : num :=
match Curve._segment1 c, Curve._segment2 c with
| Some r1, Some r2 => Point_distance (Segment._point (h !!! r1)) (Segment._point (h !!! r2))
| _, _ => undefined_number
end.

(** A length function for curves is exact on lines when it gives the
distance between the anchors for every curve without handles. *)
Definition exact_on_lines (Curve_getLength : list (Segment.t num) → Curve.t → num) : Prop :=
∀ h c r1 r2 s1 s2,
Curve._segment1 c = Some r1 → Curve._segment2 c = Some r2 →
h !! r1 = Some s1 → h !! r2 = Some s2 →
Point.isZero (Segment._handleOut s1) = true →
Point.isZero (Segment._handleIn s2) = true →
Curve_getLength h c = Point_distance (Segment._point s1) (Segment._point s2).
End Statements.

Section AttachedStatements.
Context {num : Type} `{!Number num}.
Implicit Types (st : State num).

(** The segment [r] of the store is attached to the path at position [k]:
[_path] is the path and [_index] is [k]. *)
Definition attached_at st (r k : nat) : Prop :=
∃ s, heap st !! r = Some s
   ∧ Segment._path s = Some (_id (this st))
   ∧ Segment._index s = Some k.

(** The attachment of the segment objects of a store: what [_path] and
[_index] hold, whatever else the segments hold. *)
Definition attachment (h : list (Segment.t num)) : list (option nat * option nat) :=
(λ s, (Segment._path s, Segment._index s)) <$> h.

(** No segment object occurs twice in the segment list, and each one is
attached to the path at its position. *)
Definition segments_attached st : Prop :=
NoDup (_segments (this st))
∧ ∀ k r, _segments (this st) !! k = Some r → attached_at st r k.

(** A step of a program that builds segments and adds, inserts and
removes them. *)
Inductive Mutation :=
| NewSegment (point handleIn handleOut : Point.t num)
| AddSegments (segments : list ref)
| InsertSegments (index : nat) (segments : list ref)
| RemoveSegments (from to : option nat).

Definition mutate (m : Mutation) st : State num :=
match m with
| NewSegment point handleIn handleOut => (new_Segment point handleIn handleOut st).2
| AddSegments segments => (addSegments segments st).2
| InsertSegments index segments => (insertSegments index segments st).2
| RemoveSegments from to => (removeSegments from to st).2
end.

(** The segments passed are objects of the store, and an index of
insertion is a position of the list or its length. *)
Definition mutation_in_range (m : Mutation) st : Prop :=
match m with
| NewSegment _ _ _ => True
| AddSegments segments => Forall (λ r, r < length (heap st))%nat segments
| InsertSegments index segments =>
  (index ≤ length (_segments (this st)))%nat
  ∧ Forall (λ r, r < length (heap st))%nat segments
| RemoveSegments _ _ => True
end.

Fixpoint mutations_in_range (ms : list Mutation) st : Prop :=
match ms with
| [] => True
| m :: ms => mutation_in_range m st ∧ mutations_in_range ms (mutate m st)
end.
End AttachedStatements.

(** ** The order of numbers

    What the comparisons of the source satisfy, on IEEE-754 doubles as on
    exact numbers: [<=] is transitive, [<] is part of [<=] and excludes
    the converse, and two numbers that are not NaN are comparable. A
    number [x] is not NaN when [x <= x]. Subtracting zero leaves every
    number as it is. No law says how an addition or a subtraction rounds. *)
Class NumberOrder (num : Type) `{!Number num} : Prop := {
  nleb_trans (x y z : num) :
    (x <=? y)%js = true → (y <=? z)%js = true → (x <=? z)%js = true;
  nltb_nleb (x y : num) : (x <? y)%js = true → (x <=? y)%js = true;
  nltb_not_nleb (x y : num) : (x <? y)%js = true → (y <=? x)%js = false;
  nleb_comparable (x y : num) :
    (x <=? y)%js = true → (x <=? x)%js = true ∧ (y <=? y)%js = true;
  nltb_total (x y : num) :
    (x <=? x)%js = true → (y <=? y)%js = true → (x <? y)%js = false → (y <=? x)%js = true;
  nisNaN_comparable (x : num) : nisNaN x = false → (x <=? x)%js = true;
  nltb_not_NaN (x y : num) : (x <? y)%js = true → nisNaN x = false ∧ nisNaN y = false;
  nltb_not_neqb (x y : num) : (x <? y)%js = true → (y =? x)%js = false;
  nsub_0_r (x : num) : (x - of_Z 0)%js = x;
}.

#[export] Instance Z_NumberOrder : NumberOrder Z.
Proof.
  split; cbn; intros.
  - lia.
  - lia.
  - lia.
  - lia.
  - lia.
  - lia.
  - done.
  - lia.
  - lia.
Qed.

Section LocationStatements.
Context {num : Type} `{!Number num}.
Variable Curve_getLength : list (Segment.t num) → Curve.t → num.

(** The length accumulated by the scan of [getLocationAt] over the first
[k] curves. *)
Definition cumulative_length (h : list (Segment.t num)) (cs : list Curve.t) (k : nat) : num :=
foldl nadd (of_Z 0) (Curve_getLength h <$> take k cs).

(** The total length as [getLength] reports it: the cached value when
there is one, the sum over the curves otherwise. *)
Definition reported_length (st : State num) (cs : list Curve.t) : num :=
default (cumulative_length (heap st) cs (length cs)) (_length (this st)).
End LocationStatements.

Section BoundsStatements.
Context {num : Type} `{!Number num}.
Implicit Types (st : State num).

(** The rectangle starts at or before the point on both axes: its left
    edge is not right of the point and its top edge not below it. *)
Definition starts_before (rect : Rectangle.t num) (p : Point.t num) : Prop :=
  (Rectangle.x rect <=? Point._x p)%js = true
  ∧ (Rectangle.y rect <=? Point._y p)%js = true.

(** No coordinate of an anchor of the path is NaN. *)
Definition anchors_not_NaN st : Prop :=
  ∀ r, r ∈ _segments (this st) →
    nisNaN (Point._x (Segment._point (deref st r))) = false
    ∧ nisNaN (Point._y (Segment._point (deref st r))) = false.


(** The geometry of curves, lines and vectors that [getStrokeBounds]
    calls, see there. *)
Variable TOLERANCE : num.
Variable Segment_getCurve : State num → ref → option Curve.t.
Variable Curve_getPrevious : State num → Curve.t → option Curve.t.
Variable Curve_getPoint : State num → Curve.t → num → Point.t num.
Variable Curve_getNormal : State num → Curve.t → num → Point.t num.
Variable Point_normalize : Point.t num → num → Point.t num.
Variable Point_getDistance : Point.t num → Point.t num → num.
Variable Line_intersect :
  Point.t num * Point.t num → Point.t num * Point.t num → option (Point.t num).


End BoundsStatements.

(** An open path over the integers through (0,0), (10,0) and (10,10),
    with a stroke of width 4 when [stroke] is set. *)
Definition corner_path (stroke : bool) : State Z :=
  lineTo (Point.mk 10 10)%Z
    (lineTo (Point.mk 10 0)%Z
       (moveTo (Point.mk 0 0)%Z
          (initialize 0 (Style.mk stroke 4%Z JoinMiter CapButt 10%Z)))).

(** The path over the integers through (0,0) and (10,0), and the corner
    path, once their curve lists have been requested. *)
Definition line_path_with_curves : State Z :=
  (getCurves (lineTo (Point.mk 10 0)%Z
                (moveTo (Point.mk 0 0)%Z (initialize 0 default_style)))).2.
Definition corner_path_with_curves : State Z := (getCurves (corner_path false)).2.

(** [moveTo(0,0); lineTo(100,0); lineTo(100,100); lineTo(0,100); closePath()]
    on a new path. *)
Definition square_path : State float :=
  closePath
    (lineTo (Point.mk 0 100)%float
       (lineTo (Point.mk 100 100)%float
          (lineTo (Point.mk 100 0)%float
             (moveTo (Point.mk 0 0)%float (initialize 0 default_style))))).


(** [moveTo(0,0); lineTo(10,0)], the curves requested, then
    [addSegments] of two new segments at (10,10) and (0,10), and
    [closePath()]: the curve list has been patched by one curve for the
    two segments, and closing the path leaves a hole in it. *)
Definition holed_path : State float :=
  let st := lineTo (Point.mk 10 0)%float
              (moveTo (Point.mk 0 0)%float (initialize 0 default_style)) in
  let st := (getCurves st).2 in
  let '(r2, st) := new_Segment (Point.mk 10 10)%float Point.zero Point.zero st in
  let '(r3, st) := new_Segment (Point.mk 0 10)%float Point.zero Point.zero st in
  let st := (addSegments [r2; r3] st).2 in
  closePath st.

(** A path whose current segment is at (0, 0). *)
Definition path_at_origin : State float :=
  moveTo (Point.mk 0 0)%float (initialize 0 default_style).

(** A path whose current segment is at (1 + 2^-52, 0), the number after 1. *)
Definition path_next_to_one : State float :=
  moveTo (Point.mk (PrimFloat.next_up 1) 0)%float (initialize 0 default_style).

(** A program on the empty path: two segments are built, the first is
  added, the second inserted in front of it, the first removed, and
  added again, which adds a copy as it still refers to the path. *)
Definition attach_program : list (Mutation (num := Z)) :=
  [ NewSegment (Point.mk 1 2)%Z Point.zero Point.zero;
    NewSegment (Point.mk 3 4)%Z Point.zero Point.zero;
    AddSegments [0%nat];
    InsertSegments 0 [1%nat];
    RemoveSegments (Some 1%nat) (Some 2%nat);
    AddSegments [0%nat] ].

(* ------------------------------------------------------------------ *)
(** * Statements about the cached values *)

Section CacheStatements.
Context {num : Type} `{!Number num}.
Implicit Types (st : State num).

(** The five values that [_changed] deletes on a change of geometry. *)
Definition caches_dropped st : Prop :=
_length (this st) = None ∧ _bounds (this st) = None ∧ _position (this st) = None
∧ _strokeBounds (this st) = None ∧ _clockwise (this st) = None.
End CacheStatements.

(* ------------------------------------------------------------------ *)
(** * Statements about the curve list *)

Section CurveStatements.
Context {num : Type} `{!Number num}.
Implicit Types (st : State num).

(** The curve list, when there is one, has the length called for, has no
    hole, and its curve [i] joins segment [i] to the next segment; the
    last curve of a closed path joins the last segment to the first. *)
Definition curves_linked st : Prop :=
  ∀ curves, _curves (this st) = Some curves →
    let segments := _segments (this st) in
    length curves = curveCount (_closed (this st)) (length segments)
    ∧ ∀ i, (i < length curves)%nat →
        curves !! i
        = Some (Some (Curve.create (_id (this st)) (segments !! i)
                        (segments !! ((i + 1) mod length segments)%nat))).
End CurveStatements.

(* ------------------------------------------------------------------ *)
(** * Selection and [setSegments] *)

Section Selection.
Context {num : Type} `{!Number num}.
Implicit Types (st : State num) (r : ref).

(** [SelectionState.POINT]; SelectionState is not part of the sources. *)
Variable SelectionState_POINT : Z.

Definition isSelected st : bool := (0 <? _selectedSegmentCount (this st))%Z.

(** [setSelected]: the upcall [this._project._selectItem] goes to the
    project, which is not part of the path. *)
Definition setSelected (selected : bool) st : State num :=
  let length := length (_segments (this st)) in
  let st := on_this (set_selectedSegmentCount (if selected then Z.of_nat length else 0%Z)) st in
  on_heap (λ h, foldl (λ h r, alter (Segment.with_selectionState
                                       (if selected then SelectionState_POINT else 0%Z)) r h)
                      h (_segments (this st))) st.

Definition isFullySelected st : bool :=
  (_selectedSegmentCount (this st) =? Z.of_nat (length (_segments (this st))))%Z.

Definition setFullySelected (selected : bool) st : State num := setSelected selected st.

(** The argument of [setSegments]: the array that is the path's own
    segment list (as in [path.segments = path.segments]), or another array
    of segment objects. *)
Inductive SegmentsArg :=
| TheSegmentList
| Segments (segments : list ref).

(** [setSegments] on a path that has a segment list. [Segment.readAll]
    reads the argument after the list has been emptied, and hands the
    segment objects it finds to [_add] in an array of its own. *)
Definition setSegments (segments : SegmentsArg) st : State num :=
  let st := setSelected false st in
  let st := on_this (set_segments []) st in
  (* Make sure new curves are calculated next time we call getCurves() *)
  let st := on_this (set_curves None) st in
  let read := match segments with
              | TheSegmentList => _segments (this st)
              | Segments l => l
              end in
  (_add read None st).2.
End Selection.

Section SelectionStatements.
Context {num : Type} `{!Number num}.
Implicit Types (st : State num) (r : ref).

(** The number of segments of the list [rs] that are selected in the
    store [h]. *)
Definition selected_among (h : list (Segment.t num)) (rs : list ref) : Z :=
  Z.of_nat (length (filter (λ r, Segment._selectionState (h !!! r) ≠ 0%Z) rs)).

(** [_selectedSegmentCount] counts the selected segments of the path. *)
Definition selection_counted st : Prop :=
  _selectedSegmentCount (this st) = selected_among (heap st) (_segments (this st)).
End SelectionStatements.

(* ------------------------------------------------------------------ *)
(** * src/core/Base.js: the utility functions of [Base] *)

Module Base.

(** ** [capitalize] and [camelize]

    A JavaScript string is a sequence of 16-bit code units. The two
    regular expressions have no [u] flag: they look at one code unit at a
    time, [\w] is [[A-Za-z0-9_]] and [\b] is a position with a [\w] on one
    side only. *)
Definition code_unit := N.

Definition is_lower (c : code_unit) : bool := (97 <=? c)%N && (c <=? 122)%N.   (* [a-z] *)
Definition is_upper (c : code_unit) : bool := (65 <=? c)%N && (c <=? 90)%N.    (* [A-Z] *)
Definition is_digit (c : code_unit) : bool := (48 <=? c)%N && (c <=? 57)%N.    (* [0-9] *)
Definition is_word (c : code_unit) : bool :=
  is_lower c || is_upper c || is_digit c || (c =? 95)%N.                       (* \w *)
Definition hyphen : code_unit := 45%N.

(** [toUpperCase()] of a string of one code unit matched by [\w]: only
    the letters a to z have an upper case. *)
Definition toUpperCase (c : code_unit) : code_unit :=
  if is_lower c then (c - 32)%N else c.

(** [str.replace(/\b[a-z]/g, match => match.toUpperCase())]: the scan
    goes left to right over the string as it was; [word_before] tells
    whether the code unit before the position is a [\w]. *)
Fixpoint capitalize_from (word_before : bool) (str : list code_unit) : list code_unit :=
  match str with
  | [] => []
  | c :: str' =>
      (if negb word_before && is_lower c then toUpperCase c else c)
      :: capitalize_from (is_word c) str'
  end.
Definition capitalize (str : list code_unit) : list code_unit := capitalize_from false str.

(** [str.replace(/-(\w)/g, (all, chr) => chr.toUpperCase())]: a match
    takes two code units, and the scan goes on after them. *)
Fixpoint camelize (str : list code_unit) : list code_unit :=
  match str with
  | [] => []
  | c :: str' =>
      match str' with
      | d :: str'' =>
          if (c =? hyphen)%N && is_word d then toUpperCase d :: camelize str''
          else c :: camelize str'
      | [] => [c]
      end
  end.

(** ** [splice]

    The items of the list are objects that hold their position in
    [_index]; what else they hold is of no concern to [splice]. They live
    in a store, and lists hold references. *)
Record Item (A : Type) := mkItem { _index : option nat; content : A }.
Arguments mkItem {A} _ _.
Arguments _index {A} _.
Arguments content {A} _.

Definition with_index {A} (i : option nat) (it : Item A) : Item A := mkItem i (content it).

(** The argument [items]: [undefined], [null] or an array. *)
Inductive Items :=
| ItemsUndefined
| ItemsNull
| ItemsArray (items : list ref).

Section splice.
Context {A : Type}.
Implicit Types (h : list (Item A)) (l : list ref).

(** [for (i = 0; i < amount; i++) items[i]._index = index + i] *)
Fixpoint set_indices (i : nat) (rs : list ref) h : list (Item A) :=
  match rs with
  | [] => h
  | r :: rs' => set_indices (S i) rs' (alter (with_index (Some i)) r h)
  end.

(** [for (i = 0; i < removed.length; i++) delete removed[i]._index] *)
Definition delete_indices (removed : list ref) h : list (Item A) :=
  foldl (λ h r, alter (with_index None) r h) h removed.

(** [Base.splice(list, items, index, remove)]. [index] is [None] when it
    is [undefined]; [remove] is the number that [Array.prototype.splice]
    makes of its second argument (0 for [undefined]). The result is the
    array returned, the list and the store. [amount] is [undefined] when
    [items] is: then [index + amount] is [NaN] and the last loop is not
    entered. *)
Definition splice l (items : Items) (index : option nat) (remove : nat) h
  : list ref * list ref * list (Item A) :=
  let added := match items with ItemsArray rs => rs | _ => [] end in
  let append := bool_decide (index = None) in
  let index := default (length l) index in
  (* Update _index on the items to be added first. *)
  let h := set_indices index added h in
  if append then
    (* Append them all at the end by using push *)
    ([], l ++ added, h)
  else
    (* Insert somewhere else and/or remove *)
    let removed := take remove (drop index l) in
    let l := take index l ++ added ++ drop (index + remove) l in
    (* Delete the indices of the removed items *)
    let h := delete_indices removed h in
    (* Adjust the indices of the items above. *)
    let h := match items with
             | ItemsUndefined => h
             | _ => set_indices (index + length added) (drop (index + length added) l) h
             end in
    (removed, l, h).
End splice.

(** Every item of the list holds its position, and none occurs twice. *)
Definition indexed {A} (h : list (Item A)) (l : list ref) : Prop :=
  NoDup l ∧ ∀ k r, l !! k = Some r → ∃ it, h !! r = Some it ∧ _index it = Some k.

(** In the string, no hyphen stands before a letter from a to z. *)
Definition no_hyphen_before_lower (str : list code_unit) : Prop :=
  ∀ i d, str !! i = Some hyphen → str !! S i = Some d → is_lower d = false.
End Base.

(** "hello world" and "caps-lock", the examples of the source. *)
Definition hello_world : list Base.code_unit :=
  [104; 101; 108; 108; 111; 32; 119; 111; 114; 108; 100]%N.
Definition caps_lock : list Base.code_unit :=
  [99; 97; 112; 115; 45; 108; 111; 99; 107]%N.

(* ------------------------------------------------------------------ *)
(** * The order of IEEE-754 doubles

    The comparisons of [PrimFloat] are those of [SFcompare] on the
    numbers as sign, mantissa and exponent; NaN compares with nothing. *)

Lemma SFcompare_refl (a : spec_float) : a ≠ S754_nan → SFcompare a a = Some Eq.
Proof.
  destruct a as [s|s| |s m e]; try done; intros _.
  - by destruct s.
  - cbn. rewrite Z.compare_refl, Pos.compare_cont_refl. by destruct s.
Qed.

Lemma SFleb_trans (a b c : spec_float) :
  SFleb a b = true → SFleb b c = true → SFleb a c = true.
Proof.
  unfold SFleb.
  destruct a as [sa|sa| |sa ma ea], b as [sb|sb| |sb mb eb], c as [sc|sc| |sc mc ec];
    cbn; try done;
    try (destruct sa; try done); try (destruct sb; try done); try (destruct sc; try done);
    cbn.
  all: rewrite ?Pos.compare_cont_spec; cbn.
  all: destruct (Z.compare_spec ea eb), (Z.compare_spec eb ec), (Z.compare_spec ea ec);
       try done; try lia; subst.
  all: destruct (Pos.compare_spec ma mb), (Pos.compare_spec mb mc), (Pos.compare_spec ma mc);
       cbn; try done; try lia.
Qed.

Lemma SFltb_SFleb (a b : spec_float) : SFltb a b = true → SFleb a b = true.
Proof. unfold SFltb, SFleb. by destruct (SFcompare a b) as [[]|]. Qed.

Lemma SFcompare_swap (a b : spec_float) :
  SFcompare b a = option_map CompOpp (SFcompare a b).
Proof.
  destruct a as [sa|sa| |sa ma ea], b as [sb|sb| |sb mb eb]; cbn; try done;
    try (destruct sa; try done); try (destruct sb; try done); cbn.
  all: rewrite ?Pos.compare_cont_spec; cbn.
  all: rewrite (Z.compare_antisym ea eb); destruct (ea ?= eb)%Z; cbn; try done.
  all: rewrite (Pos.compare_antisym ma mb); by destruct (ma ?= mb)%positive.
Qed.

Lemma SFltb_not_SFleb (a b : spec_float) : SFltb a b = true → SFleb b a = false.
Proof.
  unfold SFltb, SFleb. rewrite (SFcompare_swap a b).
  by destruct (SFcompare a b) as [[]|].
Qed.

Lemma SFleb_comparable (a b : spec_float) :
  SFleb a b = true → SFleb a a = true ∧ SFleb b b = true.
Proof.
  unfold SFleb. intros Hab.
  assert (a ≠ S754_nan ∧ b ≠ S754_nan) as [Ha Hb].
  { split; intros ->; [done|]. by destruct a. }
  by rewrite !SFcompare_refl.
Qed.

Lemma SFltb_total (a b : spec_float) :
  SFleb a a = true → SFleb b b = true → SFltb a b = false → SFleb b a = true.
Proof.
  unfold SFltb, SFleb. rewrite (SFcompare_swap a b). intros Ha Hb.
  assert (a ≠ S754_nan ∧ b ≠ S754_nan) as [Ha' Hb'] by (split; by intros ->).
  destruct (SFcompare a b) as [[]|] eqn:Hab; cbn; try done.
  destruct a, b; try done; cbn in Hab; by repeat case_match.
Qed.

Lemma float_sub_0_r (x : float) : (x - 0)%float = x.
Proof.
  apply Prim2SF_inj. rewrite FloatAxioms.sub_spec.
  change (Prim2SF 0%float) with (S754_zero false).
  by destruct (Prim2SF x) as [[]|[]| |[] ? ?].
Qed.

Lemma float_not_NaN_comparable (x : float) :
  float_isNaN x = false → (x <=? x)%float = true.
Proof.
  unfold float_isNaN. rewrite FloatAxioms.eqb_spec, FloatAxioms.leb_spec. unfold SFeqb, SFleb.
  by destruct (SFcompare (Prim2SF x) (Prim2SF x)) as [[]|].
Qed.

Lemma SFltb_not_nan (a b : spec_float) :
  SFltb a b = true → SFeqb a a = true ∧ SFeqb b b = true.
Proof.
  unfold SFltb, SFeqb. intros Hab.
  assert (a ≠ S754_nan ∧ b ≠ S754_nan) as [Ha Hb].
  { split; intros ->; [done|]. by destruct a. }
  by rewrite !SFcompare_refl.
Qed.

Lemma SFltb_not_SFeqb (a b : spec_float) : SFltb a b = true → SFeqb b a = false.
Proof.
  unfold SFltb, SFeqb. rewrite (SFcompare_swap a b).
  by destruct (SFcompare a b) as [[]|].
Qed.

(** The doubles satisfy the laws of [NumberOrder]. *)
Lemma float_NumberOrder : NumberOrder float.
Proof.
  split; cbn.
  - intros x y z. rewrite !FloatAxioms.leb_spec. apply SFleb_trans.
  - intros x y. rewrite FloatAxioms.ltb_spec, FloatAxioms.leb_spec. apply SFltb_SFleb.
  - intros x y. rewrite FloatAxioms.ltb_spec, FloatAxioms.leb_spec. apply SFltb_not_SFleb.
  - intros x y. rewrite !FloatAxioms.leb_spec. apply SFleb_comparable.
  - intros x y. rewrite FloatAxioms.ltb_spec, !FloatAxioms.leb_spec. apply SFltb_total.
  - apply float_not_NaN_comparable.
  - intros x y. unfold float_isNaN.
    rewrite FloatAxioms.ltb_spec, !FloatAxioms.eqb_spec. intros Hlt.
    destruct (SFltb_not_nan _ _ Hlt) as [-> ->]. done.
  - intros x y. rewrite FloatAxioms.ltb_spec, FloatAxioms.eqb_spec. apply SFltb_not_SFeqb.
  - apply float_sub_0_r.
Qed.

#[export] Existing Instance float_NumberOrder.

(* ------------------------------------------------------------------ *)
(** * Theorems: the segment list and the curve list *)

Section MutationFacts.
Context {num : Type} `{!Number num}.
Implicit Types (st : State num) (h : list (Segment.t num)) (r : ref) (rs : list ref).

(** The segments that [removeSegments] returns stay attached. The path
    [new Path()] receives one segment at [point] and [removeSegments(0, 1)]
    takes it out again. The returned segment is the one that was added,
    the path is empty, and the segment still carries the reference to the
    path and the index 0: the statement meant to clear them assigns to the
    array of removed segments instead. *)
Theorem removeSegments_leaves_removed_attached
    (id : nat) (style : Style.t num) (point : Point.t num) :
  let st := lineTo point (initialize id style) in
  let removed := (removeSegments (Some 0%nat) (Some 1%nat) st).1 in
  let st' := (removeSegments (Some 0%nat) (Some 1%nat) st).2 in
  removed = [0%nat]
  ∧ _segments (this st') = []
  ∧ Segment._path (deref st' 0%nat) = Some id
  ∧ Segment._index (deref st' 0%nat) = Some 0%nat.
Proof. repeat split. Qed.

(** ** The curve count *)

Lemma getCurves_length st :
  _curves (this st) = None →
  length (getCurves st).1
  = curveCount (_closed (this st)) (length (_segments (this st))).
Proof.
  intros Hnone. unfold getCurves. rewrite Hnone. cbn [fst].
  rewrite length_fmap, length_seq. unfold curveCount.
  destruct (_closed (this st)); cbn [negb andb]; [done|].
  destruct (length (_segments (this st))) as [|n]; cbn; lia.
Qed.

Lemma getCurves_cached st :
  _curves (this st) = None →
  _curves (this (getCurves st).2) = Some (getCurves st).1.
Proof. intros Hnone. unfold getCurves. rewrite Hnone. done. Qed.

Lemma getCurves_frame st :
  _segments (this (getCurves st).2) = _segments (this st)
  ∧ _closed (this (getCurves st).2) = _closed (this st)
  ∧ heap (getCurves st).2 = heap st.
Proof. unfold getCurves. destruct (_curves (this st)); done. Qed.

Lemma setClosed_in_sync (closed : bool) st :
  curves_in_sync st → curves_in_sync (setClosed closed st).
Proof.
  intros Hsync. unfold setClosed. case_bool_decide as Hflag; [|done].
  destruct st as [h p]. destruct p as [i segs cs cl sel len bd pos sbd cw sty].
  cbn in *. destruct cs as [curves|]; cbn; [|by intros ?].
  intros curves'. unfold curves_in_sync, curveCount. cbn. intros [= <-].
  destruct closed; cbn [negb andb].
  - destruct (length segs) as [|n] eqn:Hn.
    + by rewrite length_resize.
    + by rewrite length_insert, length_resize.
  - destruct (length segs) as [|n] eqn:Hn; cbn.
    + by rewrite length_resize.
    + rewrite length_resize. lia.
Qed.

(** C2, as amended. The curve list that [getCurves] builds is as long as
    the segment list when the path is closed and one shorter (never below
    0) when it is open, and [getCurves] caches it; [setClosed] keeps a
    cached curve list at the length its new flag calls for. So the list is
    empty for an open path with fewer than two segments and for a closed
    path without segments, while a closed path with one segment has one
    curve. *)
Theorem curve_count_getCurves_setClosed st :
  (_curves (this st) = None →
     length (getCurves st).1
     = curveCount (_closed (this st)) (length (_segments (this st)))
     ∧ curves_in_sync (getCurves st).2)
  ∧ (∀ closed, curves_in_sync st → curves_in_sync (setClosed closed st))
  ∧ (_curves (this st) = None →
     ((length (_segments (this st)) < 2)%nat → _closed (this st) = false →
        (getCurves st).1 = [])
     ∧ (length (_segments (this st)) = 0%nat → (getCurves st).1 = [])
     ∧ (length (_segments (this st)) = 1%nat → _closed (this st) = true →
        length (getCurves st).1 = 1%nat)).
Proof.
  split; [|split].
  - intros Hnone. split; [by apply getCurves_length|].
    intros curves. rewrite getCurves_cached by done. intros [= <-].
    destruct (getCurves_frame st) as (-> & -> & _). by apply getCurves_length.
  - intros closed. apply setClosed_in_sync.
  - intros Hnone. pose proof (getCurves_length st Hnone) as Hlen.
    unfold curveCount in Hlen. repeat split.
    + intros Hlt Hopen. rewrite Hopen in Hlen. apply length_zero_iff_nil. lia.
    + intros Hzero. apply length_zero_iff_nil.
      destruct (_closed (this st)); lia.
    + intros Hone Hclosed. rewrite Hclosed in Hlen. lia.
Qed.

(** ** [reverse] *)

Lemma swapHandles_involutive (s : Segment.t num) :
  Segment.swapHandles (Segment.swapHandles s) = s.
Proof. by destruct s. Qed.

Lemma swap_all_cons r rs h :
  swap_all (r :: rs) h = swap_all rs (alter Segment.swapHandles r h).
Proof. done. Qed.

Lemma swap_all_app rs1 rs2 h : swap_all (rs1 ++ rs2) h = swap_all rs2 (swap_all rs1 h).
Proof. apply foldl_app. Qed.

Lemma alter_swap_commute (r1 r2 : ref) (h : list (Segment.t num)) :
  alter Segment.swapHandles r1 (alter Segment.swapHandles r2 h)
  = alter Segment.swapHandles r2 (alter Segment.swapHandles r1 h).
Proof.
  destruct (decide (r1 = r2)) as [->|Hne]; [done|].
  by apply list_alter_alter_ne.
Qed.

Lemma swap_all_alter rs r h :
  swap_all rs (alter Segment.swapHandles r h) = alter Segment.swapHandles r (swap_all rs h).
Proof.
  revert h. induction rs as [|r' rs IH]; intros h; [done|].
  rewrite !swap_all_cons, <- IH. f_equal. apply alter_swap_commute.
Qed.

Lemma swap_all_rev rs h : swap_all (rev rs) h = swap_all rs h.
Proof.
  revert h. induction rs as [|r rs IH]; intros h; [done|].
  cbn [rev]. rewrite swap_all_app, IH, !swap_all_cons. cbn. by rewrite swap_all_alter.
Qed.

Lemma swap_all_twice rs h : swap_all rs (swap_all rs h) = h.
Proof.
  revert h. induction rs as [|r rs IH]; intros h; [done|].
  rewrite !swap_all_cons, swap_all_alter, IH.
  rewrite list_alter_alter_eq. apply list_alter_id.
  intros s. apply swapHandles_involutive.
Qed.

(** C9: two calls of [reverse] give back the state they started from:
    the order of the segments, both handles of every segment and the
    cached clockwise flag, defined or not. *)
Theorem reverse_reverse st : reverse (reverse st) = st.
Proof.
  destruct st as [h p]. destruct p as [i segs cs cl sel len bd pos sbd cw sty].
  unfold reverse, on_this, on_heap, set_segments, set_clockwise. cbn.
  fold (swap_all (rev segs) h). fold (swap_all (rev (rev segs)) (swap_all (rev segs) h)).
  rewrite rev_involutive, swap_all_rev, swap_all_twice.
  by destruct cw as [[]|].
Qed.
End MutationFacts.

(** C2, as stated, fails on a closed path with one segment: [getCurves]
    builds one curve, from the segment to itself, where the claim wants the
    list to be empty. *)
Lemma closed_single_segment_has_a_curve :
  let st : State Z := closePath (moveTo (Point.mk 0 0)%Z (initialize 0 default_style)) in
  length (_segments (this st)) = 1%nat
  ∧ _closed (this st) = true
  ∧ (getCurves st).1 = [Some (Curve.create 0 (Some 0%nat) (Some 0%nat))]
  ∧ ¬ curve_list_as_specified st.
Proof.
  intros st. repeat split.
  intros [_ Hempty]. assert (Hlt : (length (_segments (this st)) < 2)%nat) by (change (1 < 2)%nat; lia).
  specialize (Hempty Hlt). discriminate Hempty.
Qed.

(** The mutation methods do not always keep a curve list that exists at
    the length called for. [_add] inserts one curve whatever the number of
    segments added, and none when they are inserted at index 0;
    [removeSegments] removes no curve when the last segment of an open path
    goes, and leaves the last curve without its second segment. *)
Example addSegments_two_adds_one_curve :
  let st0 := line_path_with_curves in
  let '(a, st) := new_Segment (Point.mk 20 0)%Z Point.zero Point.zero st0 in
  let '(b, st) := new_Segment (Point.mk 30 0)%Z Point.zero Point.zero st in
  let st := (addSegments [a; b] st).2 in
  curves_in_sync st0
  ∧ length (_segments (this st)) = 4%nat
  ∧ length <$> _curves (this st) = Some 2%nat.
Proof. split; [|done]. by intros curves [= <-]. Qed.

Example insertSegments_at_0_adds_no_curve :
  let '(a, st) := new_Segment (Point.mk 20 0)%Z Point.zero Point.zero line_path_with_curves in
  let st := (insertSegments 0 [a] st).2 in
  length (_segments (this st)) = 3%nat
  ∧ length <$> _curves (this st) = Some 1%nat.
Proof. done. Qed.

Example removeSegments_last_keeps_curve :
  let st0 := corner_path_with_curves in
  let st := (removeSegments (Some 2%nat) (Some 3%nat) st0).2 in
  curves_in_sync st0
  ∧ length (_segments (this st)) = 2%nat
  ∧ _curves (this st)
    = Some [Some (Curve.create 0 (Some 0%nat) (Some 1%nat));
            Some (Curve.create 0 (Some 1%nat) None)].
Proof. split; [|done]. by intros curves [= <-]. Qed.

Lemma curve_count_getCurves_setClosed_witness :
  let st : State Z := closePath (moveTo (Point.mk 0 0)%Z (initialize 0 default_style)) in
  length (getCurves st).1 = 1%nat
  ∧ curves_in_sync (setClosed false (getCurves st).2).
Proof.
  intros st.
  pose proof (curve_count_getCurves_setClosed st) as (Hbuild & _ & Hsmall).
  pose proof (curve_count_getCurves_setClosed (getCurves st).2) as (_ & Hclose & _).
  split.
  - apply Hsmall; reflexivity.
  - apply Hclose, Hbuild. reflexivity.
Defined.

(* ------------------------------------------------------------------ *)
(** * Theorems: the segments in the path stay attached at their position *)

Section AttachedFacts.
Context {num : Type} `{!Number num}.
Implicit Types (st : State num) (h : list (Segment.t num)) (r k : nat) (rs : list nat).

Lemma deref_lookup st r s : heap st !! r = Some s → deref st r = s.
Proof. intros Hs. unfold deref. by rewrite list_lookup_total_alt, Hs. Qed.

Lemma attached_at_same st st' r k :
_id (this st') = _id (this st) → heap st' !! r = heap st !! r →
attached_at st r k → attached_at st' r k.
Proof. intros Hid Hcell (s & Hs & Hpath & Hindex). exists s. by rewrite Hid, Hcell. Qed.

(** ** The loop that re-indexes the segments above *)

Lemma reindex_loop_spec rs i h :
NoDup rs →
(∀ r, r ∉ rs → reindex_loop i rs h !! r = h !! r)
∧ (∀ j r, rs !! j = Some r →
reindex_loop i rs h !! r = Segment.with_index (Some (i + j)%nat) <$> h !! r).
Proof.
intros Hnodup. revert i h.
induction Hnodup as [|r0 rs Hnotin Hnodup IH]; intros i h; [done|].
cbn [reindex_loop]. destruct (IH (S i) (alter (Segment.with_index (Some i)) r0 h))
as [Hother Hthere].
split.
- intros r Hr. apply not_elem_of_cons in Hr as [Hne Hr].
rewrite Hother by done. by rewrite list_lookup_alter_ne.
- intros [|j] r Hj; cbn in Hj.
+ injection Hj as ->. rewrite Hother by done.
rewrite list_lookup_alter_eq. by rewrite Nat.add_0_r.
+ rewrite (Hthere j r Hj). rewrite list_lookup_alter_ne.
* by replace (S i + j)%nat with (i + S j)%nat by lia.
* intros ->. apply Hnotin. by eapply list_elem_of_lookup_2.
Qed.

(** ** The loop that attaches the added segments *)

Lemma _add_attach_one_spec index i r st (prot : list nat) :
(r < length (heap st))%nat →
(∀ r', r' ∈ prot → ∃ s, heap st !! r' = Some s ∧ is_Some (Segment._path s)) →
let r1 := (_add_attach_one index i r st).1 in
let st' := (_add_attach_one index i r st).2 in
_segments (this st') = _segments (this st)
∧ _id (this st') = _id (this st)
∧ _curves (this st') = _curves (this st)
∧ _closed (this st') = _closed (this st)
∧ (length (heap st) ≤ length (heap st'))%nat
∧ (r1 ∉ prot)
∧ (∀ r', r' ∈ prot → heap st' !! r' = heap st !! r')
∧ attached_at st' r1 (index + i).
Proof.
intros Hr Hprot. destruct (lookup_lt_is_Some_2 _ _ Hr) as [s Hs].
unfold _add_attach_one. rewrite (deref_lookup st r s Hs).
(* the segment that is attached: [r] itself, or its clone *)
assert (∃ r1 st1 s1,
  (if Segment._path s is Some _ then alloc (Segment.clone s) st else (r, st))
  = (r1, st1)
  ∧ this st1 = this st
  ∧ heap st1 !! r1 = Some s1
  ∧ (r1 ∉ prot)
  ∧ (length (heap st) ≤ length (heap st1))%nat
  ∧ (∀ r', r' ∈ prot → heap st1 !! r' = heap st !! r'))
as (r1 & st1 & s1 & -> & Hthis1 & Hs1 & Hfresh & Hlen1 & Hkeep1).
{ destruct (Segment._path s) as [owner|] eqn:Hpath.
- exists (length (heap st)), (on_heap (λ h, h ++ [Segment.clone s]) st), (Segment.clone s).
split; [done|]. split; [done|]. cbn. split.
{ by rewrite lookup_app_r, Nat.sub_diag by lia. }
split.
{ intros Hin. destruct (Hprot _ Hin) as (s' & Hs' & _).
apply lookup_lt_Some in Hs'. lia. }
split; [rewrite length_app; lia|].
intros r' Hin. destruct (Hprot _ Hin) as (s' & Hs' & _).
apply lookup_lt_Some in Hs'. by rewrite lookup_app_l.
- exists r, st, s. repeat split; try done.
intros Hin. destruct (Hprot _ Hin) as (s' & Hs' & Hsome).
rewrite Hs in Hs'. injection Hs' as <-. rewrite Hpath in Hsome. by destruct Hsome. }
cbv zeta.
set (st2 := update r1 (Segment.with_index (Some (index + i)%nat))
      (update r1 (Segment.with_path (Some (_id (this st1)))) st1)).
set (st3 := if bool_decide (Segment._selectionState (deref st2 r1) ≠ 0%Z)
    then _updateSelection r1 st2 else st2).
cbn [fst snd].
assert (heap st3 = alter (Segment.with_index (Some (index + i)%nat))
             r1 (alter (Segment.with_path (Some (_id (this st)))) r1 (heap st1)))
as Hheap3.
{ subst st3 st2. rewrite <- Hthis1. by case_bool_decide. }
assert (_segments (this st3) = _segments (this st) ∧ _id (this st3) = _id (this st)
∧ _curves (this st3) = _curves (this st) ∧ _closed (this st3) = _closed (this st))
as (Hsegs3 & Hid3 & Hcurves3 & Hclosed3).
{ subst st3 st2. rewrite <- Hthis1. by case_bool_decide. }
split; [done|]. split; [done|]. split; [done|]. split; [done|].
split; [by rewrite Hheap3, !length_alter|]. split; [done|]. split.
- intros r' Hin. assert (r' ≠ r1) by (intros ->; done).
rewrite Hheap3, !list_lookup_alter_ne by done. by apply Hkeep1.
- exists (Segment.with_index (Some (index + i)%nat)
    (Segment.with_path (Some (_id (this st))) s1)).
rewrite Hheap3, !list_lookup_alter_eq, Hs1, Hid3. done.
Qed.

Lemma _add_attach_spec index segs : ∀ i st (prot : list nat),
Forall (λ r, r < length (heap st))%nat segs →
(∀ r, r ∈ prot → ∃ s, heap st !! r = Some s ∧ is_Some (Segment._path s)) →
let segs' := (_add_attach index i segs st).1 in
let st' := (_add_attach index i segs st).2 in
_segments (this st') = _segments (this st)
∧ _id (this st') = _id (this st)
∧ _curves (this st') = _curves (this st)
∧ _closed (this st') = _closed (this st)
∧ (length (heap st) ≤ length (heap st'))%nat
∧ length segs' = length segs
∧ (∀ r, r ∈ prot → heap st' !! r = heap st !! r)
∧ (∀ j r, segs' !! j = Some r → attached_at st' r (index + i + j))
∧ NoDup segs'
∧ (∀ r, r ∈ segs' → r ∉ prot).
Proof.
induction segs as [|r segs IH]; intros i st prot Hvalid Hprot.
{ cbn. repeat split; try done; [apply NoDup_nil_2 | by intros ? ?%elem_of_nil]. }
inversion_clear Hvalid as [|? ? Hr Hvalid'].
cbn [_add_attach].
pose proof (_add_attach_one_spec index i r st prot Hr Hprot) as Hone.
destruct (_add_attach_one index i r st) as [r1 st3]. cbn [fst snd] in Hone.
destruct Hone as (Hsegs3 & Hid3 & Hcurves3 & Hclosed3 & Hlen3 & Hfresh & Hkeep3 & Hattached).
specialize (IH (S i) st3 (r1 :: prot)).
destruct IH as (Hsegs & Hid & Hcurves & Hclosed & Hlen & Hlength & Hkeep & Hatt & Hnodup & Hdisj).
{ eapply List.Forall_impl; [|exact Hvalid']. cbn. intros; lia. }
{ intros r' Hin. apply elem_of_cons in Hin as [->|Hin].
- destruct Hattached as (s3 & Hs3 & Hpath3 & _). exists s3. by rewrite Hpath3.
- rewrite Hkeep3 by done. by apply Hprot. }
destruct (_add_attach index (S i) segs st3) as [rs st'] eqn:Hrec. cbn [fst snd] in *.
split; [congruence|]. split; [congruence|]. split; [congruence|]. split; [congruence|].
split; [lia|]. split; [cbn; lia|]. split; [|split; [|split]].
- intros r' Hin. rewrite Hkeep by (by apply list_elem_of_further). by apply Hkeep3.
- intros [|j] r' Hj; cbn in Hj.
+ injection Hj as <-. rewrite Nat.add_0_r.
eapply attached_at_same; [exact Hid | | exact Hattached].
apply Hkeep, list_elem_of_here.
+ replace (index + i + S j)%nat with (index + S i + j)%nat by lia. by apply Hatt.
- apply NoDup_cons_2; [|done].
intros Hin. apply (Hdisj _ Hin), list_elem_of_here.
- intros r' Hin. apply elem_of_cons in Hin as [->|Hin]; [done|].
intros Hp. apply (Hdisj _ Hin). by apply list_elem_of_further.
Qed.

(** ** [_add] *)

Lemma segments_attached_same st st' :
_segments (this st') = _segments (this st) → _id (this st') = _id (this st) →
heap st' = heap st → segments_attached st → segments_attached st'.
Proof.
intros Hsegs Hid Hheap [Hnodup Hatt]. split; [by rewrite Hsegs|].
intros k r Hk. rewrite Hsegs in Hk. eapply attached_at_same; [done| |by apply Hatt].
by rewrite Hheap.
Qed.

Lemma _add_attached segs index st :
segments_attached st →
Forall (λ r, r < length (heap st))%nat segs →
(∀ i, index = Some i → (i ≤ length (_segments (this st)))%nat) →
segments_attached (_add segs index st).2.
Proof.
intros [Hnodup Hatt] Hvalid Hindex. unfold _add.
set (L := _segments (this st)) in *.
set (idx := default (length L) index).
assert (idx ≤ length L)%nat as Hidx.
{ subst idx. destruct index as [i|]; cbn; [by apply Hindex | lia]. }
pose proof (_add_attach_spec idx segs 0 st L Hvalid) as Hspec.
destruct (_add_attach idx 0 segs st) as [segs' st1]. cbn [fst snd] in Hspec.
destruct Hspec as (Hsegs1 & Hid1 & _ & _ & _ & Hlength & Hkeep & Hnew & Hnodup' & Hdisj).
{ intros r Hr. apply list_elem_of_lookup in Hr as [k Hk].
destruct (Hatt k r Hk) as (s & Hs & Hpath & _). exists s. by rewrite Hpath. }
cbv zeta.
set (st2 := if bool_decide (index = None)
      then on_this (set_segments (L ++ segs')) st1
      else reindex (idx + length segs)
             (on_this (set_segments (take idx L ++ segs' ++ drop idx L)) st1)).
assert (segments_attached st2) as Hst2.
{ subst st2. case_bool_decide as Happend.
- (* appended at the end *)
assert (idx = length L) as Hidx' by (subst idx; by rewrite Happend).
split; cbn.
+ apply list.NoDup_app. split; [done|]. split; [|done].
intros r Hr Hr'. by apply (Hdisj r Hr').
+ intros k r Hk. destruct (decide (k < length L)%nat) as [Hlt|Hge].
* rewrite lookup_app_l in Hk by done.
  eapply attached_at_same; [exact Hid1 | | by apply Hatt].
  apply Hkeep. by eapply list_elem_of_lookup_2.
* rewrite lookup_app_r in Hk by lia.
  pose proof (Hnew _ _ Hk) as Hthere.
  replace (idx + 0 + (k - length L))%nat with k in Hthere by lia.
  eapply attached_at_same; [| |exact Hthere]; done.
- (* inserted at [idx], the segments above re-indexed *)
assert (NoDup (take idx L) ∧ (∀ x, x ∈ take idx L → x ∉ drop idx L) ∧ NoDup (drop idx L))
as (Hnd1 & Hsep & Hnd2) by (apply list.NoDup_app; by rewrite take_drop).
assert (length (take idx L ++ segs') = (idx + length segs)%nat) as Hlen
by (rewrite length_app, length_take; lia).
assert (drop (idx + length segs) (take idx L ++ segs' ++ drop idx L) = drop idx L)
as Hdrop by (rewrite app_assoc; by apply drop_app_length').
unfold reindex. cbn [this on_this _segments set_segments heap on_heap].
rewrite Hdrop.
destruct (reindex_loop_spec (drop idx L) (idx + length segs) (heap st1) Hnd2)
as [Hother Habove].
split; cbn.
+ apply list.NoDup_app. split; [done|]. split.
* intros r Hr Hr'. apply elem_of_app in Hr' as [Hr'|Hr'].
  -- apply (Hdisj r Hr'). by eapply elem_of_sublist; [|apply sublist_take].
  -- by apply (Hsep r Hr).
* apply list.NoDup_app. split; [done|]. split; [|done].
  intros r Hr Hr'. apply (Hdisj r Hr).
  by eapply elem_of_sublist; [|apply sublist_drop].
+ intros k r Hk. destruct (decide (k < idx)%nat) as [Hlt|Hge].
* (* below the insertion *)
  rewrite lookup_app_l in Hk by (rewrite length_take; lia).
  assert (r ∈ take idx L) as Hin by (by eapply list_elem_of_lookup_2).
  rewrite lookup_take_lt in Hk by done.
  destruct (Hatt k r Hk) as (s & Hs & Hpath & Hindex').
  exists s. cbn. rewrite Hother by (by apply Hsep).
  rewrite Hkeep by (by eapply list_elem_of_lookup_2). by rewrite Hid1.
* rewrite app_assoc in Hk.
  destruct (decide (k < idx + length segs)%nat) as [Hlt'|Hge'].
  -- (* one of the segments inserted *)
     rewrite lookup_app_l in Hk by lia.
     rewrite lookup_app_r in Hk by (rewrite length_take; lia).
     rewrite length_take in Hk. replace (idx `min` length L)%nat with idx in Hk by lia.
     destruct (Hnew _ _ Hk) as (s & Hs & Hpath & Hindex').
     exists s. cbn. rewrite Hother.
     ++ split; [done|]. split; [done|]. rewrite Hindex'. f_equal. lia.
     ++ intros Hin. eapply Hdisj; [by eapply list_elem_of_lookup_2|].
        by eapply elem_of_sublist; [|apply sublist_drop].
  -- (* above the insertion *)
     rewrite lookup_app_r in Hk by lia. rewrite Hlen in Hk.
     pose proof Hk as Hk'. rewrite lookup_drop in Hk'.
     destruct (Hatt _ _ Hk') as (s & Hs & Hpath & _).
     exists (Segment.with_index (Some (idx + length segs + (k - (idx + length segs)))%nat) s).
     cbn. rewrite (Habove _ _ Hk), Hkeep by (by eapply list_elem_of_lookup_2).
     rewrite Hs. cbn. split; [done|]. split; [by rewrite Hid1|]. f_equal. lia. }
assert (∀ stx : State num,
    _segments (this stx) = _segments (this st2) → _id (this stx) = _id (this st2) →
    heap stx = heap st2 → segments_attached stx) as Hdone.
{ intros stx ? ? ?. by eapply segments_attached_same. }
subst st2. cbn [snd]. apply Hdone.
- by destruct (bool_decide (index = None)), (_curves (this st)), idx.
- by destruct (bool_decide (index = None)), (_curves (this st)), idx.
- by destruct (bool_decide (index = None)), (_curves (this st)), idx.
Qed.

(** ** [new Segment] *)

Lemma new_Segment_attached point handleIn handleOut st :
segments_attached st → segments_attached (new_Segment point handleIn handleOut st).2.
Proof.
intros [Hnodup Hatt]. split; [done|]. intros k r Hk.
destruct (Hatt k r Hk) as (s & Hs & Hpath & Hindex). exists s. cbn.
split; [|done]. by apply lookup_app_l_Some.
Qed.

Lemma new_Segment_heap point handleIn handleOut st :
(new_Segment point handleIn handleOut st).1 = length (heap st)
∧ length (heap (new_Segment point handleIn handleOut st).2) = S (length (heap st)).
Proof. cbn. rewrite List.length_app. cbn. split; [done | lia]. Qed.

(** ** [removeSegments] *)

Lemma attached_at_attachment st st' r k :
_id (this st') = _id (this st) → attachment (heap st') = attachment (heap st) →
attached_at st r k → attached_at st' r k.
Proof.
intros Hid Hheap (s & Hs & Hpath & Hindex).
assert (attachment (heap st') !! r = Some (Segment._path s, Segment._index s)) as Hr
by (rewrite Hheap; unfold attachment; by rewrite list_lookup_fmap, Hs).
unfold attachment in Hr. rewrite list_lookup_fmap in Hr.
destruct (heap st' !! r) as [s'|] eqn:Hs'; [|done]. injection Hr as Hpath' Hindex'.
exists s'. rewrite Hid. split; [done|]. split; congruence.
Qed.

Lemma removeSegments_deselect_spec removed : ∀ st,
let st' := removeSegments_deselect removed st in
_segments (this st') = _segments (this st) ∧ _id (this st') = _id (this st)
∧ _curves (this st') = _curves (this st) ∧ _closed (this st') = _closed (this st)
∧ attachment (heap st') = attachment (heap st).
Proof.
induction removed as [|r removed IH]; intros st; [done|]. cbn zeta. cbn [removeSegments_deselect].
case_bool_decide; [|apply IH].
destruct (IH (_updateSelection r (update r (Segment.with_selectionState 0) st)))
as (-> & -> & -> & -> & ->).
repeat (split; [done|]). cbn. unfold attachment.
rewrite (list_fmap_alter _ _ id); [by apply list_alter_id|].
apply Forall_lookup. by intros ? [].
Qed.

(** Re-indexing from [from] attaches a list without repetitions whose
segments are of the path, once those below [from] are attached. *)
Lemma reindex_attached from st :
NoDup (_segments (this st)) →
(∀ k r, (k < from)%nat → _segments (this st) !! k = Some r → attached_at st r k) →
(∀ r, r ∈ _segments (this st) →
    ∃ s, heap st !! r = Some s ∧ Segment._path s = Some (_id (this st))) →
segments_attached (reindex from st).
Proof.
intros Hnodup Hbelow Hpath. set (L := _segments (this st)) in *.
assert (NoDup (take from L) ∧ (∀ x, x ∈ take from L → x ∉ drop from L) ∧ NoDup (drop from L))
as (_ & Hsep & Hnd) by (apply list.NoDup_app; by rewrite take_drop).
destruct (reindex_loop_spec (drop from L) from (heap st) Hnd) as [Hother Habove].
split; [done|]. intros k r Hk. cbn in Hk. fold L in Hk. unfold attached_at, reindex. cbn. fold L.
destruct (decide (k < from)%nat) as [Hlt|Hge].
- rewrite Hother; [by apply Hbelow|]. apply Hsep.
eapply list_elem_of_lookup_2. by rewrite lookup_take_lt.
- destruct (Hpath r) as (s & Hs & Hpath'); [by eapply list_elem_of_lookup_2|].
exists (Segment.with_index (Some (from + (k - from))%nat) s).
rewrite (Habove (k - from)%nat r), Hs.
+ cbn. split; [done|]. split; [done|]. f_equal. lia.
+ rewrite lookup_drop. by replace (from + (k - from))%nat with k by lia.
Qed.

Lemma removeSegments_attached from to st :
segments_attached st → segments_attached (removeSegments from to st).2.
Proof.
intros [Hnodup Hatt]. unfold removeSegments.
set (L := _segments (this st)) in *. set (f := default 0%nat from).
set (count := Z.to_nat _).
set (L' := take f L ++ drop (f + count) L).
assert (L' `sublist_of` L) as Hsub.
{ unfold L'. rewrite <-(take_drop f L) at 3. apply sublist_app; [done|].
rewrite <-drop_drop. apply sublist_drop. }
cbv zeta. case_bool_decide as Hamount; cbn [snd].
- (* nothing is removed *)
eapply (segments_attached_same st); [|done|done|by split]. cbn. fold L. fold L'.
rewrite length_take, length_drop in Hamount. subst L'.
destruct (decide (count = 0%nat)) as [->|].
+ by rewrite Nat.add_0_r, take_drop.
+ rewrite take_ge, drop_ge by lia. by rewrite app_nil_r.
- pose proof (removeSegments_deselect_spec (take count (drop f L))
              (on_this (set_segments L') st)) as Hspec.
set (st1 := removeSegments_deselect _ _) in *. cbv zeta in Hspec.
destruct Hspec as (Hsegs1 & Hid1 & _ & _ & Hheap1). cbn in Hsegs1, Hid1, Hheap1.
assert (segments_attached (reindex f st1)) as Hst2.
{ apply reindex_attached; rewrite Hsegs1.
  - by eapply sublist_NoDup.
  - intros k r Hlt Hk.
    assert (L !! k = Some r) as Hk'.
    { subst L'. destruct (decide (k < length (take f L))%nat) as [Hin|Hout].
      - rewrite lookup_app_l in Hk by done. by rewrite lookup_take_lt in Hk.
      - rewrite lookup_app_r in Hk by lia. rewrite length_take in *.
        apply lookup_lt_Some in Hk. rewrite length_drop in Hk. lia. }
    eapply attached_at_attachment; [done|done|by apply Hatt].
  - intros r Hr. eapply elem_of_sublist in Hr; [|done].
    apply list_elem_of_lookup in Hr as [k Hk].
    destruct (attached_at_attachment st st1 r k Hid1 Hheap1 (Hatt k r Hk))
      as (s & Hs & Hpath & _). by exists s. }
eapply (segments_attached_same (reindex f st1)); [| | |done];
  by destruct (_curves (this st)).
Qed.

(** ** Programs of mutations *)

Lemma mutate_attached (m : Mutation) st :
segments_attached st → mutation_in_range m st → segments_attached (mutate m st).
Proof.
intros Hst Hm. destruct m as [point handleIn handleOut|segs|index segs|from to]; cbn in *.
- by apply new_Segment_attached.
- by apply _add_attached.
- destruct Hm as [Hindex Hvalid]. apply _add_attached; [done|done|].
by intros ? [= <-].
- by apply removeSegments_attached.
Qed.

(** C1, amended: take a path whose segments all have [_path] the path
and [_index] their position in the segment list, and no segment object
twice, as the empty path [new Path()] has. Run any program of segment
constructions, [addSegments], [insertSegments] and [removeSegments]
calls in which the segments passed are objects of the store and every
index of insertion is at most the number of segments at that time.
Afterwards every segment of the list has [_path] the path and [_index]
its position, and no segment object occurs twice. *)
Theorem mutations_keep_segments_attached (ms : list Mutation) : ∀ st,
segments_attached st → mutations_in_range ms st →
segments_attached (foldl (λ st m, mutate m st) st ms).
Proof.
induction ms as [|m ms IH]; intros st Hst Hms; [done|].
destruct Hms as [Hm Hms]. cbn. apply IH; [by apply mutate_attached | done].
Qed.
End AttachedFacts.

Lemma mutations_keep_segments_attached_witness :
  segments_attached (foldl (λ st m, mutate m st) (initialize 7 default_style) attach_program)
  ∧ _segments (this (foldl (λ st m, mutate m st) (initialize 7 default_style) attach_program))
    = [1%nat; 2%nat].
Proof.
  split; [|reflexivity].
  apply (mutations_keep_segments_attached attach_program (initialize 7 default_style)).
  - split; [apply NoDup_nil_2 | intros k r Hk; discriminate Hk].
  - vm_compute. repeat split; repeat constructor.
Defined.

(** C1, as stated, fails when a segment is inserted beyond the end of the
  list. [insert(5, segment)] on the empty path puts the segment at
  position 0, where [splice] clamps the index, and gives it the index 5:
  [_add] performs no check of the index. *)
Lemma insert_beyond_end_misnumbers :
  let st0 : State Z :=
    (new_Segment (Point.mk 1 2)%Z Point.zero Point.zero (initialize 7 default_style)).2 in
  let st := mutate (InsertSegments 5 [0%nat]) st0 in
  _segments (this st) = [0%nat]
  ∧ Segment._path (deref st 0%nat) = Some 7%nat
  ∧ Segment._index (deref st 0%nat) = Some 5%nat
  ∧ ¬ segments_attached st.
Proof.
  intros st0 st. repeat split.
  intros [_ Hatt]. destruct (Hatt 0%nat 0%nat eq_refl) as (s & Hs & _ & Hindex).
  vm_compute in Hs. injection Hs as <-. discriminate Hindex.
Qed.


(* ------------------------------------------------------------------ *)
(** * Theorems: [arcBy] and [smooth] *)

Section DrawingFacts.
Context {num : Type} `{!Number num}.
Implicit Types (st : State num).

Lemma getCurrentSegment_nonempty st :
_segments (this st) ≠ [] → ∃ r, getCurrentSegment st = Ret r st.
Proof.
intros Hne. unfold getCurrentSegment.
destruct (list.last (_segments (this st))) as [r|] eqn:Hlast; [by exists r|].
by apply last_None in Hlast.
Qed.

Lemma getCurrentSegment_empty st :
_segments (this st) = [] → getCurrentSegment st = Throw UseMoveToFirst st.
Proof. intros Hnil. unfold getCurrentSegment. by rewrite Hnil. Qed.

(** On a path without segments [arcBy] throws at once. *)
Lemma arcBy_empty (Point_read : Point.t num → Point.t num) fuel throughVector toVector st :
_segments (this st) = [] →
arcBy Point_read (S fuel) throughVector toVector st = Some (Throw UseMoveToFirst st).
Proof. intros Hnil. cbn. by rewrite getCurrentSegment_empty. Qed.

(** C10, where the code departs from the claim: on a path with a segment,
  [arcBy] has not returned at any depth of calls, whatever the two
  vectors and whatever [Point.read] makes of them: each call finds the
  current segment and calls [arcBy] (not [arcTo]) again. *)
Theorem arcBy_never_returns (Point_read : Point.t num → Point.t num)
  fuel throughVector toVector st :
_segments (this st) ≠ [] → arcBy Point_read fuel throughVector toVector st = None.
Proof.
intros Hne. revert throughVector toVector.
induction fuel as [|fuel IH]; intros throughVector toVector; [done|].
cbn. destruct (getCurrentSegment_nonempty st Hne) as [r ->]. apply IH.
Qed.

(** ** [smooth] *)

Lemma same_frame_refl st : same_frame st st.
Proof. done. Qed.

Lemma same_frame_trans st1 st2 st3 :
same_frame st1 st2 → same_frame st2 st3 → same_frame st1 st3.
Proof. intros (? & ? & ?) (? & ? & ?). repeat split; congruence. Qed.

Lemma frame_alter (f : Segment.t num → Segment.t num) r (h : list (Segment.t num)) :
(∀ s, Segment_frame (f s) = Segment_frame s) →
Segment_frame <$> alter f r h = Segment_frame <$> h.
Proof.
intros Hf. rewrite (list_fmap_alter Segment_frame f id).
- by apply list_alter_id.
- by apply Forall_forall.
Qed.

Lemma same_frame_changed st r : same_frame st (Segment_changed r st).
Proof. unfold Segment_changed. by case_bool_decide. Qed.

Lemma same_frame_setHandleIn st r h : same_frame st (setHandleIn r h st).
Proof.
unfold setHandleIn. eapply same_frame_trans; [|apply same_frame_changed].
repeat split. cbn. by apply frame_alter.
Qed.

Lemma same_frame_setHandleOut st r h : same_frame st (setHandleOut r h st).
Proof.
unfold setHandleOut. eapply same_frame_trans; [|apply same_frame_changed].
repeat split. cbn. by apply frame_alter.
Qed.

Lemma same_frame_smooth_set segments knots x y overlap n handleIn st i :
same_frame st (smooth_set segments knots x y overlap n (handleIn, st) i).2.
Proof.
unfold smooth_set.
set (st1 := match handleIn with Some _ => _ | None => _ end).
assert (same_frame st st1) as H1.
{ subst st1. destruct handleIn; [apply same_frame_setHandleIn | apply same_frame_refl]. }
destruct (i <? n)%nat; [|done].
destruct (i <? n - 1)%nat; cbn [snd];
  (eapply same_frame_trans; [exact H1 | apply same_frame_setHandleOut]).
Qed.

Lemma same_frame_smooth_loop segments knots x y overlap n (l : list nat) acc st0 :
same_frame st0 acc.2 →
same_frame st0 (foldl (smooth_set segments knots x y overlap n) acc l).2.
Proof.
revert acc. induction l as [|i l IH]; intros acc Hacc; [done|].
cbn [foldl]. apply IH. destruct acc as [handleIn st].
eapply same_frame_trans; [exact Hacc | apply same_frame_smooth_set].
Qed.

Lemma same_frame_smooth st : same_frame st (smooth st).
Proof.
  unfold smooth. destruct (length (_segments (this st)) <=? 2)%nat; [done|].
  destruct (smooth_solve st) as [[[[knots x] y] overlap] n].
  pose proof (same_frame_smooth_loop (_segments (this st)) knots x y overlap n
                (seq overlap (n - overlap + 1 - overlap)) (None, st) st
                (same_frame_refl st)) as Hloop.
  destruct (foldl _ _ _) as [handleIn st1]. cbn [snd] in Hloop.
  destruct (_closed (this st1)); [|done].
  destruct handleIn; [|done].
  eapply same_frame_trans; [exact Hloop | apply same_frame_setHandleIn].
Qed.

Lemma same_frame_deref st st' r :
  same_frame st st' → Segment_frame (deref st' r) = Segment_frame (deref st r).
Proof.
  intros (_ & _ & Hheap). unfold deref. rewrite !list_lookup_total_alt.
  apply (f_equal (λ l, l !! r)) in Hheap. rewrite !list_lookup_fmap in Hheap.
  destruct (heap st' !! r), (heap st !! r);
    [exact (inj Some _ _ Hheap) | discriminate | discriminate | reflexivity].
Qed.

(** C7: [smooth] leaves the segment list as it is, and in every segment
  everything but the two handles: the anchor point, the owner, the index
  and the selection flags; on a path with at most two segments it changes
  nothing at all. *)
Theorem smooth_preserves_anchors st :
_segments (this (smooth st)) = _segments (this st)
∧ length (heap (smooth st)) = length (heap st)
∧ (∀ r, Segment._point (deref (smooth st) r) = Segment._point (deref st r)
        ∧ Segment_frame (deref (smooth st) r) = Segment_frame (deref st r))
∧ ((length (_segments (this st)) ≤ 2)%nat → smooth st = st).
Proof.
pose proof (same_frame_smooth st) as Hframe.
split; [apply Hframe|]. split.
{ destruct Hframe as (_ & _ & Hheap).
  by rewrite <- (length_fmap Segment_frame (heap (smooth st))), Hheap, length_fmap. }
split.
- intros r. pose proof (same_frame_deref st (smooth st) r Hframe) as Hr.
  split; [|done]. unfold Segment_frame in Hr. congruence.
- intros Hsmall. unfold smooth.
  by destruct (Nat.leb_spec (length (_segments (this st))) 2); [|lia].
Qed.
End DrawingFacts.

Lemma arcBy_never_returns_witness :
  arcBy (λ _, Point.zero) 100 (Point.mk 1 1)%Z (Point.mk 2 0)%Z
    (moveTo (Point.mk 0 0)%Z (initialize 0 default_style)) = None.
Proof. apply arcBy_never_returns. intros Hnil. vm_compute in Hnil. discriminate Hnil. Defined.

Lemma smooth_preserves_anchors_witness :
  let st : State Z :=
    lineTo (Point.mk 10 0)%Z (moveTo (Point.mk 0 0)%Z (initialize 0 default_style)) in
  smooth st = st.
Proof.
  intros st. apply (smooth_preserves_anchors st). vm_compute. lia.
Defined.

(* ------------------------------------------------------------------ *)
(** * Theorems on IEEE-754 numbers: the square, [curveTo], [arcTo] *)

Section Square.
Variable Curve_getLength : list (Segment.t float) → Curve.t → float.
Variable TOLERANCE : float.
Hypothesis Hlines : exact_on_lines Curve_getLength.

Lemma square_curve_length (r1 r2 : nat) s1 s2 :
heap square_path !! r1 = Some s1 → heap square_path !! r2 = Some s2 →
Point.isZero (Segment._handleOut s1) = true →
Point.isZero (Segment._handleIn s2) = true →
Curve_getLength (heap square_path) (Curve.create 0 (Some r1) (Some r2))
= Point_distance (Segment._point s1) (Segment._point s2).
Proof. intros. by eapply Hlines. Qed.

Lemma square_getLength :
∃ st', getLength Curve_getLength square_path = Ret 400%float st'.
Proof.
pose proof (square_curve_length 0 1 _ _ eq_refl eq_refl eq_refl eq_refl) as H0.
pose proof (square_curve_length 1 2 _ _ eq_refl eq_refl eq_refl eq_refl) as H1.
pose proof (square_curve_length 2 3 _ _ eq_refl eq_refl eq_refl eq_refl) as H2.
pose proof (square_curve_length 3 0 _ _ eq_refl eq_refl eq_refl eq_refl) as H3.
vm_compute in H0, H1, H2, H3.
eexists. vm_compute. rewrite H0, H1, H2, H3. vm_compute. reflexivity.
Qed.

Lemma square_isClockwise : isClockwise square_path = true.
Proof. vm_compute. reflexivity. Qed.

(** Case analysis on the comparisons that involve the tolerance. *)
Ltac split_on_tolerance :=
  repeat match goal with
         | |- context [PrimFloat.ltb ?a ?b] =>
             lazymatch constr:((a, b)) with
             | context [TOLERANCE] => destruct (PrimFloat.ltb a b); vm_compute
             end
         end.

(** Replaces the innermost call of [processAxis], on known coordinates,
    by its value, which is the one for a tolerance that lets no root
    through. *)
Ltac settle_axis :=
  match goal with
  | |- context [processAxis ?T ?sp ?p ?c ?i ?mm] =>
      lazymatch mm with context [processAxis] => fail | _ => idtac end;
      let X := eval vm_compute in (processAxis 0.5%float sp p c i mm) in
      let H := fresh "Haxis" in
      assert (processAxis T sp p c i mm = X) as H
        by (vm_compute; split_on_tolerance; reflexivity);
      rewrite H; clear H
  end.

Ltac settle_segment :=
  match goal with
  | |- context [processSegment ?T ?sp ?st (?mm, ?prev) ?r] =>
      lazymatch mm with context [processSegment] => fail | _ => idtac end;
      let c := eval vm_compute in (Segment_coords (deref st r)) in
      let H := fresh "Hseg" in
      assert (processSegment T sp st (mm, prev) r
              = (processAxis T sp prev c 1 (processAxis T sp prev c 0 mm), c)) as H
        by reflexivity;
      rewrite H; clear H;
      repeat settle_axis
  end.

(** The roots found on the sides of the square are 0 and 1, where the
    curve is at an anchor: whether the tolerance lets them through or not,
    the bounds are those of the anchors. *)
Lemma square_bounds :
  getBounds TOLERANCE None square_path = Some (Rectangle.create 0 0 100 100)%float.
Proof.
  unfold getBounds.
  change (_segments (this square_path)) with [0; 1; 2; 3]%nat.
  change (_closed (this square_path)) with true.
  cbn [foldl].
  let c := eval vm_compute in (Segment_coords (deref square_path 0%nat)) in
  change (Segment_coords (deref square_path 0%nat)) with c.
  repeat match goal with
         | |- context [@lookup_total ?K ?A ?M ?I ?i ?l] =>
             let c := eval vm_compute in (@lookup_total K A M I i l) in
             change (@lookup_total K A M I i l) with c
         end.
  do 4 settle_segment.
  reflexivity.
Qed.

Lemma square_getBounds :
  ∃ st', Path_getBounds TOLERANCE square_path
         = Ret (Rectangle.create 0 0 100 100)%float st'.
Proof.
  unfold Path_getBounds. change (_bounds (this square_path)) with (@None (Rectangle.t float)).
  rewrite square_bounds. eexists. reflexivity.
Qed.

(** C4: the path built by [moveTo(0,0); lineTo(100,0); lineTo(100,100);
    lineTo(0,100); closePath()] has length 400, is clockwise and has the
    bounds (0, 0, 100, 100). The length of a curve is computed by Curve.js,
    which is not part of the sources: the statement holds for every length
    function that is exact on straight lines, and for every value of
    [Numerical.TOLERANCE]. *)
Theorem square_scenario :
  (∃ st', getLength Curve_getLength square_path = Ret 400%float st')
  ∧ isClockwise square_path = true
  ∧ (∃ st', Path_getBounds TOLERANCE square_path
            = Ret (Rectangle.create 0 0 100 100)%float st').
Proof.
  split; [apply square_getLength|]. split; [apply square_isClockwise|].
  apply square_getBounds.
Qed.
End Square.

Lemma chord_length_exact_on_lines : exact_on_lines (chord_length (num := float)).
Proof.
  intros h c r1 r2 s1 s2 Hc1 Hc2 Hs1 Hs2 _ _. unfold chord_length.
  rewrite Hc1, Hc2, !list_lookup_total_alt, Hs1, Hs2. reflexivity.
Qed.

Lemma square_scenario_witness :
  (∃ st', getLength chord_length square_path = Ret 400%float st')
  ∧ isClockwise square_path = true
  ∧ (∃ st', Path_getBounds 0x1.4f8b588e368f1p-17%float square_path
            = Ret (Rectangle.create 0 0 100 100)%float st').
Proof. apply square_scenario. exact chord_length_exact_on_lines. Defined.

(** ** [curveTo] with the parameter 0 or 1 *)

(** C6, where the code departs from the claim: from the current point
    (0, 0), [curveTo((1, 1), (2, 2), t)] with [t] 0 and with [t] 1 returns
    without throwing. The division by [2 * t * (1 - t) = 0] gives an
    infinite handle, which [isNaN] lets through; [quadraticCurveTo] then
    subtracts infinities: the segment added at (2, 2) has a NaN [handleIn],
    and the current segment a NaN [handleOut]. *)
Theorem curveTo_endpoint_parameter_adds_NaN_handles :
  ∀ t : float, t ∈ [0%float; 1%float] →
    ∃ st', curveTo (Point.mk 1 1)%float (Point.mk 2 2)%float (Some t) path_at_origin
           = Ret () st'
           ∧ _segments (this st') = [0%nat; 1%nat]
           ∧ Segment._point (deref st' 1%nat) = Point.mk 2%float 2%float
           ∧ Point.isNaN (Segment._handleIn (deref st' 1%nat)) = true
           ∧ Point.isNaN (Segment._handleOut (deref st' 0%nat)) = true.
Proof.
  intros t Ht. repeat (apply elem_of_cons in Ht as [->|Ht]);
    [| |by apply elem_of_nil in Ht];
    (eexists; split; [vm_compute; reflexivity|]); repeat split.
Qed.

Lemma curveTo_endpoint_parameter_adds_NaN_handles_witness :
  ∃ st', curveTo (Point.mk 1 1)%float (Point.mk 2 2)%float (Some 0%float) path_at_origin
         = Ret () st'
         ∧ _segments (this st') = [0%nat; 1%nat]
         ∧ Segment._point (deref st' 1%nat) = Point.mk 2%float 2%float
         ∧ Point.isNaN (Segment._handleIn (deref st' 1%nat)) = true
         ∧ Point.isNaN (Segment._handleOut (deref st' 0%nat)) = true.
Proof. apply curveTo_endpoint_parameter_adds_NaN_handles. apply list_elem_of_here. Defined.

(** The error is signalled when a component of the handle is 0/0, as for a
    curve through the current point itself. *)
Example curveTo_through_current_throws :
  curveTo (Point.mk 0 0)%float (Point.mk 2 2)%float (Some 0%float) path_at_origin
  = Throw CannotPutCurve path_at_origin.
Proof. vm_compute. reflexivity. Qed.

(** ** [arcTo] through three collinear points *)

(** C5, where the code departs from the claim: the three points
    (1 + 2^-52, 0), (1, 0) and (2, 0) lie on the x axis. The denominator is
    0 and [m] is set to 0, but the centre [cx = 1] is rounded and
    [cx * cx + cy * cy - e] is -2^-52: the radius is the square root of a
    negative number. [arcTo] appends four segments, and both coordinates of
    every one of their anchors are NaN. *)
Theorem arcTo_collinear_appends_NaN_segments :
  (arcTo_circle (PrimFloat.next_up 1) 0 1 0 2 0 = (1, 0, FloatMath.NaN))%float
  ∧ ∃ st', arcTo (ArcThrough (Point.mk 1 0) (Point.mk 2 0))%float path_next_to_one
           = Ret () st'
           ∧ _segments (this st') = [0; 1; 2; 3; 4]%nat
           ∧ Forall (λ r, nisNaN (Point._x (Segment._point (deref st' r))) = true
                          ∧ nisNaN (Point._y (Segment._point (deref st' r))) = true)
                    [1; 2; 3; 4]%nat.
Proof.
  split; [vm_compute; reflexivity|].
  eexists. split; [vm_compute; reflexivity|]. split; [reflexivity|].
  repeat constructor.
Qed.

(** Away from such roundings the guard gives the circle whose diameter
    joins the start to the through point: from (0, 0) through (50, 0) to
    (100, 0) the arc has the centre (25, 0) and the radius 25. *)
Example arcTo_collinear_circle :
  (arcTo_circle 0 0 50 0 100 0 = (25, 0, 25))%float.
Proof. vm_compute. reflexivity. Qed.

(* ------------------------------------------------------------------ *)
(** * Theorems: [getLocationAt] *)

Section LocationFacts.
Context {num : Type} `{!Number num}.
Variable Curve_getLength : list (Segment.t num) → Curve.t → num.
Variable Curve_getParameter : list (Segment.t num) → Curve.t → num → num.
Implicit Types (st : State num) (cs : list Curve.t) (offset acc : num).

Abbreviation len st := (Curve_getLength (heap st)).
Abbreviation loop := (getLocationAt_loop Curve_getLength Curve_getParameter).

(** A curve list built by [getCurves] has no hole. *)
Lemma getCurves_no_holes st :
_curves (this st) = None → ∃ cs, (getCurves st).1 = Some <$> cs.
Proof.
intros Hnone. unfold getCurves. rewrite Hnone. cbn [fst].
eexists (_ <$> seq 0 _). rewrite <- list_fmap_compose. reflexivity.
Qed.

(** The scan over a list that starts with the curves [cs] stops at the
  first curve where the accumulated length reaches the offset. *)
Lemma getLocationAt_loop_found st cs rest acc offset i c :
cs !! i = Some c →
(∀ j, (j < i)%nat → (offset <=? foldl nadd acc (len st <$> take (S j) cs))%js = false) →
(offset <=? foldl nadd acc (len st <$> take (S i) cs))%js = true →
loop ((Some <$> cs) ++ rest) acc offset st
= Ret (Some (CurveLocation.mk (Some c)
               (Curve_getParameter (heap st) c
                  (offset - foldl nadd acc (len st <$> take i cs))%js))) st.
Proof.
revert acc i. induction cs as [|c0 cs IH]; intros acc i Hc Hbefore Hreach; [done|].
cbn [fmap list_fmap app getLocationAt_loop]. destruct i as [|i].
- cbn in Hc, Hreach. injection Hc as ->. try rewrite take_0 in Hreach.
  cbn in Hreach. by rewrite Hreach.
- pose proof (Hbefore 0%nat ltac:(lia)) as Hfirst. cbn in Hfirst; try rewrite take_0 in Hfirst.
  cbn in Hfirst. rewrite Hfirst. cbn in Hc.
  rewrite (IH (acc + len st c0)%js i Hc).
  + reflexivity.
  + intros j Hj. apply (Hbefore (S j)). lia.
  + exact Hreach.
Qed.

(** When no accumulated length over [cs] reaches the offset, the scan
  goes on with what follows [cs]. *)
Lemma getLocationAt_loop_past st cs rest acc offset :
(∀ j, (j < length cs)%nat →
      (offset <=? foldl nadd acc (len st <$> take (S j) cs))%js = false) →
loop ((Some <$> cs) ++ rest) acc offset st
= loop rest (foldl nadd acc (len st <$> cs)) offset st.
Proof.
revert acc. induction cs as [|c0 cs IH]; intros acc Hshort; [done|].
cbn [fmap list_fmap app getLocationAt_loop foldl].
pose proof (Hshort 0%nat ltac:(cbn; lia)) as Hfirst. cbn in Hfirst; try rewrite take_0 in Hfirst.
cbn in Hfirst. rewrite Hfirst. apply IH.
intros j Hj. apply (Hshort (S j)). cbn. lia.
Qed.

(** Among the first [n] numbers there is a first one at which [reach]
    holds, or none. *)
Lemma first_reach (reach : nat → bool) (n : nat) :
  (∃ i, (i < n)%nat ∧ reach i = true ∧ ∀ j, (j < i)%nat → reach j = false)
  ∨ (∀ j, (j < n)%nat → reach j = false).
Proof.
  induction n as [|n [(i & Hi & Hreach & Hfirst)|Hnone]].
  - right. intros j Hj. lia.
  - left. exists i. split; [lia|done].
  - destruct (reach n) eqn:Hn.
    + left. exists n. split; [lia|]. split; [done|]. exact Hnone.
    + right. intros j Hj. destruct (decide (j = n)) as [->|Hne]; [done|].
      apply Hnone. lia.
Qed.

Lemma getLength_loop_sum st cs a :
_length (this st) = Some a →
∃ st', getLength_loop Curve_getLength (Some <$> cs) st = Ret () st'
       ∧ _length (this st') = Some (foldl nadd a (len st <$> cs))
       ∧ heap st' = heap st.
Proof.
revert st a. induction cs as [|c cs IH]; intros st a Ha; [by exists st|].
cbn [fmap list_fmap getLength_loop].
set (st1 := on_this _ st).
destruct (IH st1 (a + len st c)%js) as (st' & Hrun & Hlen & Hheap).
{ subst st1. cbn. by rewrite Ha. }
exists st'. split; [exact Hrun|]. split; [|exact Hheap]. exact Hlen.
Qed.

(** [getLength] returns the length it has cached, or else the sum over the
  curves. *)
Lemma getLength_reported st cs :
(getCurves st).1 = Some <$> cs →
∃ st', getLength Curve_getLength st = Ret (reported_length Curve_getLength st cs) st'.
Proof.
intros Hcs. unfold getLength, reported_length.
destruct (_length (this st)) as [l|] eqn:Hl; [by exists st|].
destruct (getCurves st) as [curves st1] eqn:Hget. cbn [fst] in Hcs. subst curves.
assert (heap st1 = heap st) as Hheap.
{ pose proof (getCurves_frame st) as (_ & _ & Hh). by rewrite Hget in Hh. }
set (st2 := on_this (set_length (Some (of_Z 0))) st1).
destruct (getLength_loop_sum st2 cs (of_Z 0) eq_refl) as (st' & Hrun & Hlen & _).
rewrite Hrun. cbn [bind]. rewrite Hlen. cbn [default from_option id].
exists st'. unfold cumulative_length. rewrite firstn_all.
subst st2. cbn [heap on_this]. by rewrite Hheap.
Qed.

(** C3: [getLocationAt(offset)] on a path whose curve list starts with
  the curves [cs], followed by [rest]. Where the curve list is whole the
  call does what the claim says; where it has a hole, as [_add] and
  [setClosed] can leave one, the code departs from the claim and throws.
  The accumulated length is
  [cumulative_length]; the total length is the one [getLength] reports:
  the cached length if there is one, the sum otherwise.
  - If curve [i] of [cs] is the first whose accumulated length reaches
    the offset, the call returns the location on that curve at the
    parameter that [getParameter] gives for the rest of the offset.
  - If no accumulated length over [cs] reaches the offset and a hole of
    the curve list follows, the call throws a TypeError.
  - If no accumulated length reaches the offset and [cs] is the whole
    list, the call returns the last curve at 1 when the offset is at most
    the total length, and null otherwise.
  - If [cs] is the whole list, no accumulated length exceeds the total
    length (as with lengths that are not negative) and the offset
    exceeds the total length, the call returns null.
  - If [cs] is the whole list, is not empty, and the cached length, if
    any, is the sum, the last curve at 1 is never resorted to: the call
    returns a location found by the scan, or null. *)
Theorem getLocationAt_by_offset st offset cs (rest : list (option Curve.t)) :
(getCurves st).1 = (Some <$> cs) ++ rest →
let cum := cumulative_length Curve_getLength (heap st) cs in
let total := reported_length Curve_getLength st cs in
let run := getLocationAt Curve_getLength Curve_getParameter offset false st in
let found i c :=
  Some (CurveLocation.mk (Some c) (Curve_getParameter (heap st) c (offset - cum i)%js)) in
(∀ i c,
   cs !! i = Some c →
   (∀ j, (j < i)%nat → (offset <=? cum (S j))%js = false) →
   (offset <=? cum (S i))%js = true →
   run = Ret (found i c) (getCurves st).2)
∧ ((∀ j, (j < length cs)%nat → (offset <=? cum (S j))%js = false) →
   (∃ rest', rest = None :: rest') →
   run = Throw TypeError (getCurves st).2)
∧ ((∀ j, (j < length cs)%nat → (offset <=? cum (S j))%js = false) →
   rest = [] →
   ∃ st', run = Ret (if (offset <=? total)%js
                     then Some (CurveLocation.mk (list.last cs) (of_Z 1))
                     else None) st')
∧ (NumberOrder num →
   rest = [] →
   (∀ j, (j < length cs)%nat → (cum (S j) <=? total)%js = true) →
   (total <? offset)%js = true →
   ∃ st', run = Ret None st')
∧ (rest = [] → cs ≠ [] →
   (_length (this st) = None ∨ _length (this st) = Some (cum (length cs))) →
   ∃ result st', run = Ret result st'
     ∧ (result = None ∨ ∃ i c, cs !! i = Some c ∧ result = found i c)).
Proof.
intros Hcs cum total run found.
destruct (getCurves_frame st) as (_ & _ & Hheap).
(* the call is the scan, followed by the test of the total length *)
assert (∃ k, run = bind (loop ((Some <$> cs) ++ rest) (of_Z 0) offset (getCurves st).2) k
             ∧ (∀ loc st1, k (Some loc) st1 = Ret (Some loc) st1)
             ∧ ∀ st1, k None st1
                 = bind (getLength Curve_getLength st1) (λ total st,
                     if (offset <=? total)%js
                     then Ret (Some (CurveLocation.mk
                                       (curve_at ((Some <$> cs) ++ rest)
                                          (Z.of_nat (length ((Some <$> cs) ++ rest)) - 1))
                                       (of_Z 1))) st
                     else Ret None st)) as (k & Hrun & Hksome & Hk).
{ subst run. unfold getLocationAt. destruct (getCurves st) as [curves st1].
  cbn [fst snd] in *. subst curves. eexists. split; [reflexivity|]. done. }
assert (∀ i c,
          cs !! i = Some c →
          (∀ j, (j < i)%nat → (offset <=? cum (S j))%js = false) →
          (offset <=? cum (S i))%js = true →
          run = Ret (found i c) (getCurves st).2) as Hfound.
{ intros i c Hc Hbefore Hreach. rewrite Hrun.
  pose proof (getLocationAt_loop_found (getCurves st).2 cs rest (of_Z 0) offset i c Hc)
    as Hloop.
  rewrite Hheap in Hloop. rewrite Hloop by assumption.
  cbn [bind]. apply Hksome. }
assert ((∀ j, (j < length cs)%nat → (offset <=? cum (S j))%js = false) →
        loop ((Some <$> cs) ++ rest) (of_Z 0) offset (getCurves st).2
        = loop rest (cum (length cs)) offset (getCurves st).2) as Hpast.
{ intros Hnone.
  pose proof (getLocationAt_loop_past (getCurves st).2 cs rest (of_Z 0) offset) as Hloop.
  rewrite Hheap in Hloop. rewrite Hloop by assumption.
  unfold cum, cumulative_length. by rewrite firstn_all. }
assert ((∀ j, (j < length cs)%nat → (offset <=? cum (S j))%js = false) →
        rest = [] →
        ∃ st', run = Ret (if (offset <=? total)%js
                          then Some (CurveLocation.mk (list.last cs) (of_Z 1))
                          else None) st') as Hend.
{ intros Hnone ->. rewrite Hrun, (Hpast Hnone). cbn [getLocationAt_loop bind]. rewrite Hk.
  rewrite app_nil_r in Hcs |- *.
  destruct (getLength_reported (getCurves st).2 cs) as (st2 & Hlen).
  { rewrite <- Hcs. unfold getCurves. destruct (_curves (this st)) as [curves|] eqn:Hcurves.
    - cbn [fst snd]. by rewrite Hcurves.
    - done. }
  assert (reported_length Curve_getLength (getCurves st).2 cs = total) as Htotal.
  { unfold total, reported_length. rewrite Hheap. f_equal.
    unfold getCurves. by destruct (_curves (this st)). }
  rewrite Htotal in Hlen. rewrite Hlen. cbn [bind].
  assert (curve_at (Some <$> cs) (Z.of_nat (length (Some <$> cs)) - 1) = list.last cs)
    as ->.
  { unfold curve_at. rewrite length_fmap. destruct (decide (cs = [])) as [->|Hne]; [done|].
    assert (length cs ≠ 0%nat) by (by destruct cs).
    destruct (Z.ltb_spec (Z.of_nat (length cs) - 1) 0); [lia|].
    replace (Z.to_nat (Z.of_nat (length cs) - 1)) with (Nat.pred (length cs)) by lia.
    rewrite list_lookup_fmap, <- last_lookup. by destruct (list.last cs). }
  exists st2. by destruct (offset <=? total)%js. }
split; [exact Hfound|]. split; [|split; [exact Hend|split]].
- intros Hnone [rest' ->]. by rewrite Hrun, (Hpast Hnone).
- intros Horder Hrest Hmonotone Hbeyond.
  assert ((offset <=? total)%js = false) as Hnot by (by apply nltb_not_nleb).
  destruct Hend as [st' Hst']; [|done|].
  + intros j Hj. destruct (offset <=? cum (S j))%js eqn:Hreach; [|done].
    rewrite (nleb_trans offset (cum (S j)) total Hreach (Hmonotone j Hj)) in Hnot. done.
  + exists st'. by rewrite Hnot in Hst'.
- intros Hrest Hne Hcache.
  destruct (first_reach (λ j, (offset <=? cum (S j))%js) (length cs))
    as [(i & Hi & Hreach & Hfirst)|Hnone].
  + destruct (lookup_lt_is_Some_2 cs i Hi) as [c Hc].
    exists (found i c), (getCurves st).2. split; [by apply Hfound|].
    right. by exists i, c.
  + destruct (Hend Hnone Hrest) as [st' Hst']. exists None, st'. split; [|by left].
    assert (total = cum (length cs)) as Htot.
    { unfold total, reported_length. by destruct Hcache as [->| ->]. }
    rewrite Htot in Hst'.
    assert (length cs ≠ 0%nat) as Hlen by (by destruct cs).
    pose proof (Hnone (Nat.pred (length cs)) ltac:(lia)) as Hlast.
    replace (S (Nat.pred (length cs))) with (length cs) in Hlast by lia.
    cbv beta in Hlast. by rewrite Hlast in Hst'.
Qed.
End LocationFacts.

Lemma getLocationAt_by_offset_witness :
  getLocationAt chord_length (λ _ _ o, o) 25%float false holed_path
  = Throw TypeError (getCurves holed_path).2
  ∧ getLocationAt chord_length (λ _ _ o, o) 150%float false square_path
    = Ret (Some (CurveLocation.mk (Some (Curve.create 0 (Some 1%nat) (Some 2%nat))) 50%float))
          (getCurves square_path).2
  ∧ ∃ st', getLocationAt chord_length (λ _ _ o, o) 500%float false square_path = Ret None st'.
Proof.
  pose (cs := [Curve.create 0 (Some 0%nat) (Some 1%nat);
               Curve.create 0 (Some 1%nat) (Some 2%nat);
               Curve.create 0 (Some 2%nat) (Some 3%nat);
               Curve.create 0 (Some 3%nat) (Some 0%nat)]).
  assert ((getCurves holed_path).1
          = (Some <$> take 2 cs) ++ [None; Some (Curve.create 0 (Some 3%nat) (Some 0%nat))])
    as Hholed by (vm_compute; reflexivity).
  split; [|split].
  - refine (proj1 (proj2 (getLocationAt_by_offset chord_length (λ _ _ o, o) holed_path
                     25%float (take 2 cs) _ Hholed)) _ _).
    + intros j Hj. destruct j as [|[|j]]; [vm_compute; reflexivity..|cbn in Hj; lia].
    + by eexists.
  - refine (proj1 (getLocationAt_by_offset chord_length (λ _ _ o, o) square_path
                     150%float cs [] eq_refl) 1%nat _ eq_refl _ _).
    + intros j Hj. assert (j = 0%nat) as -> by lia. reflexivity.
    + reflexivity.
  - refine (proj1 (proj2 (proj2 (proj2 (getLocationAt_by_offset chord_length (λ _ _ o, o)
                     square_path 500%float cs [] eq_refl)))) float_NumberOrder eq_refl _ _).
    + intros j Hj.
      destruct j as [|[|[|[|j]]]]; [reflexivity..|cbn in Hj; lia].
    + reflexivity.
Defined.

(* ------------------------------------------------------------------ *)
(** * Theorems: the bounds

    What holds of the two rectangles on doubles is a matter of order:
    the scan of the segments takes minima, and the joins and caps take
    minima again, so that the left and the top edge never move towards
    the path. The right and the bottom edge are held as a width and a
    height, which a subtraction computes and an addition gives back: they
    are rounded, and no law of [NumberOrder] speaks of them. *)

Section ScanFacts.
Context {num : Type} `{!Number num} `{!NumberOrder num}.
Variable TOLERANCE : num.
Implicit Types (st : State num) (mm : (num * num) * (num * num)).

#[local] Existing Instance num_inhabited.
Local Notation "x ⪯ y" := ((x <=? y)%js = true) (at level 70).

Lemma get2_set2 (i i' : nat) (v : num) (a : num * num) :
  get2 i (set2 i' v a) = v ∨ get2 i (set2 i' v a) = get2 i a.
Proof. destruct i, i'; cbn; auto. Qed.

Lemma get2_set2_same (i : nat) (v : num) (a : num * num) : get2 i (set2 i v a) = v.
Proof. by destruct i. Qed.

(** A call of [add] does not move [min] beyond a number that it was at
    most. *)
Lemma bounds_add_keeps sp i' v0 v1 v2 v3 arg mm i v :
  get2 i mm.1 ⪯ v → get2 i (bounds_add sp i' v0 v1 v2 v3 arg mm).1 ⪯ v.
Proof.
  destruct mm as [min max]. intros Hv. unfold bounds_add.
  destruct (match arg with inl value => _ | inr t => _ end) as [value padding].
  cbv zeta. cbn [fst] in *.
  destruct (value - padding <? get2 i' min)%js eqn:Hlt; [|exact Hv].
  destruct (decide (i = i')) as [->|Hne].
  - rewrite get2_set2_same. eapply nleb_trans; [by apply nltb_nleb|exact Hv].
  - destruct i, i'; cbn in *; try done; by eapply nleb_trans; [apply nltb_nleb|].
Qed.

(** [add(value, null)] for a value that is not NaN leaves [min] at most
    the value. *)
Lemma bounds_add_anchor sp i v0 v1 v2 v3 (value : num) mm :
  get2 i mm.1 ⪯ get2 i mm.1 → nisNaN value = false →
  get2 i (bounds_add sp i v0 v1 v2 v3 (inl value) mm).1 ⪯ value.
Proof.
  destruct mm as [min max]. intros Hmin Hvalue. unfold bounds_add. cbn [fst] in *.
  rewrite nsub_0_r.
  destruct (value <? get2 i min)%js eqn:Hlt.
  - rewrite get2_set2_same. by apply nisNaN_comparable.
  - apply nltb_total; [by apply nisNaN_comparable|done..].
Qed.

Lemma processAxis_keeps sp prevCoords coords i' mm i v :
  get2 i mm.1 ⪯ v → get2 i (processAxis TOLERANCE sp prevCoords coords i' mm).1 ⪯ v.
Proof.
  intros Hv. unfold processAxis. cbv zeta.
  repeat match goal with
         | |- context [if ?b then _ else _] => destruct b
         end;
    repeat apply bounds_add_keeps; exact Hv.
Qed.

Lemma processAxis_anchor sp prevCoords coords i mm :
  get2 i mm.1 ⪯ get2 i mm.1 → nisNaN (coords !!! i) = false →
  get2 i (processAxis TOLERANCE sp prevCoords coords i mm).1 ⪯ coords !!! i.
Proof.
  intros Hmin Hvalue. unfold processAxis. cbv zeta.
  pose proof (bounds_add_anchor sp i (prevCoords !!! i) (prevCoords !!! (i + 4)%nat)
                (coords !!! (i + 2)%nat) (coords !!! i) (coords !!! i) mm Hmin Hvalue)
    as Hanchor.
  repeat match goal with
         | |- context [if ?b then _ else _] => destruct b
         end;
    repeat first [exact Hanchor | apply bounds_add_keeps].
Qed.

Lemma processSegment_keeps sp st mm prevCoords segment i v :
  get2 i mm.1 ⪯ v → get2 i (processSegment TOLERANCE sp st (mm, prevCoords) segment).1.1 ⪯ v.
Proof. intros Hv. unfold processSegment. cbn [fst]. by do 2 apply processAxis_keeps. Qed.

(** After [processSegment(segment)] the pair [min] is at most the anchor
    of the segment, on both axes. *)
Lemma processSegment_anchor sp st mm prevCoords segment (x0 y0 : num) :
  get2 0 mm.1 ⪯ x0 → get2 1 mm.1 ⪯ y0 →
  nisNaN (Point._x (Segment._point (deref st segment))) = false →
  nisNaN (Point._y (Segment._point (deref st segment))) = false →
  let mm' := (processSegment TOLERANCE sp st (mm, prevCoords) segment).1 in
  get2 0 mm'.1 ⪯ Point._x (Segment._point (deref st segment))
  ∧ get2 1 mm'.1 ⪯ Point._y (Segment._point (deref st segment)).
Proof.
  intros Hx0 Hy0 Hx Hy. unfold processSegment. cbn [fst].
  set (coords := Segment_coords (deref st segment)).
  split.
  - apply processAxis_keeps.
    apply (processAxis_anchor sp prevCoords coords 0 mm); [|exact Hx].
    by destruct (nleb_comparable _ _ Hx0).
  - apply (processAxis_anchor sp prevCoords coords 1); [|exact Hy].
    pose proof (processAxis_keeps sp prevCoords coords 0 mm 1 y0 Hy0) as Hkept.
    by destruct (nleb_comparable _ _ Hkept).
Qed.

Lemma processSegments_keep sp st (segments : list ref) i v : ∀ mm prevCoords,
  get2 i mm.1 ⪯ v →
  get2 i (foldl (processSegment TOLERANCE sp st) (mm, prevCoords) segments).1.1 ⪯ v.
Proof.
  induction segments as [|segment segments IH]; intros mm prevCoords Hv; [done|].
  cbn [foldl].
  destruct (processSegment TOLERANCE sp st (mm, prevCoords) segment) as [mm1 coords] eqn:Hstep.
  apply IH. pose proof (processSegment_keeps sp st mm prevCoords segment i v Hv) as Hkept.
  by rewrite Hstep in Hkept.
Qed.

Lemma processSegments_anchors sp st (segments : list ref) (x0 y0 : num) : ∀ mm prevCoords,
  get2 0 mm.1 ⪯ x0 → get2 1 mm.1 ⪯ y0 →
  (∀ r, r ∈ segments →
     nisNaN (Point._x (Segment._point (deref st r))) = false
     ∧ nisNaN (Point._y (Segment._point (deref st r))) = false) →
  let mm' := (foldl (processSegment TOLERANCE sp st) (mm, prevCoords) segments).1 in
  ∀ r, r ∈ segments →
    get2 0 mm'.1 ⪯ Point._x (Segment._point (deref st r))
    ∧ get2 1 mm'.1 ⪯ Point._y (Segment._point (deref st r)).
Proof.
  induction segments as [|segment segments IH]; intros mm prevCoords Hx0 Hy0 Hnan;
    cbv zeta; [by intros r Hr; apply elem_of_nil in Hr|].
  cbn [foldl].
  destruct (Hnan segment ltac:(by left)) as [Hx Hy].
  pose proof (processSegment_anchor sp st mm prevCoords segment x0 y0 Hx0 Hy0 Hx Hy)
    as [Hax Hay]. cbv zeta in Hax, Hay.
  pose proof (processSegment_keeps sp st mm prevCoords segment 0 x0 Hx0) as Hkx.
  pose proof (processSegment_keeps sp st mm prevCoords segment 1 y0 Hy0) as Hky.
  destruct (processSegment TOLERANCE sp st (mm, prevCoords) segment) as [mm1 coords].
  cbn [fst] in *.
  intros r Hr. apply elem_of_cons in Hr as [->|Hr].
  - split; by apply processSegments_keep.
  - apply (IH mm1 coords Hkx Hky); [|exact Hr].
    intros r' Hr'. apply Hnan. by right.
Qed.

(** The private function [getBounds], with or without padding, on a path
    with a segment and no NaN among its anchors: the rectangle starts at
    or before every anchor. *)
Lemma getBounds_starts_before sp st :
  _segments (this st) ≠ [] → anchors_not_NaN st →
  ∃ rect, getBounds TOLERANCE sp st = Some rect
          ∧ ∀ r, r ∈ _segments (this st) →
              starts_before rect (Segment._point (deref st r)).
Proof.
  intros Hne Hnan. unfold getBounds.
  destruct (_segments (this st)) as [|first rest] eqn:Hsegs; [done|].
  destruct (Hnan first ltac:(rewrite Hsegs; by left)) as [Hx Hy].
  set (prevCoords := Segment_coords (deref st first)).
  set (mm0 := ((prevCoords !!! 0%nat, prevCoords !!! 1%nat),
               (prevCoords !!! 0%nat, prevCoords !!! 1%nat))).
  assert (get2 0 mm0.1 ⪯ Point._x (Segment._point (deref st first))) as Hx0
    by (by apply nisNaN_comparable).
  assert (get2 1 mm0.1 ⪯ Point._y (Segment._point (deref st first))) as Hy0
    by (by apply nisNaN_comparable).
  pose proof (processSegments_keep sp st rest 0 _ mm0 prevCoords Hx0) as Hkx.
  pose proof (processSegments_keep sp st rest 1 _ mm0 prevCoords Hy0) as Hky.
  pose proof (processSegments_anchors sp st rest _ _ mm0 prevCoords Hx0 Hy0) as Hrest.
  cbv zeta in Hrest.
  destruct (foldl (processSegment TOLERANCE sp st) (mm0, prevCoords) rest)
    as [mm1 coords1] eqn:Hfold. cbn [fst] in Hkx, Hky, Hrest.
  set (acc := if _closed (this st) then _ else _).
  assert (∀ i v, get2 i mm1.1 ⪯ v → get2 i acc.1.1 ⪯ v) as Hlast.
  { intros i v Hv. subst acc. destruct (_closed (this st)); [|done].
    by apply processSegment_keeps. }
  destruct acc as [[min max] coords2]. cbn [fst] in Hlast.
  eexists. split; [reflexivity|].
  intros r Hr. unfold starts_before. cbn [Rectangle.x Rectangle.y].
  apply elem_of_cons in Hr as [->|Hr].
  - split; by apply Hlast.
  - destruct (Hrest ltac:(intros r' Hr'; apply Hnan; rewrite Hsegs; by right) r Hr).
    split; by apply Hlast.
Qed.
End ScanFacts.

Section StrokeBoundsFacts.
Context {num : Type} `{!Number num} `{!NumberOrder num}.
Variable TOLERANCE : num.
Variable Segment_getCurve : State num → ref → option Curve.t.
Variable Curve_getPrevious : State num → Curve.t → option Curve.t.
Variable Curve_getPoint : State num → Curve.t → num → Point.t num.
Variable Curve_getNormal : State num → Curve.t → num → Point.t num.
Variable Point_normalize : Point.t num → num → Point.t num.
Variable Point_getDistance : Point.t num → Point.t num → num.
Variable Line_intersect :
  Point.t num * Point.t num → Point.t num * Point.t num → option (Point.t num).
Implicit Types (st : State num) (rect bounds : Rectangle.t num) (p : Point.t num).

Local Notation "x ⪯ y" := ((x <=? y)%js = true) (at level 70).
Abbreviation addBevelJoin' := (addBevelJoin Curve_getPoint Curve_getNormal Point_normalize).
Abbreviation addJoin_bevel' :=
  (addJoin_bevel Segment_getCurve Curve_getPrevious Curve_getPoint Curve_getNormal
     Point_normalize).
Abbreviation addJoin' :=
  (addJoin Segment_getCurve Curve_getPrevious Curve_getPoint Curve_getNormal
     Point_normalize Point_getDistance Line_intersect).
Abbreviation addCap' :=
  (addCap Segment_getCurve Curve_getPrevious Curve_getPoint Curve_getNormal
     Point_normalize Point_getDistance Line_intersect).
Abbreviation getStrokeBounds' :=
  (getStrokeBounds TOLERANCE Segment_getCurve Curve_getPrevious Curve_getPoint
     Curve_getNormal Point_normalize Point_getDistance Line_intersect).














(** Without a curve at the first segment, a butt or square cap calls a
    method on [null]: on an open path [getStrokeBounds] throws, whatever
    the joins have done before. A path with a single segment has no
    curve. *)
Lemma getStrokeBounds_without_a_curve st :
  Style._strokeColor (_style (this st)) = true →
  ntruthy (Style._strokeWidth (_style (this st))) = true →
  _strokeBounds (this st) = None → _closed (this st) = false →
  Style._strokeCap (_style (this st)) ≠ CapRound →
  Segment_getCurve st (_segments (this st) !!! 0%nat) = None →
  getStrokeBounds' st = Throw TypeError st.
Proof.
  intros Hcolor Hwidth Hnone Hopen Hcap Hcurve. unfold getStrokeBounds.
  rewrite Hcolor, Hwidth, Hnone, Hopen. cbn [negb orb].
  destruct (getBounds _ _ st) as [padded|]; [|done].
  destruct (foldl _ (Some padded) _) as [joined|]; [|done].
  cbn [mbind option_bind]. unfold addCap at 2.
  destruct (Style._strokeCap (_style (this st))); [done| |]; by rewrite Hcurve.
Qed.


End StrokeBoundsFacts.



(* ------------------------------------------------------------------ *)
(** * More on the drawing commands *)

Section MoreDrawing.
Context {num : Type} `{!Number num}.
Implicit Types (st : State num) (r : ref).

(** The first loop of [_add] hands back as many segments as it received
  and leaves the segment list alone. *)
Lemma _add_attach_one_segments index i r st :
_segments (this (_add_attach_one index i r st).2) = _segments (this st).
Proof.
unfold _add_attach_one.
destruct (Segment._path (deref st r)); cbn; by case_bool_decide.
Qed.

Lemma _add_attach_segments index segs : ∀ i st,
length (_add_attach index i segs st).1 = length segs
∧ _segments (this (_add_attach index i segs st).2) = _segments (this st).
Proof.
induction segs as [|r segs IH]; intros i st; [done|]. cbn [_add_attach].
pose proof (_add_attach_one_segments index i r st) as Hone.
destruct (_add_attach_one index i r st) as [r' st1]. cbn [snd] in Hone.
destruct (IH (S i) st1) as [Hlen Hsegs].
destruct (_add_attach index (S i) segs st1) as [rs st2]. cbn in *.
split; [by rewrite Hlen | by rewrite Hsegs].
Qed.

(** What [_add] makes of the segment list: the segments handed back are
  spliced in at the index, or pushed at the end. *)
Lemma _add_segments segs index st :
length (_add segs index st).1 = length segs
∧ _segments (this (_add segs index st).2)
  = match index with
    | None => _segments (this st) ++ (_add segs index st).1
    | Some i => take i (_segments (this st)) ++ (_add segs index st).1
                ++ drop i (_segments (this st))
    end.
Proof.
unfold _add.
destruct (_add_attach_segments (default (length (_segments (this st))) index) segs 0 st)
  as [Hlen Hsegs].
destruct (_add_attach (default (length (_segments (this st))) index) 0 segs st)
  as [segs' st1]. cbn [fst snd] in *.
split; [done|].
destruct index as [i|]; cbn [default bool_decide decide_rel];
  [rewrite bool_decide_eq_false_2 by done | rewrite bool_decide_eq_true_2 by done];
  destruct (_curves (this st)); cbn; try done.
all: by match goal with
        | |- context [match ?n with O => _ | S _ => _ end] => destruct n
        end.
Qed.

Lemma add_new_Segment_segments (s : Segment.t num) st :
Segment._path s = None →
_segments (this (add_new_Segment s st)) = _segments (this st) ++ [length (heap st)].
Proof.
intros Hfree.
unfold add_new_Segment, alloc.
set (st1 := on_heap (λ h, h ++ [s]) st).
destruct (_add_segments [length (heap st)] None st1) as [Hlen Hsegs].
rewrite Hsegs. f_equal.
unfold _add. cbn. unfold _add_attach_one, deref. cbn.
rewrite list_lookup_total_middle by done. rewrite Hfree. by cbn.
Qed.

(** The store after [this._add([ new Segment(...) ])]: the new segment
  sits at the end, attached to the path at the last index. *)
Lemma add_new_Segment_heap (s : Segment.t num) st :
Segment._path s = None →
heap (add_new_Segment s st)
= heap st ++ [Segment.with_index (Some (length (_segments (this st))))
                (Segment.with_path (Some (_id (this st))) s)].
Proof.
intros Hfree.
assert (deref (on_heap (λ h, h ++ [s]) st) (length (heap st)) = s) as Hs.
{ unfold deref. cbn. by rewrite list_lookup_total_middle. }
unfold add_new_Segment, alloc, _add. cbn [_add_attach]. unfold _add_attach_one.
rewrite Hs, Hfree. cbn [this on_heap default]. rewrite Nat.add_0_r.
destruct (_curves (this st)), (length (_segments (this st)));
  repeat case_bool_decide; try done;
  cbn; by rewrite !alter_app_r_alt, Nat.sub_diag by done.
Qed.

(** X1: a path without segments has no current segment. Every drawing
  command that starts from the current segment then throws 'Use a
  moveTo() command first' and leaves the path and the segments as they
  were; [arcBy] does so at its first call. *)
Theorem drawing_commands_need_a_current_segment `{!MathLib num} st :
_segments (this st) = [] →
(∀ handle1 handle2 to, cubicCurveTo handle1 handle2 to st = Throw UseMoveToFirst st)
∧ (∀ handle to, quadraticCurveTo handle to st = Throw UseMoveToFirst st)
∧ (∀ through to parameter, curveTo through to parameter st = Throw UseMoveToFirst st)
∧ (∀ args, arcTo args st = Throw UseMoveToFirst st)
∧ (∀ vector, lineBy vector st = Throw UseMoveToFirst st)
∧ (∀ Point_read throughVector toVector parameter,
     curveBy Point_read throughVector toVector parameter st = Throw UseMoveToFirst st)
∧ (∀ Point_read fuel throughVector toVector,
     arcBy Point_read (S fuel) throughVector toVector st = Some (Throw UseMoveToFirst st)).
Proof.
intros Hnil. pose proof (getCurrentSegment_empty st Hnil) as Hcurrent.
repeat split; intros;
  unfold cubicCurveTo, quadraticCurveTo, curveTo, arcTo, lineBy, curveBy; cbn [arcBy];
  by rewrite Hcurrent.
Qed.

(** X2: [moveTo] only starts a path. On a path without segments it adds
  one segment, at the point and with zero handles; on a path that has a
  segment it changes nothing, so that a second [moveTo] is never seen. *)
Theorem moveTo_only_starts_a_path (point point' : Point.t num) st :
(_segments (this st) = [] →
   _segments (this (moveTo point st)) = [length (heap st)]
   ∧ Segment._point (deref (moveTo point st) (length (heap st))) = point
   ∧ Segment._handleIn (deref (moveTo point st) (length (heap st))) = Point.zero
   ∧ Segment._handleOut (deref (moveTo point st) (length (heap st))) = Point.zero)
∧ (_segments (this st) ≠ [] → moveTo point st = st)
∧ moveTo point' (moveTo point st) = moveTo point st.
Proof.
assert (_segments (this st) = [] →
        _segments (this (moveTo point st)) = [length (heap st)]) as Hstart.
{ intros Hnil. unfold moveTo. rewrite Hnil. cbn [length].
  rewrite bool_decide_eq_true_2 by done.
  rewrite add_new_Segment_segments by done. by rewrite Hnil. }
assert (∀ p st', _segments (this st') ≠ [] → moveTo p st' = st') as Hbail.
{ intros p st' Hne. unfold moveTo. rewrite bool_decide_eq_false_2; [done|].
  by destruct (_segments (this st')). }
split; [|split; [apply Hbail|]].
- intros Hnil. split; [by apply Hstart|].
  unfold moveTo, deref. rewrite Hnil. cbn [length].
  rewrite bool_decide_eq_true_2 by done.
  rewrite add_new_Segment_heap by done.
  by rewrite list_lookup_total_middle.
- apply Hbail. destruct (_segments (this st)) as [|r rs] eqn:Hsegs.
  + by rewrite Hstart.
  + rewrite Hbail; by rewrite Hsegs.
Qed.

(** X3: [lineTo] is total ("not picky about calling moveTo() first"): it
  stores a new segment object at the point, with zero handles, makes it
  the last of the path, and touches no segment object that existed. The
  current segment that the next command finds is that segment. *)
Theorem lineTo_sets_the_current_segment (point : Point.t num) st :
let st' := lineTo point st in
let r := length (heap st) in
_segments (this st') = _segments (this st) ++ [r]
∧ getCurrentSegment st' = Ret r st'
∧ deref st' r = Segment.mk point Point.zero Point.zero
                  (Some (_id (this st))) (Some (length (_segments (this st)))) 0
∧ take (length (heap st)) (heap st') = heap st
∧ length (heap st') = S (length (heap st)).
Proof.
intros st' r. subst st' r. unfold lineTo.
pose proof (add_new_Segment_segments (Segment.create point Point.zero Point.zero) st eq_refl)
  as Hsegs.
pose proof (add_new_Segment_heap (Segment.create point Point.zero Point.zero) st eq_refl)
  as Hheap.
split; [done|]. split.
{ unfold getCurrentSegment. by rewrite Hsegs, last_snoc. }
unfold deref. rewrite Hheap. split; [by rewrite list_lookup_total_middle|].
split; [by rewrite take_app_length | rewrite List.length_app; cbn; lia].
Qed.
End MoreDrawing.

Lemma moveTo_only_starts_a_path_witness :
  _segments (this (moveTo (Point.mk 1 2)%Z (initialize 0 default_style))) = [0%nat].
Proof.
  apply (moveTo_only_starts_a_path (Point.mk 1 2)%Z (Point.mk 3 4)%Z
           (initialize 0 default_style)).
  reflexivity.
Defined.

Lemma drawing_commands_need_a_current_segment_witness :
  lineBy (Point.mk 1 2)%Z (initialize 0 default_style)
  = Throw UseMoveToFirst (initialize 0 default_style).
Proof.
  apply (drawing_commands_need_a_current_segment
           (MathLib0 := Build_MathLib Z 3%Z id id (λ _ x, x) Z.abs id Z.min Z.max)
           (initialize 0 default_style)).
  reflexivity.
Defined.

(* ------------------------------------------------------------------ *)
(** * More on the segment list: removal, round trips, orientation *)

Section MoreMutation.
Context {num : Type} `{!Number num}.
Implicit Types (st : State num) (r : ref).

Lemma State_eta st :
mkState (heap st)
  (mkPath (_id (this st)) (_segments (this st)) (_curves (this st)) (_closed (this st))
     (_selectedSegmentCount (this st)) (_length (this st)) (_bounds (this st))
     (_position (this st)) (_strokeBounds (this st)) (_clockwise (this st))
     (_style (this st))) = st.
Proof. by destruct st as [h []]. Qed.

(** What [removeSegments] returns and what it leaves in the list. *)
Lemma removeSegments_segments from to st :
let f := default 0%nat from in
let count := Z.to_nat (match to with
                       | Some t => Z.of_nat t
                       | None => Z.of_nat (length (_segments (this st))) - 1
                       end - Z.of_nat f) in
(removeSegments from to st).1 = take count (drop f (_segments (this st)))
∧ _segments (this (removeSegments from to st).2)
  = take f (_segments (this st)) ++ drop (f + count) (_segments (this st)).
Proof.
intros f count. unfold removeSegments. fold f. fold count.
cbv zeta. case_bool_decide; [done|]. cbn [fst snd]. split; [done|].
pose proof (removeSegments_deselect_spec
              (take count (drop f (_segments (this st))))
              (on_this (set_segments (take f (_segments (this st))
                                      ++ drop (f + count) (_segments (this st)))) st))
  as (Hsegs & _).
cbv zeta in Hsegs. cbn in Hsegs.
by destruct (_curves (this st)).
Qed.

(** When nothing is removed, [removeSegments] returns at once: the state
  is the one it was called in. *)
Lemma removeSegments_nothing from to st :
(removeSegments from to st).1 = [] → (removeSegments from to st).2 = st.
Proof.
unfold removeSegments. cbv zeta.
set (f := default 0%nat from). set (count := Z.to_nat _).
case_bool_decide as Hamount; cbn [fst snd].
- intros _. rewrite length_take, length_drop in Hamount.
  assert (take f (_segments (this st)) ++ drop (f + count) (_segments (this st))
          = _segments (this st)) as ->.
  { destruct (decide (count = 0%nat)) as [Hcount|Hcount].
    - by rewrite Hcount, Nat.add_0_r, take_drop.
    - rewrite take_ge, drop_ge by lia. by rewrite app_nil_r. }
  unfold on_this, set_segments. apply State_eta.
- intros Hnil. by rewrite Hnil in Hamount.
Qed.

(** X4: [removeSegment(index)] takes the segment at the index out of the
  list and returns it; the other segments keep their order. With an
  index past the end nothing is removed: it returns [null] (the [None]
  of the model, for [segments[0] || null]) and changes nothing, not even
  the cached values. *)
Theorem removeSegment_at_index (index : nat) st :
(∀ r, _segments (this st) !! index = Some r →
      (removeSegment index st).1 = Some r
      ∧ _segments (this (removeSegment index st).2) = delete index (_segments (this st)))
∧ ((length (_segments (this st)) ≤ index)%nat → removeSegment index st = (None, st)).
Proof.
unfold removeSegment.
pose proof (removeSegments_segments (Some index) (Some (index + 1)%nat) st) as Hspec.
pose proof (removeSegments_nothing (Some index) (Some (index + 1)%nat) st) as Hnone.
destruct (removeSegments (Some index) (Some (index + 1)%nat) st) as [removed st'].
cbv zeta in Hspec. cbn [fst snd from_option id] in *.
replace (Z.to_nat (Z.of_nat (index + 1) - Z.of_nat index)) with 1%nat in Hspec by lia.
destruct Hspec as [-> ->]. split.
- intros r Hr. split.
  + rewrite <- (take_drop_middle _ _ _ Hr) at 1.
    by rewrite drop_app_length' by (rewrite length_take; apply lookup_lt_Some in Hr; lia).
  + rewrite Nat.add_1_r. by rewrite delete_take_drop.
- intros Hlen. rewrite drop_ge in * by lia. cbn in *. by rewrite Hnone.
Qed.

(** X5: segments added by [_add] at an index within the list, or pushed
  at its end, and then removed by [removeSegments] over the same range:
  the removal returns exactly the segments that the addition handed back,
  and the path has its former segment list. *)
Theorem add_then_remove_restores_the_list (segs : list ref) (index : option nat) st :
let i := default (length (_segments (this st))) index in
(i ≤ length (_segments (this st)))%nat →
let added := _add segs index st in
let removed := removeSegments (Some i) (Some (i + length segs)%nat) added.2 in
removed.1 = added.1
∧ _segments (this removed.2) = _segments (this st).
Proof.
intros i Hi added removed. subst added removed.
destruct (_add_segments segs index st) as [Hlen Hadded].
pose proof (removeSegments_segments (Some i) (Some (i + length segs)%nat)
              (_add segs index st).2) as Hspec.
cbv zeta in Hspec. cbn [from_option id] in Hspec.
replace (Z.to_nat (Z.of_nat (i + length segs) - Z.of_nat i)) with (length segs) in Hspec
  by lia.
destruct Hspec as [-> ->].
set (L := _segments (this st)) in *. set (new := (_add segs index st).1) in *.
assert (_segments (this (_add segs index st).2) = take i L ++ new ++ drop i L) as ->.
{ rewrite Hadded. subst i. destruct index as [k|]; cbn; [done|].
  by rewrite take_ge, drop_ge, app_nil_r by lia. }
assert (length (take i L) = i) as Htake by (rewrite length_take; lia).
split.
- rewrite drop_app_length' by done. by rewrite take_app_length' by done.
- rewrite take_app_length' by done.
  rewrite app_assoc, drop_app_length' by (rewrite List.length_app; lia).
  apply take_drop.
Qed.

(** ** What [removeSegments] does to the segments it removes *)

Lemma attachment_lookup (h h' : list (Segment.t num)) r :
attachment h' = attachment h →
Segment._path (h' !!! r) = Segment._path (h !!! r)
∧ Segment._index (h' !!! r) = Segment._index (h !!! r).
Proof.
intros Heq. apply (f_equal (λ l, l !! r)) in Heq.
unfold attachment in Heq. rewrite !list_lookup_fmap in Heq.
rewrite !list_lookup_total_alt.
destruct (h' !! r) as [s'|], (h !! r) as [s|]; cbn in *; by simplify_eq.
Qed.

Lemma reindex_loop_path rs : ∀ i (h : list (Segment.t num)),
Segment._path <$> reindex_loop i rs h = Segment._path <$> h.
Proof.
induction rs as [|r rs IH]; intros i h; [done|]. cbn. rewrite IH.
rewrite (list_fmap_alter _ _ id); [by apply list_alter_id|].
apply Forall_lookup. by intros ? [].
Qed.

(** X6: [removeSegments] detaches nothing. No segment object, removed or
  not, has its [_path] changed by the call; and in a path without a
  repeated segment object, every segment that the call returns still
  holds the index it had in the list. (The statement of the source that
  is meant to clear both assigns to the array of removed segments.) *)
Theorem removeSegments_detaches_nothing (from to : option nat) st :
let removed := (removeSegments from to st).1 in
let st' := (removeSegments from to st).2 in
(∀ r, Segment._path (deref st' r) = Segment._path (deref st r))
∧ (NoDup (_segments (this st)) →
   ∀ r, r ∈ removed → Segment._index (deref st' r) = Segment._index (deref st r)).
Proof.
intros removed st'. subst removed st'.
pose proof (removeSegments_segments from to st) as Hlists.
pose proof (removeSegments_nothing from to st) as Hnothing.
cbv zeta in Hlists. destruct Hlists as [Hremoved Hkept].
revert Hremoved Hkept Hnothing. unfold removeSegments. cbv zeta.
set (f := default 0%nat from). set (count := Z.to_nat _).
set (L := _segments (this st)).
case_bool_decide as Hamount; cbn [fst snd].
{ intros _ _ ->; [by split | by apply length_zero_iff_nil]. }
intros _ _ _.
pose proof (removeSegments_deselect_spec (take count (drop f L))
              (on_this (set_segments (take f L ++ drop (f + count) L)) st)) as Hspec.
set (st1 := removeSegments_deselect _ _) in *. cbv zeta in Hspec.
destruct Hspec as (Hsegs1 & _ & _ & _ & Hheap1). cbn in Hsegs1, Hheap1.
assert (∀ stx : State num, heap stx = heap (reindex f st1) →
          (∀ r, Segment._path (deref stx r) = Segment._path (deref st r))
          ∧ (NoDup L → ∀ r, r ∈ take count (drop f L) →
               Segment._index (deref stx r) = Segment._index (deref st r))) as Hdone.
{ intros stx Hstx. unfold deref. rewrite Hstx. unfold reindex. cbn [heap on_heap].
  split.
  - intros r. destruct (attachment_lookup (heap st) (heap st1) r Hheap1) as [<- _].
    rewrite !list_lookup_total_alt.
    pose proof (reindex_loop_path (drop f (_segments (this st1))) f (heap st1)) as Hpath.
    apply (f_equal (λ l, l !! r)) in Hpath. rewrite !list_lookup_fmap in Hpath.
    destruct (reindex_loop _ _ _ !! r), (heap st1 !! r); cbn in *; by simplify_eq.
  - intros Hnodup r Hr.
    destruct (attachment_lookup (heap st) (heap st1) r Hheap1) as [_ <-].
    rewrite Hsegs1.
    assert (NoDup (take f L) ∧ (∀ x, x ∈ take f L → x ∉ drop f L) ∧ NoDup (drop f L))
      as (_ & _ & Hnd) by (apply list.NoDup_app; by rewrite take_drop).
    assert (NoDup (take count (drop f L))
            ∧ (∀ x, x ∈ take count (drop f L) → x ∉ drop count (drop f L))
            ∧ NoDup (drop count (drop f L)))
      as (_ & Hsep & Hnd') by (apply list.NoDup_app; by rewrite take_drop).
    assert (drop f (take f L ++ drop (f + count) L) = drop count (drop f L)) as Hrest.
    { rewrite drop_drop. destruct (decide (f ≤ length L)%nat).
      - by rewrite drop_app_length' by (rewrite length_take; lia).
      - by rewrite take_ge, !drop_ge by (rewrite ?List.length_app, ?length_drop; lia). }
    rewrite Hrest.
    destruct (reindex_loop_spec (drop count (drop f L)) f (heap st1) Hnd') as [Hother _].
    rewrite !list_lookup_total_alt. by rewrite Hother by (by apply Hsep). }
apply Hdone. by destruct (_curves (this st)).
Qed.
End MoreMutation.

Lemma removeSegment_at_index_witness :
  removeSegment 3 (corner_path false) = (None, corner_path false)
  ∧ (removeSegment 1 (corner_path false)).1 = Some 1%nat.
Proof.
  split.
  - apply (removeSegment_at_index 3 (corner_path false)). vm_compute. lia.
  - apply (removeSegment_at_index 1 (corner_path false)). reflexivity.
Defined.

Lemma add_then_remove_restores_the_list_witness :
  _segments (this (removeSegments (Some 1%nat) (Some (1 + 2)%nat)
                     (_add [0%nat; 2%nat] (Some 1%nat) (corner_path false)).2).2)
  = [0%nat; 1%nat; 2%nat].
Proof.
  apply (add_then_remove_restores_the_list [0%nat; 2%nat] (Some 1%nat) (corner_path false)).
  vm_compute. lia.
Defined.

Lemma removeSegments_detaches_nothing_witness :
  Segment._index (deref (removeSegments (Some 1%nat) (Some 2%nat) (corner_path false)).2 1%nat)
  = Some 1%nat.
Proof.
  apply (removeSegments_detaches_nothing (Some 1%nat) (Some 2%nat) (corner_path false)).
  - change (NoDup [0; 1; 2]%nat). by apply (bool_decide_unpack _).
  - change (1%nat ∈ [1%nat]). apply list_elem_of_here.
Defined.

(* ------------------------------------------------------------------ *)
(** * More on the orientation *)

Section MoreOrientation.
Context {num : Type} `{!Number num}.
Implicit Types (st : State num) (r : ref).

(** X7: after [setClockwise(clockwise)] the path reports the orientation
  asked for. A path that reports it already is left as it is; any other
  is reversed and the flag is stored. A second call with the same value
  changes nothing. *)
Theorem setClockwise_then_isClockwise (clockwise : bool) st :
isClockwise (setClockwise clockwise st) = clockwise
∧ (isClockwise st = clockwise → setClockwise clockwise st = st)
∧ (isClockwise st ≠ clockwise →
   _segments (this (setClockwise clockwise st)) = rev (_segments (this st))
   ∧ _clockwise (this (setClockwise clockwise st)) = Some clockwise)
∧ setClockwise clockwise (setClockwise clockwise st) = setClockwise clockwise st.
Proof.
assert (∀ st', isClockwise st' = clockwise → setClockwise clockwise st' = st') as Hsame.
{ intros st' Heq. unfold setClockwise. by rewrite bool_decide_eq_false_2 by naive_solver. }
assert (isClockwise (setClockwise clockwise st) = clockwise) as Hreports.
{ unfold setClockwise. case_bool_decide as Hne; [done|].
  by destruct (isClockwise st), clockwise. }
split; [done|]. split; [apply Hsame|]. split; [|by apply Hsame].
intros Hne. unfold setClockwise. by rewrite bool_decide_eq_true_2.
Qed.
End MoreOrientation.

(** ** What [reverse] does to the segments *)

Section ReverseFacts.
Context {num : Type} `{!Number num}.
Implicit Types (st : State num) (r : ref).

(** The loop of [reverse] exchanges the handles of the segments of the
  list, when no segment object occurs in it twice, and those only. *)
Lemma swap_all_lookup rs : ∀ (h : list (Segment.t num)) r,
NoDup rs → r ∈ rs → swap_all rs h !! r = Segment.swapHandles <$> h !! r.
Proof.
induction rs as [|r' rs IH]; intros h r Hnodup Hr; [by apply elem_of_nil in Hr|].
apply list.NoDup_cons in Hnodup as [Hnotin Hnodup].
rewrite swap_all_cons, swap_all_alter.
apply elem_of_cons in Hr as [->|Hr].
- rewrite list_lookup_alter_eq. f_equal.
  clear IH Hnodup. revert h. induction rs as [|r rs IH]; intros h; [done|].
  apply not_elem_of_cons in Hnotin as [Hne Hnotin].
  rewrite swap_all_cons, swap_all_alter, list_lookup_alter_ne by done. by apply IH.
- rewrite list_lookup_alter_ne by (intros ->; done). by apply IH.
Qed.

Lemma swap_all_lookup_other rs : ∀ (h : list (Segment.t num)) r,
r ∉ rs → swap_all rs h !! r = h !! r.
Proof.
induction rs as [|r' rs IH]; intros h r Hr; [done|].
apply not_elem_of_cons in Hr as [Hne Hr].
rewrite swap_all_cons, swap_all_alter, list_lookup_alter_ne by done. by apply IH.
Qed.

Lemma rev_reverse {A} (l : list A) : rev l = list.reverse l.
Proof. unfold list.reverse. apply rev_alt. Qed.

Lemma reverse_heap st :
heap (reverse st) = swap_all (_segments (this st)) (heap st).
Proof.
unfold reverse. cbn [this heap on_this on_heap _segments set_segments].
fold (swap_all (rev (_segments (this st))) (heap st)). apply swap_all_rev.
Qed.

(** X8: [reverse] on a path that holds no segment object twice. The
  list of segments is reversed, and every segment of the list has its
  two handles exchanged, so that the same curves are run through the
  other way; a segment object that is not in the list is left alone.
  That is all: the anchor, the owner and the selection of a segment
  stay, and so does its [_index], which [reverse] does not write, and the
  curve list of the path. A segment that held its position [i] as its
  [_index] is afterwards at position [length - 1 - i] with [_index] [i]. *)
Theorem reverse_exchanges_the_handles st :
NoDup (_segments (this st)) →
_segments (this (reverse st)) = rev (_segments (this st))
∧ (∀ r, r ∈ _segments (this st) → deref (reverse st) r = Segment.swapHandles (deref st r))
∧ (∀ r, r ∉ _segments (this st) → deref (reverse st) r = deref st r)
∧ _curves (this (reverse st)) = _curves (this st)
∧ (∀ i r, _segments (this st) !! i = Some r →
     Segment._index (deref st r) = Some i →
     _segments (this (reverse st)) !! (length (_segments (this st)) - 1 - i)%nat = Some r
     ∧ Segment._index (deref (reverse st) r) = Some i).
Proof.
intros Hnodup.
assert (∀ r, r ∈ _segments (this st) →
          deref (reverse st) r = Segment.swapHandles (deref st r)) as Hswapped.
{ intros r Hr. unfold deref. rewrite reverse_heap, !list_lookup_total_alt.
  rewrite swap_all_lookup by done. by destruct (heap st !! r). }
split; [done|]. split; [exact Hswapped|]. split; [|split; [done|]].
- intros r Hr. unfold deref. rewrite reverse_heap, !list_lookup_total_alt.
  by rewrite swap_all_lookup_other.
- intros i r Hi Hindex. split.
  + change (_segments (this (reverse st))) with (rev (_segments (this st))).
    apply lookup_lt_Some in Hi as Hlt.
    rewrite rev_reverse, reverse_lookup by lia.
    rewrite <- Hi. f_equal. lia.
  + rewrite Hswapped by (by eapply list_elem_of_lookup_2). exact Hindex.
Qed.
End ReverseFacts.

Lemma setClockwise_then_isClockwise_witness :
  _segments (this (setClockwise false (corner_path false))) = [2%nat; 1%nat; 0%nat]
  ∧ setClockwise true (corner_path false) = corner_path false.
Proof.
  split.
  - refine (proj1 (proj1 (proj2 (proj2
             (setClockwise_then_isClockwise false (corner_path false)))) _)).
    vm_compute. discriminate.
  - refine (proj1 (proj2 (setClockwise_then_isClockwise true (corner_path false))) _).
    vm_compute. reflexivity.
Defined.

Lemma reverse_exchanges_the_handles_witness :
  _segments (this (reverse (corner_path false))) = [2; 1; 0]%nat
  ∧ Segment._index (deref (reverse (corner_path false)) 0%nat) = Some 0%nat.
Proof.
  assert (NoDup (_segments (this (corner_path false)))) as Hnodup
    by (change (NoDup [0; 1; 2]%nat); by apply (bool_decide_unpack _)).
  split.
  - exact (proj1 (reverse_exchanges_the_handles (corner_path false) Hnodup)).
  - exact (proj2 (proj2 (proj2 (proj2 (proj2
             (reverse_exchanges_the_handles (corner_path false) Hnodup)))) 0%nat 0%nat
             eq_refl eq_refl)).
Defined.

(* ------------------------------------------------------------------ *)
(** * More on the bounds *)

Section MoreBounds.
Context {num : Type} `{!Number num}.
Variable TOLERANCE : num.
Variable Segment_getCurve : State num → ref → option Curve.t.
Variable Curve_getPrevious : State num → Curve.t → option Curve.t.
Variable Curve_getPoint : State num → Curve.t → num → Point.t num.
Variable Curve_getNormal : State num → Curve.t → num → Point.t num.
Variable Point_normalize : Point.t num → num → Point.t num.
Variable Point_getDistance : Point.t num → Point.t num → num.
Variable Line_intersect :
Point.t num * Point.t num → Point.t num * Point.t num → option (Point.t num).
Implicit Types (st : State num) (rect : Rectangle.t num).

(** X9: a path without segments has no bounds. [getBounds()] finds
  [null] where it reads the rectangle and throws, and so does
  [getStrokeBounds()], with or without a stroke; nothing is cached.
  On a path with a segment [getBounds()] returns, caches the rectangle,
  and returns the same rectangle when called again. *)
Theorem getBounds_empty_path_and_cache st :
(_segments (this st) = [] → _bounds (this st) = None →
   Path_getBounds TOLERANCE st = Throw TypeError st
   ∧ (_strokeBounds (this st) = None →
      getStrokeBounds TOLERANCE Segment_getCurve Curve_getPrevious Curve_getPoint
        Curve_getNormal Point_normalize Point_getDistance Line_intersect st
      = Throw TypeError st))
∧ (_segments (this st) ≠ [] →
   ∃ rect st', Path_getBounds TOLERANCE st = Ret rect st')
∧ (∀ rect st', Path_getBounds TOLERANCE st = Ret rect st' →
     _bounds (this st') = Some rect
     ∧ Path_getBounds TOLERANCE st' = Ret rect st').
Proof.
split; [|split].
- intros Hnil Hnone.
  assert (Path_getBounds TOLERANCE st = Throw TypeError st) as Hthrow.
  { unfold Path_getBounds, getBounds. by rewrite Hnone, Hnil. }
  split; [done|]. intros Hstroke. unfold getStrokeBounds.
  destruct (_ || _); [done|]. rewrite Hstroke. unfold getBounds. by rewrite Hnil.
- intros Hne. unfold Path_getBounds, getBounds.
  destruct (_bounds (this st)) as [b|]; [by eexists _, _|].
  destruct (_segments (this st)) as [|first rest]; [done|].
  destruct (if _closed (this st) then _ else _) as [[? ?] ?]. by eexists _, _.
- intros rect st'. unfold Path_getBounds.
  destruct (_bounds (this st)) as [b|] eqn:Hcached.
  + intros [= <- <-]. by rewrite Hcached.
  + destruct (getBounds TOLERANCE None st) as [b|]; [|done].
    intros [= <- <-]. cbn. by destruct b.
Qed.
End MoreBounds.

Section AnchorsInBounds.
Context {num : Type} `{!Number num} `{!NumberOrder num}.
Variable TOLERANCE : num.
Implicit Types (st : State num) (rect : Rectangle.t num).

(** X10: the rectangle that [getBounds()] computes for a path with a
  segment, no NaN being among the anchors, starts at or before every
  anchor of the path: its [x] is at most the [x] of the anchor and its
  [y] at most the [y] of the anchor. It becomes the cached rectangle.
  (The right and the bottom edge are [x + width] and [y + height], with
  a width and a height that a subtraction has rounded.) *)
Theorem getBounds_starts_before_the_anchors st :
_segments (this st) ≠ [] → _bounds (this st) = None → anchors_not_NaN st →
∃ rect st',
  Path_getBounds TOLERANCE st = Ret rect st'
  ∧ _bounds (this st') = Some rect
  ∧ ∀ r, r ∈ _segments (this st) → starts_before rect (Segment._point (deref st r)).
Proof.
intros Hne Hnone Hnan.
destruct (getBounds_starts_before TOLERANCE None st Hne Hnan) as (rect & Hrect & Hstarts).
unfold Path_getBounds. rewrite Hnone, Hrect.
eexists _, _. split; [reflexivity|]. split; [done|]. by destruct rect.
Qed.
End AnchorsInBounds.

Lemma getBounds_empty_path_and_cache_witness :
  Path_getBounds 0%Z (initialize 0 default_style) = Throw TypeError (initialize 0 default_style)
  ∧ ∃ rect st', Path_getBounds 0%Z (corner_path false) = Ret rect st'.
Proof.
  split.
  - refine (proj1 (proj1 (getBounds_empty_path_and_cache 0%Z (λ _ _, None) (λ _ c, Some c)
                            (λ _ _ _, Point.mk 0 0)%Z (λ _ _ _, Point.mk 0 1)%Z
                            (λ p _, p) (λ _ _, 0%Z) (λ _ _, None)
                            (initialize 0 default_style)) _ _)); reflexivity.
  - refine (proj1 (proj2 (getBounds_empty_path_and_cache 0%Z (λ _ _, None) (λ _ c, Some c)
                            (λ _ _ _, Point.mk 0 0)%Z (λ _ _ _, Point.mk 0 1)%Z
                            (λ p _, p) (λ _ _, 0%Z) (λ _ _, None)
                            (corner_path false))) _).
    intros Hnil. vm_compute in Hnil. discriminate Hnil.
Defined.

Lemma getBounds_starts_before_the_anchors_witness :
  ∃ rect st',
    Path_getBounds 0x1p-17%float square_path = Ret rect st'
    ∧ _bounds (this st') = Some rect
    ∧ ∀ r, r ∈ _segments (this square_path) →
        starts_before rect (Segment._point (deref square_path r)).
Proof.
  apply getBounds_starts_before_the_anchors.
  - intros Hnil. vm_compute in Hnil. discriminate Hnil.
  - reflexivity.
  - intros r Hr. change (r ∈ [0; 1; 2; 3]%nat) in Hr.
    rewrite !elem_of_cons in Hr.
    destruct Hr as [->|[->|[->|[->|Hr]]]]; [split; reflexivity..|].
    by apply elem_of_nil in Hr.
Defined.

(* ------------------------------------------------------------------ *)
(** * More on the cached values *)

Section MoreCaches.
Context {num : Type} `{!Number num}.
Implicit Types (st : State num) (r : ref).

Lemma _changed_GEOMETRY_drops st : caches_dropped (on_this (_changed GEOMETRY) st).
Proof. by repeat split. Qed.

Lemma _add_drops_caches segs index st : caches_dropped (_add segs index st).2.
Proof.
  unfold _add. destruct (_add_attach _ _ _ _). cbn [snd]. apply _changed_GEOMETRY_drops.
Qed.

(** X11: the methods that change the segment list or the closed flag end
  by dropping the cached length, bounds, position, stroke bounds and
  orientation: [_add] always, [removeSegments] when it removes a
  segment, [setClosed] when the flag changes. A [removeSegments] that
  removes nothing and a [setClosed] to the value the flag has leave the
  path as it is, cached values included; [reverse] keeps the cached
  length and rectangles. *)
Theorem geometry_changes_drop_the_caches st :
(∀ segs index, caches_dropped (_add segs index st).2)
∧ (∀ from to, (removeSegments from to st).1 ≠ [] →
     caches_dropped (removeSegments from to st).2)
∧ (∀ from to, (removeSegments from to st).1 = [] → (removeSegments from to st).2 = st)
∧ (∀ closed, closed ≠ _closed (this st) → caches_dropped (setClosed closed st))
∧ (∀ closed, closed = _closed (this st) → setClosed closed st = st)
∧ (_length (this (reverse st)) = _length (this st)
   ∧ _bounds (this (reverse st)) = _bounds (this st)
   ∧ _strokeBounds (this (reverse st)) = _strokeBounds (this st)).
Proof.
split; [|split; [|split; [|split; [|split]]]].
- intros segs index. unfold _add. destruct (_add_attach _ _ _ _). cbn [snd].
  apply _changed_GEOMETRY_drops.
- intros from to. unfold removeSegments. cbv zeta.
  case_bool_decide as Hamount; cbn [fst snd].
  + intros Hne. by apply length_zero_iff_nil in Hamount.
  + intros _. apply _changed_GEOMETRY_drops.
- intros from to. apply removeSegments_nothing.
- intros closed Hne. unfold setClosed. rewrite bool_decide_eq_true_2 by done.
  apply _changed_GEOMETRY_drops.
- intros closed ->. unfold setClosed. by rewrite bool_decide_eq_false_2 by naive_solver.
- by repeat split.
Qed.
End MoreCaches.

Section MoreLength.
Context {num : Type} `{!Number num}.
Variable Curve_getLength : list (Segment.t num) → Curve.t → num.
Implicit Types (st : State num).

(** The loop of [getLength] only writes [_length]. *)
Lemma getLength_loop_frame curves : ∀ st st',
getLength_loop Curve_getLength curves st = Ret () st' →
is_Some (_length (this st)) →
is_Some (_length (this st'))
∧ heap st' = heap st ∧ _segments (this st') = _segments (this st)
∧ _curves (this st') = _curves (this st) ∧ _closed (this st') = _closed (this st).
Proof.
induction curves as [|[c|] curves IH]; intros st st' Hrun Hsome; cbn in Hrun.
- by injection Hrun as <-.
- apply IH in Hrun as (? & ? & ? & ? & ?); [done|]. by cbn.
- done.
Qed.

(** X12: a call of [getLength()] that returns leaves its result in
  [_length], and nothing else of the path or of the segments is touched
  but the curve list, which is built if it was not there. A second call
  returns the same number and changes nothing. With nothing cached, on a
  path whose curve list has no hole, the call returns the sum of the
  lengths of the curves, taken in order from 0. *)
Theorem getLength_caches_its_result st :
(∀ v st', getLength Curve_getLength st = Ret v st' →
   _length (this st') = Some v
   ∧ getLength Curve_getLength st' = Ret v st'
   ∧ heap st' = heap st ∧ _segments (this st') = _segments (this st)
   ∧ _closed (this st') = _closed (this st)
   ∧ (_length (this st) = None → _curves (this st') = Some (getCurves st).1)
   ∧ (is_Some (_length (this st)) → st' = st))
∧ (∀ cs, _length (this st) = None → (getCurves st).1 = Some <$> cs →
     ∃ st', getLength Curve_getLength st
            = Ret (foldl nadd (of_Z 0) (Curve_getLength (heap st) <$> cs)) st').
Proof.
split.
- intros v st'. unfold getLength at 1.
  destruct (_length (this st)) as [l|] eqn:Hcached.
  { intros [= <- <-]. repeat split; try done. by unfold getLength; rewrite Hcached. }
  pose proof (getCurves_frame st) as (Hsegs & Hclosed & Hheap).
  assert (_curves (this (getCurves st).2) = Some (getCurves st).1) as Hcurves.
  { unfold getCurves. by destruct (_curves (this st)) eqn:Hc. }
  destruct (getCurves st) as [curves st1]. cbn [fst snd] in *.
  destruct (getLength_loop Curve_getLength curves
              (on_this (set_length (Some (of_Z 0))) st1)) as [[] st2|e st2] eqn:Hrun;
    [|done].
  cbn [bind]. intros [= <- <-].
  apply getLength_loop_frame in Hrun as ([l Hl] & Hheap2 & Hsegs2 & Hcurves2 & Hclosed2);
    [|by eexists].
  cbn in Hheap2, Hsegs2, Hcurves2, Hclosed2. rewrite Hl. cbn.
  split; [done|]. split; [by unfold getLength; rewrite Hl|].
  split; [congruence|]. split; [congruence|]. split; [congruence|].
  split; [intros _; congruence | by intros [? ?]].
- intros cs Hnone Hcs. destruct (getLength_reported Curve_getLength (λ _ _ t, t) st cs Hcs) as [st' Hrun].
  exists st'. rewrite Hrun. f_equal. unfold reported_length, cumulative_length.
  by rewrite Hnone, firstn_all.
Qed.
End MoreLength.

Lemma geometry_changes_drop_the_caches_witness :
  setClosed false (corner_path false) = corner_path false
  ∧ caches_dropped (setClosed true (corner_path false)).
Proof.
  pose proof (geometry_changes_drop_the_caches (corner_path false))
    as (_ & _ & _ & Hchanged & Hsame & _).
  split; [by apply Hsame | by apply Hchanged].
Defined.

Lemma getLength_caches_its_result_witness :
  ∃ st', getLength chord_length line_path_with_curves = Ret 10%Z st'.
Proof.
  refine (proj2 (getLength_caches_its_result chord_length line_path_with_curves)
            [Curve.create 0 (Some 0%nat) (Some 1%nat)] _ _); reflexivity.
Defined.

(* ------------------------------------------------------------------ *)
(** * More on the curve list *)

Section MoreCurves.
Context {num : Type} `{!Number num}.
Implicit Types (st : State num) (r : ref) (cs : list (option Curve.t)).

(** The first loop of [_add] leaves the path object alone, its count of
    selected segments apart. *)
Lemma _add_attach_frame index segs : ∀ i st,
  let st' := (_add_attach index i segs st).2 in
  _id (this st') = _id (this st) ∧ _closed (this st') = _closed (this st)
  ∧ _curves (this st') = _curves (this st).
Proof.
  induction segs as [|r segs IH]; intros i st; [done|]. cbn [_add_attach].
  assert (let st1 := (_add_attach_one index i r st).2 in
          _id (this st1) = _id (this st) ∧ _closed (this st1) = _closed (this st)
          ∧ _curves (this st1) = _curves (this st)) as Hone.
  { unfold _add_attach_one. destruct (Segment._path (deref st r)); cbn; by case_bool_decide. }
  destruct (_add_attach_one index i r st) as [r' st1]. cbv zeta in Hone. cbn [snd] in Hone.
  pose proof (IH (S i) st1) as Hrest. cbv zeta in Hrest.
  destruct (_add_attach index (S i) segs st1) as [rs st2]. cbv zeta. cbn [snd] in *.
  destruct Hone as (<- & <- & <-). exact Hrest.
Qed.

(** What [_add] makes of the curve list. *)
Lemma _add_curves segs index st :
  let st' := (_add segs index st).2 in
  let segments := _segments (this st') in
  _id (this st') = _id (this st) ∧ _closed (this st') = _closed (this st)
  ∧ _curves (this st')
    = match _curves (this st), default (length (_segments (this st))) index with
      | Some cs, S j =>
          Some (patch_segment1 (j + length segs) (segments !! (j + length segs)%nat)
                  (take j cs
                   ++ Some (Curve.create (_id (this st)) (segments !! j)
                              (segments !! (j + 1)%nat))
                   :: drop j cs))
      | c, _ => c
      end.
Proof.
  cbv zeta. unfold _add.
  pose proof (_add_attach_frame (default (length (_segments (this st))) index) segs 0 st)
    as Hframe. cbv zeta in Hframe.
  destruct (_add_attach _ 0 segs st) as [segs' st1]. cbn [snd] in Hframe.
  destruct Hframe as (Hid & Hclosed & Hcurves).
  set (idx := default (length (_segments (this st))) index).
  set (st2 := if bool_decide (index = None) then _ else _).
  assert (_id (this st2) = _id (this st) ∧ _closed (this st2) = _closed (this st)
          ∧ _curves (this st2) = _curves (this st)) as (Hid2 & Hclosed2 & Hcurves2)
    by (subst st2; by case_bool_decide).
  destruct (_curves (this st)) as [cs|] eqn:Hcs; [|done].
  destruct idx as [|j]; [done|]. cbn. by rewrite Hid2.
Qed.

(** What [setClosed] makes of the path when the flag changes. *)
Lemma setClosed_changed (closed : bool) st :
  _closed (this st) ≠ closed →
  let st' := setClosed closed st in
  let n := length (_segments (this st)) in
  let len := if negb closed && (0 <? n)%nat then (n - 1)%nat else n in
  _segments (this st') = _segments (this st) ∧ _id (this st') = _id (this st)
  ∧ _closed (this st') = closed ∧ heap st' = heap st
  ∧ _curves (this st')
    = (λ cs, if closed
             then match len with
                  | O => resize len None cs
                  | S i => <[i := Some (Curve.create (_id (this st))
                                          (_segments (this st) !! i)
                                          (_segments (this st) !! 0%nat))]>
                             (resize len None cs)
                  end
             else resize len None cs) <$> _curves (this st).
Proof.
  intros Hne. cbv zeta. unfold setClosed. rewrite bool_decide_eq_true_2 by done.
  destruct st as [h [id segs [cs|] cl sel len bd pos sbd cw sty]]; cbn; done.
Qed.

Lemma getCurves_linked st : _curves (this st) = None → curves_linked (getCurves st).2.
Proof.
  intros Hnone curves. unfold getCurves. rewrite Hnone. cbn. intros [= <-].
  set (segs := _segments (this st)). set (n := length segs).
  set (len := if negb (_closed (this st)) && (0 <? n)%nat then (n - 1)%nat else n).
  assert (len = curveCount (_closed (this st)) n ∧ (len ≤ n)%nat) as [Hlen Hle].
  { subst len. unfold curveCount. destruct (_closed (this st)); cbn [negb andb]; [lia|].
    destruct (Nat.ltb_spec 0 n); lia. }
  rewrite length_fmap, length_seq. split; [done|].
  intros i Hi. change (i < len)%nat in Hi.
  rewrite list_lookup_fmap, lookup_seq_lt by done. cbn. do 3 f_equal.
  destruct (decide (i + 1 < n)%nat) as [Hlt|Hge].
  + rewrite Nat.mod_small by done.
    by destruct (lookup_lt_is_Some_2 segs (i + 1) Hlt) as [s ->].
  + assert (i + 1 = n)%nat as -> by lia. rewrite Nat.Div0.mod_same.
    rewrite (lookup_ge_None_2 segs n) by (unfold n; lia). done.
Qed.

Lemma setClosed_linked (closed : bool) st :
  curves_linked st → curves_linked (setClosed closed st).
Proof.
  intros Hlinked curves.
  destruct (decide (_closed (this st) = closed)) as [Hsame|Hne].
  { unfold setClosed. rewrite bool_decide_eq_false_2 by naive_solver. apply Hlinked. }
  destruct (setClosed_changed closed st Hne) as (-> & -> & -> & _ & ->). cbv zeta.
  destruct (_curves (this st)) as [cs|] eqn:Hcs; [|done].
  destruct (Hlinked cs Hcs) as [Hlen Hlink]. cbv zeta in Hlen, Hlink.
  set (segs := _segments (this st)) in *. set (n := length segs) in *.
  cbn [fmap option_fmap option_map]. intros [= <-]. destruct closed; cbn [negb andb].
  + (* closing an open path *)
    assert (_closed (this st) = false) as Hopen by (by destruct (_closed (this st))).
    rewrite Hopen in Hlen. unfold curveCount in Hlen |- *.
    destruct n as [|k] eqn:Hn.
    * rewrite length_resize. split; [done|]. intros i Hi. lia.
    * rewrite length_insert, length_resize. split; [done|]. intros i Hi.
      destruct (decide (i = k)) as [->|Hik].
      -- rewrite list_lookup_insert_eq by (rewrite length_resize; lia).
         do 3 f_equal. by rewrite Nat.add_1_r, Nat.Div0.mod_same.
      -- rewrite list_lookup_insert_ne by done.
         rewrite lookup_resize by (cbn in *; lia). rewrite Hlink by (cbn in *; lia).
         rewrite !Nat.mod_small by lia. done.
  + (* opening a closed path *)
    assert (_closed (this st) = true) as Hclosed by (by destruct (_closed (this st))).
    rewrite Hclosed in Hlen. unfold curveCount in Hlen |- *.
    assert ((if (0 <? n)%nat then (n - 1)%nat else n) = (n - 1)%nat) as ->
      by (destruct (Nat.ltb_spec 0 n); lia).
    rewrite length_resize. split; [done|]. intros i Hi.
    rewrite lookup_resize by lia. rewrite Hlink by lia.
    rewrite !Nat.mod_small by lia. done.
Qed.

(** X13: the curve list that [getCurves] builds has the length called
    for and no hole, and its curve [i] joins segment [i] to segment
    [i + 1], the last curve of a closed path joining the last segment to
    the first. [setClosed] keeps a curve list of that form in that form. *)
Theorem getCurves_links_neighbours st :
  (_curves (this st) = None → curves_linked (getCurves st).2)
  ∧ (∀ closed, curves_linked st → curves_linked (setClosed closed st)).
Proof.
  split; [apply getCurves_linked | intros closed; apply setClosed_linked].
Qed.

(** An element spliced into a list: what is found at each index. *)
Lemma lookup_spliced {A} (l : list A) (x : A) (k : nat) :
  (k ≤ length l)%nat →
  (∀ i, (i < k)%nat → (take k l ++ x :: drop k l) !! i = l !! i)
  ∧ (take k l ++ x :: drop k l) !! k = Some x
  ∧ (∀ i, (k < i)%nat → (take k l ++ x :: drop k l) !! i = l !! (i - 1)%nat).
Proof.
  intros Hk. assert (length (take k l) = k) as Htake by (rewrite length_take; lia).
  split; [|split].
  - intros i Hi. rewrite lookup_app_l by lia. by rewrite lookup_take_lt.
  - rewrite lookup_app_r by lia. by rewrite Htake, Nat.sub_diag.
  - intros i Hi. rewrite lookup_app_r by lia. rewrite Htake.
    destruct (i - k)%nat as [|d] eqn:Hd; [lia|].
    change ((x :: drop k l) !! S d) with (drop k l !! d).
    rewrite lookup_drop. f_equal. lia.
Qed.

(** [if (curve = curves[k]) curve._segment1 = v] touches no other curve. *)
Lemma patch_segment1_lookup (k : nat) (v : option ref) cs :
  length (patch_segment1 k v cs) = length cs
  ∧ (∀ i, i ≠ k → patch_segment1 k v cs !! i = cs !! i)
  ∧ (∀ c, cs !! k = Some (Some c) →
       patch_segment1 k v cs !! k = Some (Some (Curve.with_segment1 v c))).
Proof.
  unfold patch_segment1. destruct (cs !! k) as [[c|]|] eqn:Hk; try done.
  rewrite length_insert. split; [done|]. split.
  - intros i Hi. by rewrite list_lookup_insert_ne.
  - intros c' [= <-]. rewrite list_lookup_insert_eq; [done|]. by eapply lookup_lt_Some.
Qed.

(** X14: one segment added at the end of the list, or inserted at an
    index from 1 to the number of segments, keeps a curve list of the
    form that [getCurves] builds in that form: one curve is spliced in
    and the curve after it is attached to the new segment. (A path without
    segments must be open for this.) It is the case of [add(segment)],
    [insert(index, segment)] and of [lineTo], [cubicCurveTo] and the like,
    which all add one segment. *)
Theorem one_segment_added_keeps_curves_linked (r : ref) (index : option nat) st :
  curves_linked st →
  match index with
  | None => _closed (this st) = false ∨ _segments (this st) ≠ []
  | Some k => (1 ≤ k ≤ length (_segments (this st)))%nat
  end →
  curves_linked (_add [r] index st).2.
Proof.
  intros Hlinked Hindex curves.
  destruct (_add_segments [r] index st) as [Hone Hsegs].
  destruct (_add_curves [r] index st) as (Hid & Hclosed & Hcurves).
  cbv zeta in Hcurves. rewrite Hid, Hclosed, Hcurves. clear Hid Hclosed Hcurves.
  set (L := _segments (this st)) in *. set (n := length L) in *.
  set (idx := default n index).
  destruct (_add [r] index st).1 as [|r' [|? ?]] eqn:Hadded; try done. clear Hone.
  assert (idx ≤ n)%nat as Hidx by (subst idx; destruct index; cbn; lia).
  assert (_segments (this (_add [r] index st).2) = take idx L ++ r' :: drop idx L) as HL'.
  { rewrite Hsegs. subst idx. destruct index as [k|]; cbn; [done|].
    by rewrite take_ge, drop_ge by (unfold n; lia). }
  rewrite HL'. clear Hsegs HL'.
  set (L' := take idx L ++ r' :: drop idx L).
  assert (length L' = S n) as HnL'.
  { subst L'. rewrite List.length_app, length_take. cbn. rewrite length_drop. lia. }
  destruct (lookup_spliced L r' idx Hidx) as (HL'lt & HL'eq & HL'gt). fold L' in HL'lt, HL'eq, HL'gt.
  destruct (_curves (this st)) as [cs|] eqn:Hcs; [|done].
  destruct (Hlinked cs Hcs) as [Hlen Hlink]. cbv zeta in Hlen, Hlink.
  fold L in Hlen, Hlink. fold n in Hlen, Hlink. cbv zeta. rewrite HnL'.
  destruct idx as [|j] eqn:Hj.
  { (* the first segment of an open path: no curve yet *)
    intros [= <-].
    assert (n = 0%nat ∧ _closed (this st) = false) as [Hn Hopen].
    { subst idx. destruct index as [k|]; cbn in Hj; [lia|].
      split; [done|]. destruct Hindex as [?|Hne]; [done|].
      by destruct L. }
    rewrite Hopen, Hn in *. cbn in Hlen. split; [done|]. intros i Hi. lia. }
  assert (length cs = n ∨ length cs = (n - 1)%nat) as Hcount
    by (rewrite Hlen; unfold curveCount; destruct (_closed (this st)); lia).
  set (new := Some (Curve.create (_id (this st)) (L' !! j) (L' !! (j + 1)%nat))).
  set (cs1 := take j cs ++ new :: drop j cs).
  assert (length cs1 = S (length cs)) as Hlen1.
  { subst cs1. rewrite List.length_app, length_take. cbn. rewrite length_drop. lia. }
  destruct (lookup_spliced cs new j ltac:(lia)) as (Hcs1lt & Hcs1eq & Hcs1gt).
  fold cs1 in Hcs1lt, Hcs1eq, Hcs1gt.
  destruct (patch_segment1_lookup (j + 1) (L' !! (j + 1)%nat) cs1) as (Hpatch & Hpne & Hpeq).
  intros [= <-]. rewrite Hpatch, Hlen1. split.
  { rewrite Hlen. unfold curveCount. destruct (_closed (this st)); lia. }
  intros i Hi.
  assert (∀ k, (k < n)%nat → L !! (k mod n)%nat = L !! k) as Hsmall
    by (intros k Hk; by rewrite Nat.mod_small).
  assert (L !! (n mod n)%nat = L' !! 0%nat) as Hwrap
    by (rewrite Nat.Div0.mod_same, HL'lt by lia; done).
  assert (∀ k, (k < S n)%nat → L' !! (k mod S n)%nat = L' !! k) as Hsmall'
    by (intros k Hk; by rewrite Nat.mod_small).
  assert (L' !! (S n mod S n)%nat = L' !! 0%nat) as Hwrap'
    by (by rewrite Nat.Div0.mod_same).
  destruct (decide (i = j + 1)%nat) as [->|Hne].
  - (* the curve after the new one, attached to the new segment *)
    rewrite (Hpeq (Curve.create (_id (this st)) (L !! j) (L !! ((j + 1) mod n)%nat))).
    2: { rewrite Hcs1gt by lia. replace (j + 1 - 1)%nat with j by lia. apply Hlink. lia. }
    do 2 f_equal. unfold Curve.with_segment1. cbn [Curve._path Curve._segment2]. f_equal.
    destruct (decide (j + 1 = n)%nat) as [Hend|Hmid].
    + rewrite Hend, Hwrap. replace (n + 1)%nat with (S n) by lia. by rewrite Hwrap'.
    + rewrite Hsmall, Hsmall', HL'gt by lia. f_equal. lia.
  - rewrite Hpne by done.
    destruct (decide (i < j)%nat) as [Hlt|Hge].
    + (* before the new curve *)
      rewrite Hcs1lt, Hlink by lia.
      rewrite Hsmall, Hsmall', !HL'lt by lia. done.
    + destruct (decide (i = j)) as [->|Hgt].
      * (* the new curve *)
        rewrite Hcs1eq. subst new. by rewrite Hsmall' by lia.
      * (* after the two *)
        rewrite Hcs1gt, Hlink by lia. rewrite (HL'gt i) by lia.
        replace (i - 1 + 1)%nat with i by lia.
        destruct (decide (i = n)) as [->|Hin].
        -- rewrite Hwrap. replace (n + 1)%nat with (S n) by lia. by rewrite Hwrap'.
        -- rewrite Hsmall, Hsmall', HL'gt by lia. do 4 f_equal. lia.
Qed.
End MoreCurves.

Lemma getCurves_links_neighbours_witness :
  curves_linked (setClosed true corner_path_with_curves).
Proof.
  apply (getCurves_links_neighbours corner_path_with_curves).
  apply (getCurves_linked (corner_path false)). reflexivity.
Defined.

Lemma one_segment_added_keeps_curves_linked_witness :
  curves_linked (_add [1%nat] (Some 2%nat) corner_path_with_curves).2.
Proof.
  apply (one_segment_added_keeps_curves_linked 1%nat (Some 2%nat) corner_path_with_curves).
  - apply (getCurves_linked (corner_path false)). reflexivity.
  - vm_compute. lia.
Defined.

(* ------------------------------------------------------------------ *)
(** * The count of selected segments *)

Section MoreSelection.
Context {num : Type} `{!Number num}.
Implicit Types (st : State num) (r q : ref) (h : list (Segment.t num)) (rs : list ref).

Abbreviation sel h r := (Segment._selectionState (h !!! r)).

Lemma selected_among_cons h r rs :
  selected_among h (r :: rs)
  = ((if bool_decide (sel h r ≠ 0%Z) then 1 else 0) + selected_among h rs)%Z.
Proof.
  unfold selected_among. rewrite filter_cons.
  case_bool_decide; destruct (decide _); try done; cbn [length]; lia.
Qed.

Lemma selected_among_app h rs1 rs2 :
  selected_among h (rs1 ++ rs2) = (selected_among h rs1 + selected_among h rs2)%Z.
Proof. unfold selected_among. rewrite list.filter_app, List.length_app. lia. Qed.

Lemma selected_among_ext h h' rs :
  (∀ r, r ∈ rs → sel h' r = sel h r) → selected_among h' rs = selected_among h rs.
Proof.
  induction rs as [|r rs IH]; intros Hsame; [done|].
  rewrite !selected_among_cons, IH, Hsame; [done|apply list_elem_of_here|].
  intros q Hq. apply Hsame. by apply list_elem_of_further.
Qed.

Lemma selected_among_bounds h rs :
  (0 ≤ selected_among h rs ≤ Z.of_nat (length rs))%Z.
Proof. unfold selected_among. pose proof (list.length_filter (λ r, sel h r ≠ 0%Z) rs). lia. Qed.

Lemma selected_among_cons_selected h r rs :
  sel h r ≠ 0%Z → selected_among h (r :: rs) = (1 + selected_among h rs)%Z.
Proof. intros Hr. by rewrite selected_among_cons, bool_decide_eq_true_2. Qed.

Lemma selected_among_cons_plain h r rs :
  sel h r = 0%Z → selected_among h (r :: rs) = selected_among h rs.
Proof.
  intros Hr. rewrite selected_among_cons, bool_decide_eq_false_2; [lia|]. by intros [].
Qed.

(** All of them, one of them. *)
Lemma selected_among_all h rs :
  selected_among h rs = Z.of_nat (length rs) ↔ ∀ r, r ∈ rs → sel h r ≠ 0%Z.
Proof.
  induction rs as [|r rs IH]; [split; [intros _ r Hr; by apply elem_of_nil in Hr|done]|].
  pose proof (selected_among_bounds h rs) as Hb. cbn [length].
  destruct (decide (sel h r = 0%Z)) as [Hr|Hr].
  - rewrite selected_among_cons_plain by done. split; [lia|].
    intros Hall. destruct (Hall r); [apply list_elem_of_here|done].
  - rewrite selected_among_cons_selected by done. split.
    + intros Hall q Hq. apply elem_of_cons in Hq as [->|Hq]; [done|]. apply IH; [lia|done].
    + intros Hall. assert (selected_among h rs = Z.of_nat (length rs)) as ->; [|lia].
      apply IH. intros q Hq. apply Hall. by apply list_elem_of_further.
Qed.

Lemma selected_among_some h rs :
  (0 < selected_among h rs)%Z ↔ ∃ r, r ∈ rs ∧ sel h r ≠ 0%Z.
Proof.
  induction rs as [|r rs IH].
  { split; [unfold selected_among; cbn; lia|]. intros (r & Hr & _). by apply elem_of_nil in Hr. }
  pose proof (selected_among_bounds h rs) as Hb.
  destruct (decide (sel h r = 0%Z)) as [Hr|Hr].
  - rewrite selected_among_cons_plain by done. split.
    + intros Hpos. destruct (proj1 IH Hpos) as (q & Hq & Hsel).
      exists q. split; [by apply list_elem_of_further|done].
    + intros (q & Hq & Hsel). apply elem_of_cons in Hq as [->|Hq]; [done|].
      apply IH. by exists q.
  - rewrite selected_among_cons_selected by done. split; [|lia].
    intros _. exists r. split; [apply list_elem_of_here|done].
Qed.

(** ** [_add] counts the selected segments it adds *)

Lemma sel_alter_keep (f : Segment.t num → Segment.t num) r h q :
  (∀ s, Segment._selectionState (f s) = Segment._selectionState s) →
  sel (alter f r h) q = sel h q.
Proof.
  intros Hf. rewrite list_lookup_total_alter. case_decide as Hq; [|done].
  destruct Hq as [-> _]. apply Hf.
Qed.

Lemma _add_attach_one_selection index i r st :
  (r < length (heap st))%nat →
  let r' := (_add_attach_one index i r st).1 in
  let st' := (_add_attach_one index i r st).2 in
  (r' < length (heap st'))%nat ∧ (length (heap st) ≤ length (heap st'))%nat
  ∧ (∀ q, (q < length (heap st))%nat → sel (heap st') q = sel (heap st) q)
  ∧ _selectedSegmentCount (this st')
    = (_selectedSegmentCount (this st)
       + if bool_decide (sel (heap st') r' ≠ 0%Z) then 1 else 0)%Z
  ∧ _segments (this st') = _segments (this st).
Proof.
  intros Hr. cbv zeta. unfold _add_attach_one.
  set (attached := λ r0 st0, update r0 (Segment.with_index (Some (index + i)%nat))
                               (update r0 (Segment.with_path (Some (_id (this st0)))) st0)).
  assert (∀ r0 st0 q, sel (heap (attached r0 st0)) q = sel (heap st0) q) as Hkeep.
  { intros r0 st0 q. subst attached. cbn. by rewrite !sel_alter_keep. }
  assert (∀ r0 st0, length (heap (attached r0 st0)) = length (heap st0)) as Hlength.
  { intros r0 st0. subst attached. cbn. by rewrite !length_alter. }
  assert (∀ r0 st0,
            let st1 := if bool_decide (Segment._selectionState (deref (attached r0 st0) r0) ≠ 0%Z)
                       then _updateSelection r0 (attached r0 st0) else attached r0 st0 in
            heap st1 = heap (attached r0 st0)
            ∧ _segments (this st1) = _segments (this st0)
            ∧ _selectedSegmentCount (this st1)
              = (_selectedSegmentCount (this st0)
                 + if bool_decide (sel (heap (attached r0 st0)) r0 ≠ 0%Z) then 1 else 0)%Z)
    as Hcount.
  { intros r0 st0. cbv zeta. unfold deref.
    destruct (bool_decide (sel (heap (attached r0 st0)) r0 ≠ 0%Z)) eqn:Hsel.
    - unfold _updateSelection, deref. rewrite Hsel. by subst attached.
    - subst attached. cbn. split; [done|]. split; [done|lia]. }
  destruct (Segment._path (deref st r)) as [owner|].
  - (* the segment belongs to a path: a copy is added *)
    unfold alloc. fold (attached (length (heap st)) (on_heap (λ h, h ++ [Segment.clone (deref st r)]) st)).
    set (st0 := on_heap _ st).
    destruct (Hcount (length (heap st)) st0) as (Hheap & Hsegs & Hsel). cbv zeta in *.
    cbn [fst snd]. rewrite Hheap, Hlength, Hsegs, Hsel. subst st0. cbn [heap on_heap this].
    rewrite List.length_app. cbn [length]. split; [lia|]. split; [lia|]. split; [|done].
    intros q Hq. rewrite Hkeep. cbn. by rewrite lookup_total_app_l.
  - fold (attached r st).
    destruct (Hcount r st) as (Hheap & Hsegs & Hsel). cbv zeta in *.
    cbn [fst snd]. rewrite Hheap, Hlength, Hsegs, Hsel. split; [lia|]. split; [lia|].
    split; [|done]. intros q Hq. apply Hkeep.
Qed.

Lemma _add_attach_selection index segs : ∀ i st,
  Forall (λ r, r < length (heap st))%nat segs →
  let segs' := (_add_attach index i segs st).1 in
  let st' := (_add_attach index i segs st).2 in
  (length (heap st) ≤ length (heap st'))%nat
  ∧ (∀ q, (q < length (heap st))%nat → sel (heap st') q = sel (heap st) q)
  ∧ _selectedSegmentCount (this st')
    = (_selectedSegmentCount (this st) + selected_among (heap st') segs')%Z.
Proof.
  induction segs as [|r segs IH]; intros i st Hvalid.
  { cbn. unfold selected_among. cbn. split; [done|]. split; [done|lia]. }
  inversion_clear Hvalid as [|? ? Hr Hrest]. cbn [_add_attach].
  destruct (_add_attach_one_selection index i r st Hr) as (Hr' & Hgrow & Hkeep & Hcount & _).
  destruct (_add_attach_one index i r st) as [r' st1]. cbv zeta in *. cbn [fst snd] in *.
  destruct (IH (S i) st1) as (Hgrow' & Hkeep' & Hcount').
  { eapply List.Forall_impl; [|exact Hrest]. cbn. lia. }
  destruct (_add_attach index (S i) segs st1) as [rs st2]. cbn [fst snd] in *.
  split; [lia|]. split.
  - intros q Hq. rewrite Hkeep' by lia. by apply Hkeep.
  - rewrite Hcount', Hcount, selected_among_cons, (Hkeep' r') by done. lia.
Qed.

Lemma sel_reindex_loop rs : ∀ i h q, sel (reindex_loop i rs h) q = sel h q.
Proof.
  induction rs as [|r rs IH]; intros i h q; [done|]. cbn [reindex_loop].
  by rewrite IH, sel_alter_keep.
Qed.

(** The selection states and the count that [_add] ends with are those
    that its first loop leaves. *)
Lemma _add_after_attach segs index st :
  let attach := _add_attach (default (length (_segments (this st))) index) 0 segs st in
  (_add segs index st).1 = attach.1
  ∧ _selectedSegmentCount (this (_add segs index st).2) = _selectedSegmentCount (this attach.2)
  ∧ ∀ q, sel (heap (_add segs index st).2) q = sel (heap attach.2) q.
Proof.
  cbv zeta. unfold _add.
  destruct (_add_attach _ 0 segs st) as [segs' st1]. cbn [fst snd].
  set (st2 := if bool_decide (index = None) then _ else _).
  assert (_selectedSegmentCount (this st2) = _selectedSegmentCount (this st1)
          ∧ ∀ q, sel (heap st2) q = sel (heap st1) q) as [Hcount Hsel].
  { subst st2. case_bool_decide; [done|]. split; [done|]. intros q. unfold reindex. cbn.
    apply sel_reindex_loop. }
  split; [done|].
  destruct (_curves (this st)), (default _ _); cbn; by rewrite ?Hcount.
Qed.

Lemma _add_selection segs index st :
  Forall (λ r, r < length (heap st))%nat segs →
  Forall (λ r, r < length (heap st))%nat (_segments (this st)) →
  selection_counted st → selection_counted (_add segs index st).2.
Proof.
  intros Hvalid Hlist Hcounted. unfold selection_counted in *.
  destruct (_add_after_attach segs index st) as (Hadded & Hcount & Hsel). cbv zeta in *.
  destruct (_add_segments segs index st) as [_ Hsegs].
  destruct (_add_attach_selection (default (length (_segments (this st))) index) segs 0 st Hvalid)
    as (_ & Hkeep & Hcount'). cbv zeta in *.
  rewrite Hcount, Hcount', Hcounted, <- Hadded.
  set (L := _segments (this st)) in *. set (new := (_add segs index st).1) in *.
  set (h1 := heap (_add_attach _ 0 segs st).2) in *.
  assert (selected_among (heap st) L = selected_among h1 L) as ->.
  { symmetry. apply selected_among_ext. intros r Hr. apply Hkeep.
    by eapply (proj1 (Forall_forall _ _) Hlist), list_elem_of_In. }
  rewrite (selected_among_ext h1 (heap (_add segs index st).2)) by (intros; apply Hsel).
  rewrite Hsegs. destruct index as [k|].
  - rewrite !selected_among_app. rewrite <- (take_drop k L) at 1.
    rewrite selected_among_app. lia.
  - by rewrite selected_among_app.
Qed.

(** ** [removeSegments] discounts the selected segments it removes *)

Lemma removeSegments_deselect_count removed : ∀ st,
  NoDup removed → Forall (λ r, r < length (heap st))%nat removed →
  let st' := removeSegments_deselect removed st in
  _selectedSegmentCount (this st')
  = (_selectedSegmentCount (this st) - selected_among (heap st) removed)%Z
  ∧ (∀ q, q ∉ removed → sel (heap st') q = sel (heap st) q)
  ∧ length (heap st') = length (heap st).
Proof.
  induction removed as [|r removed IH]; intros st Hnodup Hvalid.
  { cbn. unfold selected_among. cbn. split; [lia|done]. }
  apply list.NoDup_cons in Hnodup as [Hnotin Hnodup].
  inversion_clear Hvalid as [|? ? Hr Hrest]. cbv zeta. cbn [removeSegments_deselect].
  set (st1 := if bool_decide (Segment._selectionState (deref st r) ≠ 0%Z) then _ else st).
  assert (length (heap st1) = length (heap st)
          ∧ (∀ q, q ≠ r → sel (heap st1) q = sel (heap st) q)
          ∧ _selectedSegmentCount (this st1)
            = (_selectedSegmentCount (this st)
               - if bool_decide (sel (heap st) r ≠ 0%Z) then 1 else 0)%Z)
    as (Hlength & Hothers & Hcount).
  { subst st1. unfold deref. case_bool_decide as Hsel; [|split; [done|split; [done|lia]]].
    unfold _updateSelection, update, deref. cbn.
    rewrite length_alter. split; [done|]. split.
    - intros q Hq. by rewrite list_lookup_total_alter_ne.
    - rewrite list_lookup_total_alter_eq by done. cbn.
      rewrite bool_decide_eq_false_2 by (by intros []). lia. }
  destruct (IH st1 Hnodup) as (Hcount' & Hkeep & Hlength').
  { rewrite Hlength. exact Hrest. }
  cbv zeta in *. rewrite Hcount', Hcount, Hlength', Hlength.
  rewrite (selected_among_ext (heap st) (heap st1) removed).
  2: { intros q Hq. apply Hothers. by intros ->. }
  split; [rewrite selected_among_cons; lia|]. split; [|done].
  intros q Hq. apply not_elem_of_cons in Hq as [Hne Hq].
  rewrite Hkeep by done. by apply Hothers.
Qed.

Lemma removeSegments_selection from to st :
  NoDup (_segments (this st)) →
  Forall (λ r, r < length (heap st))%nat (_segments (this st)) →
  selection_counted st → selection_counted (removeSegments from to st).2.
Proof.
  intros Hnodup Hlist Hcounted.
  destruct ((removeSegments from to st).1) as [|r0 removed0] eqn:Hremoved.
  { by rewrite removeSegments_nothing. }
  pose proof (removeSegments_segments from to st) as Hlists. cbv zeta in Hlists.
  rewrite Hremoved in Hlists. destruct Hlists as [Hremoved' Hkept].
  unfold selection_counted in *. rewrite Hkept. clear Hkept.
  revert Hremoved Hremoved'. unfold removeSegments. cbv zeta.
  set (f := default 0%nat from). set (count := Z.to_nat _).
  set (L := _segments (this st)) in *.
  case_bool_decide as Hamount; cbn [fst snd].
  { intros Hsome. by rewrite Hsome in Hamount. }
  intros _ _.
  assert (L = take f L ++ take count (drop f L) ++ drop (f + count) L) as HL.
  { by rewrite <- drop_drop, !take_drop. }
  assert (NoDup (take count (drop f L)) ∧ ∀ q, q ∈ take f L ++ drop (f + count) L →
                                             q ∉ take count (drop f L)) as [Hnd Hapart].
  { rewrite HL in Hnodup. apply list.NoDup_app in Hnodup as (_ & Hsep1 & Hnodup).
    apply list.NoDup_app in Hnodup as (Hnd & Hsep2 & _). split; [done|].
    intros q Hq Hq'. apply elem_of_app in Hq as [Hq|Hq].
    - apply (Hsep1 q Hq). apply elem_of_app. by left.
    - by apply (Hsep2 q Hq'). }
  assert (Forall (λ r, r < length (heap st))%nat (take count (drop f L))) as Hvalid.
  { apply Forall_take, Forall_drop, Hlist. }
  pose proof (removeSegments_deselect_count (take count (drop f L))
                (on_this (set_segments (take f L ++ drop (f + count) L)) st) Hnd Hvalid)
    as (Hcount & Hkeep & _).
  set (st1 := removeSegments_deselect _ _) in *. cbv zeta in Hcount.
  cbn [this heap on_this set_segments _selectedSegmentCount] in Hcount, Hkeep.
  assert (∀ stx : State num,
            _selectedSegmentCount (this stx) = _selectedSegmentCount (this st1) →
            heap stx = heap (reindex f st1) →
            _selectedSegmentCount (this stx)
            = selected_among (heap stx) (take f L ++ drop (f + count) L)) as Hdone.
  { intros stx -> ->. rewrite Hcount, Hcounted.
    rewrite (selected_among_ext (heap st) (heap (reindex f st1))).
    2: { intros q Hq. unfold reindex. cbn [heap on_heap]. rewrite sel_reindex_loop.
         apply Hkeep. by apply Hapart. }
    rewrite HL at 1. rewrite !selected_among_app. lia. }
  apply Hdone; by destruct (_curves (this st)).
Qed.

(** ** Programs of mutations *)

Lemma segments_attached_valid st :
  segments_attached st → Forall (λ r, r < length (heap st))%nat (_segments (this st)).
Proof.
  intros [_ Hatt]. apply Forall_lookup. intros k r Hr.
  destruct (Hatt k r Hr) as (s & Hs & _). by eapply lookup_lt_Some.
Qed.

Lemma mutate_selection (m : Mutation) st :
  segments_attached st → mutation_in_range m st →
  selection_counted st → selection_counted (mutate m st).
Proof.
  intros Hatt Hm Hcounted. pose proof (segments_attached_valid st Hatt) as Hvalid.
  destruct m as [point handleIn handleOut|segs|index segs|from to]; cbn in *.
  - unfold selection_counted in *. cbn. rewrite Hcounted. symmetry.
    apply selected_among_ext. intros r Hr. rewrite lookup_total_app_l; [done|].
    by eapply (proj1 (Forall_forall _ _) Hvalid), list_elem_of_In.
  - by apply _add_selection.
  - destruct Hm as [_ Hsegs]. by apply _add_selection.
  - apply removeSegments_selection; [apply Hatt|done|done].
Qed.

(** X15: [_selectedSegmentCount] counts the selected segments of the
    path. On a path whose segments are attached and counted in this way,
    any program of segment constructions, [addSegments], [insertSegments]
    and [removeSegments] calls with arguments in range leaves the count
    equal to the number of segments of the list whose selection state is
    not 0: [_add] counts the selected segments it attaches (a copy made of
    a segment that belongs to a path is not selected), [removeSegments]
    deselects and discounts the ones it removes. *)
Theorem mutations_keep_selection_counted (ms : list Mutation) : ∀ st,
  segments_attached st → selection_counted st → mutations_in_range ms st →
  selection_counted (foldl (λ st m, mutate m st) st ms).
Proof.
  induction ms as [|m ms IH]; intros st Hatt Hcounted Hms; [done|].
  destruct Hms as [Hm Hms]. cbn. apply IH; [|by apply mutate_selection|done].
  by apply mutate_attached.
Qed.
End MoreSelection.

Section MoreSetSelected.
Context {num : Type} `{!Number num}.
Variable SelectionState_POINT : Z.
Implicit Types (st : State num) (r q : ref) (h : list (Segment.t num)) (rs : list ref).

Lemma setSelected_loop (c : Z) rs : ∀ h q,
  Segment._selectionState (foldl (λ h r, alter (Segment.with_selectionState c) r h) h rs !!! q)
  = if decide (q ∈ rs ∧ q < length h)%nat then c else Segment._selectionState (h !!! q).
Proof.
  induction rs as [|r rs IH]; intros h q.
  { cbn. case_decide as Hq; [|done]. destruct Hq as [Hq _]. by apply elem_of_nil in Hq. }
  cbn [foldl]. rewrite IH, length_alter, list_lookup_total_alter.
  destruct (decide (q ∈ rs ∧ q < length h)%nat) as [[Hin Hlt]|Hnot].
  { rewrite decide_True; [done|]. split; [by apply list_elem_of_further|done]. }
  destruct (decide (r = q ∧ r < length h)%nat) as [[-> Hlt]|Hnot'].
  { rewrite decide_True; [done|]. split; [apply list_elem_of_here|done]. }
  rewrite decide_False; [done|]. intros [Hin Hlt].
  apply elem_of_cons in Hin as [->|Hin]; [by apply Hnot'|by apply Hnot].
Qed.

(** X16: [setSelected(selected)] selects or deselects every segment of
    the path and sets the count to the number of segments, or to 0: the
    count again counts the selected segments, whatever it held before.
    When the count counts the selected segments, [isSelected()] says that
    some segment of the path is selected and [isFullySelected()] that all
    are, which a path without segments always is. *)
Theorem setSelected_and_what_the_count_means st :
  SelectionState_POINT ≠ 0%Z →
  Forall (λ r, r < length (heap st))%nat (_segments (this st)) →
  (∀ selected,
     let st' := setSelected SelectionState_POINT selected st in
     selection_counted st'
     ∧ _segments (this st') = _segments (this st)
     ∧ (∀ r, r ∈ _segments (this st) →
          Segment._selectionState (deref st' r)
          = if selected then SelectionState_POINT else 0%Z)
     ∧ isSelected st' = selected && negb (bool_decide (_segments (this st) = []))
     ∧ isFullySelected st' = selected || bool_decide (_segments (this st) = []))
  ∧ (selection_counted st →
     (isSelected st = true
      ↔ ∃ r, r ∈ _segments (this st) ∧ Segment._selectionState (deref st r) ≠ 0%Z)
     ∧ (isFullySelected st = true
        ↔ ∀ r, r ∈ _segments (this st) → Segment._selectionState (deref st r) ≠ 0%Z)).
Proof.
  intros Hpoint Hvalid. split.
  - intros selected st'. subst st'.
    set (L := _segments (this st)) in *.
    assert (∀ r, r ∈ L →
              Segment._selectionState (deref (setSelected SelectionState_POINT selected st) r)
              = if selected then SelectionState_POINT else 0%Z) as Hset.
    { intros r Hr. unfold setSelected, deref. cbn. rewrite setSelected_loop.
      rewrite decide_True; [done|]. split; [done|].
      by eapply (proj1 (Forall_forall _ _) Hvalid), list_elem_of_In. }
    assert (selected_among (heap (setSelected SelectionState_POINT selected st)) L
            = if selected then Z.of_nat (length L) else 0%Z) as Hamong.
    { pose proof Hset as Hset'. unfold deref in Hset'. destruct selected.
      - apply selected_among_all. intros r Hr. by rewrite (Hset' r Hr).
      - pose proof (selected_among_bounds (heap (setSelected SelectionState_POINT false st)) L).
        destruct (decide (0 < selected_among
                               (heap (setSelected SelectionState_POINT false st)) L)%Z)
          as [Hpos|]; [|lia].
        apply selected_among_some in Hpos as (r & Hr & Hsel). by rewrite (Hset' r Hr) in Hsel. }
    split.
    { unfold selection_counted.
      change (_segments (this (setSelected SelectionState_POINT selected st))) with L.
      rewrite Hamong. by destruct selected. }
    split; [done|]. split; [done|].
    unfold isSelected, isFullySelected. cbn. fold L.
    destruct selected, L as [|r L']; cbn; try done.
    split; [apply Z.ltb_lt; lia | apply Z.eqb_refl].
  - intros Hcounted. unfold isSelected, isFullySelected, deref. rewrite Hcounted. split.
    + rewrite Z.ltb_lt. apply selected_among_some.
    + rewrite Z.eqb_eq. apply selected_among_all.
Qed.

(** ** [setSegments] *)

Lemma setSelected_frame (selected : bool) st :
  let st' := setSelected SelectionState_POINT selected st in
  _segments (this st') = _segments (this st) ∧ _id (this st') = _id (this st)
  ∧ length (heap st') = length (heap st)
  ∧ attachment (heap st') = attachment (heap st).
Proof.
  cbv zeta. unfold setSelected. cbn. repeat split.
  - generalize (heap st). induction (_segments (this st)) as [|r rs IH]; intros h; [done|].
    cbn. by rewrite IH, length_alter.
  - generalize (heap st). induction (_segments (this st)) as [|r rs IH]; intros h; [done|].
    cbn. rewrite IH. unfold attachment.
    rewrite (list_fmap_alter _ _ id); [by apply list_alter_id|].
    apply Forall_lookup. by intros ? [].
Qed.

(** X17: [setSegments] replaces the segment list. Handed the path's own
    segment array, it finds it empty once it has emptied the list, and
    the path ends without segments. Handed another array of segment
    objects, on a path whose segments are attached, it leaves a path with
    as many segments as the array holds, attached at their positions and
    counted when selected, without a curve list and without cached
    values; and none of the former segments of the path is in the new
    list, since they still refer to the path and are added as copies. *)
Theorem setSegments_replaces_the_list st :
  _segments (this (setSegments SelectionState_POINT TheSegmentList st)) = []
  ∧ (∀ l, segments_attached st → Forall (λ r, r < length (heap st))%nat l →
       let st' := setSegments SelectionState_POINT (Segments l) st in
       length (_segments (this st')) = length l
       ∧ segments_attached st' ∧ selection_counted st'
       ∧ _curves (this st') = None ∧ caches_dropped st'
       ∧ ∀ r, r ∈ _segments (this st) → r ∉ _segments (this st')).
Proof.
  split; [done|]. intros l Hatt Hvalid. cbv zeta. unfold setSegments.
  destruct (setSelected_frame false st) as (Hsegs & Hid & Hlength & Hattachment).
  cbv zeta in *.
  set (st0 := on_this (set_curves None)
                (on_this (set_segments []) (setSelected SelectionState_POINT false st))).
  assert (segments_attached st0) as Hatt0
    by (split; [apply NoDup_nil_2 | intros k r Hk; discriminate Hk]).
  assert (selection_counted st0) as Hcounted0 by done.
  assert (Forall (λ r, r < length (heap st0))%nat l) as Hvalid0
    by (subst st0; cbn [heap on_this]; by rewrite Hlength).
  destruct (_add_segments l None st0) as [Hlen Hlist]. cbn [app] in Hlist.
  destruct (_add_curves l None st0) as (_ & _ & Hcurves). cbv zeta in Hcurves.
  split; [by rewrite Hlist|]. split; [by apply _add_attached|].
  split; [apply _add_selection; [done|apply Forall_nil_2|done]|].
  split; [by rewrite Hcurves|].
  split; [apply _add_drops_caches|].
  intros r Hr. rewrite Hlist.
  destruct (_add_after_attach l None st0) as (-> & _).
  destruct Hatt as [_ Hatt].
  pose proof (_add_attach_spec (default (length (_segments (this st0))) None) l 0 st0
                (_segments (this st)) Hvalid0) as Hspec.
  cbv zeta in Hspec. destruct Hspec as (_ & _ & _ & _ & _ & _ & _ & _ & _ & Hdisjoint).
  - intros q Hq. apply list_elem_of_lookup in Hq as [k Hk].
    destruct (Hatt k q Hk) as (s & Hs & Hpath & _).
    assert (attachment (heap st0) !! q = Some (Segment._path s, Segment._index s)) as Hq'.
    { subst st0. cbn [heap on_this]. rewrite Hattachment. unfold attachment.
      by rewrite list_lookup_fmap, Hs. }
    unfold attachment in Hq'. rewrite list_lookup_fmap in Hq'.
    destruct (heap st0 !! q) as [s'|]; [|done]. injection Hq' as Hpath' _.
    exists s'. split; [done|]. by rewrite Hpath', Hpath.
  - intros Hr'. by apply (Hdisjoint r Hr').
Qed.
End MoreSetSelected.

Lemma mutations_keep_selection_counted_witness :
  selection_counted (foldl (λ st m, mutate m st) (initialize 7 default_style) attach_program).
Proof.
  apply (mutations_keep_selection_counted attach_program (initialize 7 default_style)).
  - split; [apply NoDup_nil_2 | intros k r Hk; discriminate Hk].
  - reflexivity.
  - vm_compute. repeat split; repeat constructor.
Defined.

Lemma setSelected_and_what_the_count_means_witness :
  isFullySelected (setSelected 4 true (corner_path false)) = true
  ∧ _selectedSegmentCount (this (setSelected 4 true (corner_path false))) = 3%Z.
Proof.
  assert (Forall (λ r, r < length (heap (corner_path false)))%nat
            (_segments (this (corner_path false)))) as Hvalid
    by (vm_compute; repeat constructor).
  destruct (setSelected_and_what_the_count_means 4 (corner_path false) ltac:(lia) Hvalid)
    as [Hset _].
  destruct (Hset true) as (_ & _ & _ & _ & Hfull). split; [exact Hfull | reflexivity].
Defined.

Lemma setSegments_replaces_the_list_witness :
  length (_segments (this (setSegments 4 (Segments [0; 1]%nat) (corner_path false)))) = 2%nat
  ∧ _segments (this (setSegments 4 (Segments [0; 1]%nat) (corner_path false))) = [3; 4]%nat.
Proof.
  split; [|reflexivity].
  refine (proj1 (proj2 (setSegments_replaces_the_list 4 (corner_path false))
                   [0; 1]%nat _ _)).
  - split.
    + change (NoDup [0; 1; 2]%nat). by apply (bool_decide_unpack _).
    + intros k r Hk. destruct k as [|[|[|k]]]; try discriminate Hk;
        injection Hk as <-; by eexists.
  - vm_compute. repeat constructor.
Defined.

(* ------------------------------------------------------------------ *)
(** * [Base.capitalize], [Base.camelize] and [Base.splice] *)

Section MoreStrings.
Import Base.
Implicit Types (c d : code_unit) (str : list code_unit).

Lemma toUpperCase_lower c :
  is_lower c = true →
  is_lower (toUpperCase c) = false ∧ is_word (toUpperCase c) = true
  ∧ toUpperCase c ≠ hyphen.
Proof.
  unfold toUpperCase, is_word, is_lower, is_upper, is_digit, hyphen. intros Hc. rewrite Hc.
  apply andb_true_iff in Hc as [H1%N.leb_le H2%N.leb_le].
  split; [|split].
  - apply andb_false_iff. left. apply N.leb_gt. lia.
  - apply orb_true_iff. left. apply orb_true_iff. left. apply orb_true_iff. right.
    apply andb_true_iff. split; apply N.leb_le; lia.
  - lia.
Qed.

Lemma is_lower_word c : is_lower c = true → is_word c = true.
Proof. unfold is_word. by intros ->. Qed.

Lemma toUpperCase_word c :
  is_word c = true → is_lower (toUpperCase c) = false ∧ toUpperCase c ≠ hyphen.
Proof.
  intros Hc. destruct (is_lower c) eqn:Hlower.
  - by destruct (toUpperCase_lower c Hlower) as (? & _ & ?).
  - unfold toUpperCase. rewrite Hlower. split; [done|].
    intros ->. by vm_compute in Hc.
Qed.

Lemma capitalize_from_length b str : length (capitalize_from b str) = length str.
Proof. revert b. induction str as [|c str IH]; intros b; [done|]. cbn. by rewrite IH. Qed.

Lemma capitalize_from_idempotent b str :
  capitalize_from b (capitalize_from b str) = capitalize_from b str.
Proof.
  revert b. induction str as [|c str IH]; intros b; [done|]. cbn [capitalize_from].
  destruct (negb b && is_lower c) eqn:Hstart.
  - apply andb_true_iff in Hstart as [Hb Hc].
    destruct (toUpperCase_lower c Hc) as (Hnot & Hword & _).
    rewrite Hb, Hnot, Hword, (is_lower_word c Hc). cbn. by rewrite IH.
  - rewrite Hstart. by rewrite IH.
Qed.

(** X18: [capitalize] keeps the length of the string and changes no
    code unit but letters from a to z, which it replaces by their upper
    case; in its result no letter from a to z stands at the start of the
    string or after a code unit that is not a letter, a digit or an
    underscore; and capitalizing twice is capitalizing once. *)
Theorem capitalize_once_is_enough str :
  length (capitalize str) = length str
  ∧ (∀ i c, str !! i = Some c →
       capitalize str !! i = Some c
       ∨ (is_lower c = true ∧ capitalize str !! i = Some (toUpperCase c)))
  ∧ (∀ i d, capitalize str !! i = Some d → is_lower d = true →
       ∃ k c, i = S k ∧ capitalize str !! k = Some c ∧ is_word c = true)
  ∧ capitalize (capitalize str) = capitalize str.
Proof.
  unfold capitalize. split; [apply capitalize_from_length|].
  split; [|split; [|apply capitalize_from_idempotent]].
  - generalize false. induction str as [|c0 str IH]; intros b i c Hi; [done|].
    destruct i as [|i]; cbn in Hi |- *.
    + injection Hi as ->. destruct (negb b && is_lower c) eqn:Hstart; [|by left].
      right. by apply andb_true_iff in Hstart as [_ ->].
    + by apply IH.
  - assert (∀ b i d, capitalize_from b str !! i = Some d → is_lower d = true →
              (i = 0%nat ∧ b = true)
              ∨ ∃ k c, i = S k ∧ capitalize_from b str !! k = Some c ∧ is_word c = true)
      as Hgen.
    { induction str as [|c0 str IH]; intros b i d Hi Hd; [done|].
      destruct i as [|i]; cbn [capitalize_from] in Hi |- *.
      - left. split; [done|]. cbn in Hi. injection Hi as <-.
        destruct b; [done|]. cbn in Hd. destruct (is_lower c0) eqn:Hc0; [|congruence].
        destruct (toUpperCase_lower c0 Hc0) as (Hnot & _). congruence.
      - right. cbn in Hi. destruct (IH _ _ _ Hi Hd) as [[-> Hword]|(k & c & -> & Hk & Hc)].
        + eexists 0%nat, _. split; [done|]. split; [reflexivity|].
          destruct (negb b && is_lower c0) eqn:Hstart; [|done].
          apply andb_true_iff in Hstart as [_ Hlow]. by apply toUpperCase_lower.
        + exists (S k), c. by repeat split. }
    intros i d Hi Hd. destruct (Hgen false i d Hi Hd) as [[_ ?]|?]; done.
Qed.

(** ** [camelize] *)

Lemma camelize_cons c str :
  camelize (c :: str)
  = match str with
    | d :: str'' =>
        if (c =? hyphen)%N && is_word d then toUpperCase d :: camelize str''
        else c :: camelize str
    | [] => [c]
    end.
Proof. by destruct str. Qed.

(** Statements about [camelize] go by induction on the length, as a
    match takes two code units. *)
Lemma camelize_ind (P : list code_unit → Prop) :
  P [] → (∀ c, P [c]) →
  (∀ c d str, P (d :: str) → P str → P (c :: d :: str)) →
  ∀ str, P str.
Proof.
  intros Hnil Hone Hstep str.
  assert (P str ∧ ∀ c, P (c :: str)) as [? _]; [|done].
  induction str as [|d str [IH1 IH2]]; [by split|].
  split; [apply IH2|]. intros c. by apply Hstep.
Qed.

Lemma camelize_head str x :
  head (camelize str) = Some x →
  head str = Some x ∨ (is_lower x = false ∧ x ≠ hyphen).
Proof.
  destruct str as [|c [|d str]]; [done|by left|]. rewrite camelize_cons.
  destruct ((c =? hyphen)%N && is_word d) eqn:Hmatch; [|by left].
  apply andb_true_iff in Hmatch as [_ Hd]. cbn. intros [= <-]. right.
  by apply toUpperCase_word.
Qed.

Lemma no_hyphen_before_lower_cons c str :
  no_hyphen_before_lower str →
  (c = hyphen → ∀ d, head str = Some d → is_lower d = false) →
  no_hyphen_before_lower (c :: str).
Proof.
  intros Hstr Hc [|i] d; cbn.
  - intros [= ->] Hd. apply Hc; [done|]. by destruct str.
  - apply Hstr.
Qed.

(** X19: [camelize] leaves a string without a hyphen as it is, never
    makes a string longer, and leaves no hyphen standing before a letter
    from a to z: a hyphen that is left stands at the end, or before a code
    unit that is not a letter, a digit or an underscore, or before the
    upper case that replaced a later match. *)
Theorem camelize_leaves_no_hyphen_before_a_letter str :
  (hyphen ∉ str → camelize str = str)
  ∧ (length (camelize str) ≤ length str)%nat
  ∧ no_hyphen_before_lower (camelize str).
Proof.
  split; [|split].
  - induction str as [|c str IH]; [done|]. intros Hnot.
    apply not_elem_of_cons in Hnot as [Hc Hstr]. rewrite camelize_cons.
    destruct str as [|d str]; [done|].
    rewrite (proj2 (N.eqb_neq c hyphen)) by done. cbn [andb]. by rewrite IH.
  - induction str as [| |c d str IH1 IH2] using camelize_ind; [done|done|].
    rewrite camelize_cons. destruct (_ && _); cbn [length] in *; lia.
  - induction str as [| |c d str IH1 IH2] using camelize_ind.
    + by intros i d.
    + by intros [|i] d.
    + rewrite camelize_cons. destruct ((c =? hyphen)%N && is_word d) eqn:Hmatch.
      * apply andb_true_iff in Hmatch as [_ Hd].
        apply no_hyphen_before_lower_cons; [done|].
        intros Hhyphen. by destruct (toUpperCase_word d Hd) as [_ ?].
      * apply no_hyphen_before_lower_cons; [done|]. intros -> x Hx.
        rewrite N.eqb_refl in Hmatch. cbn in Hmatch.
        apply camelize_head in Hx as [[= ->]|[? _]]; [|done].
        destruct (is_lower x) eqn:Hlower; [|done]. by rewrite (is_lower_word x) in Hmatch.
Qed.
End MoreStrings.

Section MoreSplice.
Import Base.
Context {A : Type}.
Implicit Types (h : list (Item A)) (l rs : list ref) (r : ref).

Lemma set_indices_spec rs : ∀ i h,
  NoDup rs →
  (∀ r, r ∉ rs → set_indices i rs h !! r = h !! r)
  ∧ (∀ j r, rs !! j = Some r →
       set_indices i rs h !! r = with_index (Some (i + j)%nat) <$> h !! r)
  ∧ content <$> set_indices i rs h = content <$> h.
Proof.
  induction rs as [|r0 rs IH]; intros i h Hnodup; [by repeat split|].
  apply list.NoDup_cons in Hnodup as [Hnotin Hnodup]. cbn [set_indices].
  destruct (IH (S i) (alter (with_index (Some i)) r0 h) Hnodup) as (Hother & Hset & Hcontent).
  split; [|split].
  - intros r Hr. apply not_elem_of_cons in Hr as [Hne Hr].
    rewrite Hother by done. by rewrite list_lookup_alter_ne.
  - intros [|j] r Hj; cbn in Hj.
    + injection Hj as ->. rewrite Hother by done.
      by rewrite list_lookup_alter_eq, Nat.add_0_r.
    + rewrite (Hset j r Hj). rewrite list_lookup_alter_ne.
      * do 3 f_equal. lia.
      * intros ->. apply Hnotin. by eapply list_elem_of_lookup_2.
  - rewrite Hcontent. rewrite (list_fmap_alter _ _ id); [by apply list_alter_id|].
    apply Forall_lookup. by intros ? [].
Qed.

Lemma delete_indices_spec rs : ∀ h,
  (∀ r, r ∉ rs → delete_indices rs h !! r = h !! r)
  ∧ (∀ r it, r ∈ rs → delete_indices rs h !! r = Some it → _index it = None)
  ∧ (∀ r, is_Some (delete_indices rs h !! r) ↔ is_Some (h !! r))
  ∧ content <$> delete_indices rs h = content <$> h.
Proof.
  unfold delete_indices. induction rs as [|r0 rs IH]; intros h.
  { split; [done|]. split; [|done]. intros r it Hr. by apply elem_of_nil in Hr. }
  cbn [foldl]. destruct (IH (alter (with_index None) r0 h)) as (Hother & Hgone & Hsome & Hcontent).
  split; [|split; [|split]].
  - intros r Hr. apply not_elem_of_cons in Hr as [Hne Hr].
    rewrite Hother by done. by rewrite list_lookup_alter_ne.
  - intros r it Hr Hit. destruct (decide (r ∈ rs)) as [Hin|Hnotin]; [by eapply Hgone|].
    apply elem_of_cons in Hr as [->|Hr]; [|done].
    rewrite Hother, list_lookup_alter_eq in Hit by done.
    destruct (h !! r0); [|done]. by injection Hit as <-.
  - intros r. rewrite Hsome. rewrite list_lookup_alter.
    destruct (decide (r0 = r)) as [->|]; [|done]. by rewrite fmap_is_Some.
  - rewrite Hcontent. rewrite (list_fmap_alter _ _ id); [by apply list_alter_id|].
    apply Forall_lookup. by intros ? [].
Qed.

(** [index] except where it is written. *)
Lemma indexed_parts (h' : list (Item A)) (before added after : list ref) :
  NoDup (before ++ added ++ after) →
  (∀ k r, before !! k = Some r → ∃ it, h' !! r = Some it ∧ _index it = Some k) →
  (∀ k r, added !! k = Some r →
     ∃ it, h' !! r = Some it ∧ _index it = Some (length before + k)%nat) →
  (∀ k r, after !! k = Some r →
     ∃ it, h' !! r = Some it ∧ _index it = Some (length before + length added + k)%nat) →
  indexed h' (before ++ added ++ after).
Proof.
  intros Hnodup Hbefore Hadded Hafter. split; [done|]. intros k r Hk.
  destruct (decide (k < length before)%nat).
  { rewrite lookup_app_l in Hk by done. by apply Hbefore. }
  rewrite lookup_app_r in Hk by lia.
  destruct (decide (k - length before < length added)%nat).
  { rewrite lookup_app_l in Hk by done. destruct (Hadded _ _ Hk) as (it & ? & Hit).
    exists it. split; [done|]. rewrite Hit. f_equal. lia. }
  rewrite lookup_app_r in Hk by lia. destruct (Hafter _ _ Hk) as (it & ? & Hit).
  exists it. split; [done|]. rewrite Hit. f_equal. lia.
Qed.

(** X20: [Base.splice] keeps a list of items indexed. Take a list in
    which every item holds its position in [_index] and none occurs
    twice, items to add that are distinct objects of the store and not in
    the list, and an index that is [undefined] (append) or at most the
    length of the list; [items] is an array or [null], or [undefined] when
    appending. Then in the list that results every item again holds its
    position; the items returned are those taken out, and they have lost
    their [_index]; nothing but [_index] is written in any item. *)
Theorem splice_keeps_the_items_indexed l (items : Items) (index : option nat) (remove : nat) h :
  let added := match items with ItemsArray rs => rs | _ => [] end in
  indexed h l →
  NoDup added → (∀ r, r ∈ added → is_Some (h !! r) ∧ r ∉ l) →
  (∀ i, index = Some i → (i ≤ length l)%nat) →
  (items = ItemsUndefined → index = None) →
  let removed := (splice l items index remove h).1.1 in
  let l' := (splice l items index remove h).1.2 in
  let h' := (splice l items index remove h).2 in
  indexed h' l'
  ∧ removed = (if index is Some i then take remove (drop i l) else [])
  ∧ l' = (if index is Some i then take i l ++ added ++ drop (i + remove) l else l ++ added)
  ∧ (∀ r it, r ∈ removed → h' !! r = Some it → _index it = None)
  ∧ content <$> h' = content <$> h.
Proof.
  intros added [Hnodup Hindexed] Hadded Hfresh Hindex Hundefined. cbv zeta.
  unfold splice. fold added.
  destruct index as [i|]; cbn [bool_decide decide_rel default from_option id].
  2: { (* appended *)
    rewrite bool_decide_eq_true_2 by done. cbn [fst snd].
    destruct (set_indices_spec added (length l) h Hadded) as (Hother & Hset & Hcontent).
    split; [|by repeat split; try done; intros r it Hr; apply elem_of_nil in Hr].
    rewrite <- (app_nil_r (l ++ added)), <- app_assoc.
    apply indexed_parts.
    - rewrite app_nil_r. apply list.NoDup_app. split; [done|]. split; [|done].
      intros r Hr Hr'. by destruct (Hfresh r Hr').
    - intros k r Hk. rewrite Hother; [by apply Hindexed|].
      intros Hr. destruct (Hfresh r Hr) as [_ Hnot]. apply Hnot.
      by eapply list_elem_of_lookup_2.
    - intros k r Hk. rewrite (Hset k r Hk).
      destruct (Hfresh r) as [[it Hit] _]; [by eapply list_elem_of_lookup_2|].
      rewrite Hit. by eexists.
    - by intros k r Hk. }
  rewrite bool_decide_eq_false_2 by done. cbn [fst snd].
  specialize (Hindex i eq_refl).
  set (before := take i l). set (removed := take remove (drop i l)).
  set (after := drop (i + remove) l).
  assert (length before = i) as Hlen by (subst before; rewrite length_take; lia).
  assert (l = before ++ removed ++ after) as Hl.
  { subst before removed after. by rewrite <- drop_drop, !take_drop. }
  assert (NoDup before ∧ NoDup removed ∧ NoDup after
          ∧ (∀ r, r ∈ before → (r ∉ removed) ∧ (r ∉ after))
          ∧ (∀ r, r ∈ removed → r ∉ after)) as (Hnd1 & Hnd2 & Hnd3 & Hsep1 & Hsep2).
  { pose proof Hnodup as Hnd. rewrite Hl in Hnd.
    apply list.NoDup_app in Hnd as (? & Hsep & Hnd).
    apply list.NoDup_app in Hnd as (? & Hsep' & ?). repeat split; try done.
    - intros Hr. apply (Hsep r); [done|]. apply elem_of_app. by left.
    - intros Hr. apply (Hsep r); [done|]. apply elem_of_app. by right. }
  assert (∀ r, r ∈ before ∨ r ∈ removed ∨ r ∈ after → r ∈ l) as Hin.
  { intros r Hr. rewrite Hl, !elem_of_app. tauto. }
  assert (drop (i + length added) (before ++ added ++ after) = after) as Hdrop.
  { rewrite app_assoc. apply drop_app_length'. rewrite List.length_app. lia. }
  rewrite Hdrop.
  destruct (set_indices_spec added i h Hadded) as (Hother1 & Hset1 & Hcontent1).
  set (h1 := set_indices i added h) in *.
  destruct (delete_indices_spec removed h1) as (Hother2 & Hgone2 & Hsome2 & Hcontent2).
  set (h2 := delete_indices removed h1) in *.
  destruct (set_indices_spec after (i + length added) h2 Hnd3) as (Hother3 & Hset3 & Hcontent3).
  assert (∃ h3, h3 = match items with
                     | ItemsUndefined => h2
                     | _ => set_indices (i + length added) after h2
                     end
                ∧ h3 = set_indices (i + length added) after h2) as (h3 & <- & ->).
  { eexists. split; [reflexivity|]. destruct items; try done. by specialize (Hundefined eq_refl). }
  set (h3 := set_indices (i + length added) after h2) in *.
  assert (∀ r, r ∈ l → is_Some (h !! r)) as Hvalid.
  { intros r Hr. apply list_elem_of_lookup in Hr as [k Hk].
    destruct (Hindexed k r Hk) as (it & -> & _). by eexists. }
  split; [|split; [done|split; [done|split]]].
  - apply indexed_parts.
    + apply list.NoDup_app. split; [done|]. split.
      * intros r Hr Hr'. apply elem_of_app in Hr' as [Hr'|Hr'].
        -- destruct (Hfresh r Hr') as [_ Hnot]. apply Hnot, Hin. by left.
        -- by destruct (Hsep1 r Hr).
      * apply list.NoDup_app. split; [done|]. split; [|done].
        intros r Hr Hr'. destruct (Hfresh r Hr) as [_ Hnot]. apply Hnot, Hin. by right; right.
    + intros k r Hk. assert (r ∈ before) as Hr by (by eapply list_elem_of_lookup_2).
      destruct (Hsep1 r Hr) as [Hnotremoved Hnotafter].
      rewrite Hother3, Hother2, Hother1 by (done || intros Hr'; destruct (Hfresh r Hr') as [_ Hnot];
                                            apply Hnot, Hin; by left).
      apply Hindexed. subst before. apply lookup_lt_Some in Hk as Hlt.
      rewrite length_take in Hlt. by rewrite lookup_take_lt in Hk by lia.
    + intros k r Hk. assert (r ∈ added) as Hr by (by eapply list_elem_of_lookup_2).
      destruct (Hfresh r Hr) as [[it Hit] Hnot].
      rewrite Hother3, Hother2 by (intros Hr'; apply Hnot, Hin; tauto).
      rewrite (Hset1 k r Hk), Hit, Hlen. by eexists.
    + intros k r Hk. assert (r ∈ after) as Hr by (by eapply list_elem_of_lookup_2).
      rewrite (Hset3 k r Hk), Hlen.
      destruct (proj2 (Hsome2 r)) as [it Hit].
      { rewrite Hother1; [apply Hvalid, Hin; tauto|].
        intros Hr'. destruct (Hfresh r Hr') as [_ Hnot]. apply Hnot, Hin. tauto. }
      rewrite Hit. by eexists.
  - intros r it Hr Hit. rewrite Hother3 in Hit by (by apply Hsep2). by eapply Hgone2.
  - by rewrite Hcontent3, Hcontent2, Hcontent1.
Qed.
End MoreSplice.

Lemma capitalize_once_is_enough_witness :
  Base.capitalize hello_world = [72; 101; 108; 108; 111; 32; 87; 111; 114; 108; 100]%N
  ∧ (Base.capitalize hello_world !! 0%nat = Some 104%N
     ∨ (Base.is_lower 104%N = true
        ∧ Base.capitalize hello_world !! 0%nat = Some (Base.toUpperCase 104%N))).
Proof.
  split; [reflexivity|].
  apply (capitalize_once_is_enough hello_world). reflexivity.
Defined.

Lemma camelize_leaves_no_hyphen_before_a_letter_witness :
  Base.camelize caps_lock = [99; 97; 112; 115; 76; 111; 99; 107]%N
  ∧ Base.camelize hello_world = hello_world.
Proof.
  split; [reflexivity|].
  apply (camelize_leaves_no_hyphen_before_a_letter hello_world).
  intros Hin. vm_compute in Hin. by repeat (apply elem_of_cons in Hin as [Hin|Hin]; [done|]);
    apply elem_of_nil in Hin.
Defined.

Lemma splice_keeps_the_items_indexed_witness :
  let h := [Base.mkItem (Some 0%nat) 10%Z; Base.mkItem (Some 1%nat) 11%Z;
            Base.mkItem None 12%Z] in
  Base.indexed (Base.splice [0; 1]%nat (Base.ItemsArray [2%nat]) (Some 0%nat) 1 h).2
    (Base.splice [0; 1]%nat (Base.ItemsArray [2%nat]) (Some 0%nat) 1 h).1.2
  ∧ (Base.splice [0; 1]%nat (Base.ItemsArray [2%nat]) (Some 0%nat) 1 h).1
    = ([0%nat], [2; 1]%nat).
Proof.
  intros h. split; [|reflexivity].
  apply (splice_keeps_the_items_indexed [0; 1]%nat (Base.ItemsArray [2%nat]) (Some 0%nat) 1 h).
  - split; [by apply (bool_decide_unpack _)|].
    intros k r Hk. destruct k as [|[|k]]; try discriminate Hk; injection Hk as <-; by eexists.
  - by apply (bool_decide_unpack _).
  - intros r Hr. apply elem_of_cons in Hr as [->|Hr]; [|by apply elem_of_nil in Hr].
    split; [by eexists|]. by apply (bool_decide_unpack _).
  - intros i [= <-]. cbn. lia.
  - discriminate.
Defined.
(* ------------------------------------------------------------------ *)
(** * More on the handles: [cubicCurveTo] and [smooth] *)

Section MoreHandles.
Context {num : Type} `{!Number num}.
Implicit Types (st : State num) (r : ref).

(** [setHandleIn] and [setHandleOut] write one field of one segment
    object; of the path they touch the caches only. *)
Lemma Segment_changed_frame r st :
  heap (Segment_changed r st) = heap st
  ∧ _segments (this (Segment_changed r st)) = _segments (this st)
  ∧ _id (this (Segment_changed r st)) = _id (this st)
  ∧ _closed (this (Segment_changed r st)) = _closed (this st)
  ∧ _curves (this (Segment_changed r st)) = _curves (this st).
Proof. unfold Segment_changed. by case_bool_decide. Qed.

Lemma setHandleOut_heap r (h : Point.t num) st :
  heap (setHandleOut r h st) = alter (Segment.with_handleOut h) r (heap st).
Proof. unfold setHandleOut. by rewrite (proj1 (Segment_changed_frame _ _)). Qed.

Lemma setHandleIn_heap r (h : Point.t num) st :
  heap (setHandleIn r h st) = alter (Segment.with_handleIn h) r (heap st).
Proof. unfold setHandleIn. by rewrite (proj1 (Segment_changed_frame _ _)). Qed.

Lemma deref_alter_ne (f : Segment.t num → Segment.t num) r r' (h : list (Segment.t num)) :
  r' ≠ r → alter f r' h !!! r = h !!! r.
Proof. intros Hne. rewrite !list_lookup_total_alt. by rewrite list_lookup_alter_ne. Qed.

Lemma deref_alter_field {B} (g : Segment.t num → B) (f : Segment.t num → Segment.t num)
    r r' (h : list (Segment.t num)) :
  (∀ s, g (f s) = g s) → g (alter f r' h !!! r) = g (h !!! r).
Proof.
  intros Hf. destruct (decide (r' = r)) as [->|Hne]; [|by rewrite deref_alter_ne].
  rewrite !list_lookup_total_alt, list_lookup_alter_eq.
  destruct (h !! r); cbn; [apply Hf | done].
Qed.

Lemma deref_setHandleIn_ne r r' (h : Point.t num) st :
  r' ≠ r → deref (setHandleIn r' h st) r = deref st r.
Proof. intros Hne. unfold deref. rewrite setHandleIn_heap. by apply deref_alter_ne. Qed.

Lemma deref_setHandleOut_ne r r' (h : Point.t num) st :
  r' ≠ r → deref (setHandleOut r' h st) r = deref st r.
Proof. intros Hne. unfold deref. rewrite setHandleOut_heap. by apply deref_alter_ne. Qed.

Lemma deref_setHandleIn_handleOut r r' (h : Point.t num) st :
  Segment._handleOut (deref (setHandleIn r' h st) r) = Segment._handleOut (deref st r).
Proof. unfold deref. rewrite setHandleIn_heap. by apply deref_alter_field. Qed.

Lemma deref_setHandleOut_handleIn r r' (h : Point.t num) st :
  Segment._handleIn (deref (setHandleOut r' h st) r) = Segment._handleIn (deref st r).
Proof. unfold deref. rewrite setHandleOut_heap. by apply deref_alter_field. Qed.

Lemma deref_setHandleIn_point r r' (h : Point.t num) st :
  Segment._point (deref (setHandleIn r' h st) r) = Segment._point (deref st r).
Proof. unfold deref. rewrite setHandleIn_heap. by apply deref_alter_field. Qed.

Lemma deref_setHandleOut_point r r' (h : Point.t num) st :
  Segment._point (deref (setHandleOut r' h st) r) = Segment._point (deref st r).
Proof. unfold deref. rewrite setHandleOut_heap. by apply deref_alter_field. Qed.

Lemma deref_setHandleIn_eq r (h : Point.t num) st :
  (r < length (heap st))%nat →
  Segment._handleIn (deref (setHandleIn r h st) r) = h.
Proof.
  intros Hr. unfold deref. rewrite setHandleIn_heap.
  by rewrite list_lookup_total_alter_eq.
Qed.

Lemma deref_setHandleOut_eq r (h : Point.t num) st :
  (r < length (heap st))%nat →
  Segment._handleOut (deref (setHandleOut r h st) r) = h.
Proof.
  intros Hr. unfold deref. rewrite setHandleOut_heap.
  by rewrite list_lookup_total_alter_eq.
Qed.

(** X21: on a path with a current segment [cubicCurveTo] returns, and
    stores the two handles relative to their anchors: the current segment
    keeps its anchor and its incoming handle, and its outgoing handle
    becomes [handle1] minus its anchor; one new segment object is made
    the last of the path, its anchor is [to], its incoming handle is
    [handle2] minus [to], and its outgoing handle is zero. *)
Theorem cubicCurveTo_stores_relative_handles
    (handle1 handle2 to : Point.t num) st current :
  list.last (_segments (this st)) = Some current →
  (current < length (heap st))%nat →
  ∃ st', cubicCurveTo handle1 handle2 to st = Ret () st'
    ∧ _segments (this st') = _segments (this st) ++ [length (heap st)]
    ∧ Segment._point (deref st' current) = Segment._point (deref st current)
    ∧ Segment._handleIn (deref st' current) = Segment._handleIn (deref st current)
    ∧ Segment._handleOut (deref st' current)
      = Point.subtract handle1 (Segment._point (deref st current))
    ∧ Segment._point (deref st' (length (heap st))) = to
    ∧ Segment._handleIn (deref st' (length (heap st))) = Point.subtract handle2 to
    ∧ Segment._handleOut (deref st' (length (heap st))) = Point.zero.
Proof.
  intros Hlast Hvalid. unfold cubicCurveTo, getCurrentSegment. rewrite Hlast. cbn [bind].
  set (h := Point.subtract handle1 (Segment._point (deref st current))).
  set (st1 := setHandleOut current h st).
  set (s := Segment.create to (Point.subtract handle2 to) Point.zero).
  eexists. split; [reflexivity|].
  pose proof (add_new_Segment_segments s st1 eq_refl) as Hsegs.
  pose proof (add_new_Segment_heap s st1 eq_refl) as Hheap.
  assert (length (heap st1) = length (heap st)) as Hlen.
  { subst st1. by rewrite setHandleOut_heap, length_alter. }
  assert (_segments (this st1) = _segments (this st)) as Hsame.
  { subst st1. unfold setHandleOut. by rewrite (proj1 (proj2 (Segment_changed_frame _ _))). }
  rewrite Hlen, Hsame in Hsegs. split; [done|].
  assert (deref (add_new_Segment s st1) current = deref st1 current) as Hcur.
  { unfold deref. rewrite Hheap. apply lookup_total_app_l. lia. }
  rewrite Hcur. subst st1.
  rewrite deref_setHandleOut_point, deref_setHandleOut_handleIn,
    deref_setHandleOut_eq by done.
  split; [done|]. split; [done|]. split; [done|].
  unfold deref. rewrite Hheap, <- Hlen, list_lookup_total_middle by done. by cbn.
Qed.

(** ** [smooth] on an open path *)

(** The knots of an open path are the anchors, in order. *)
Lemma foldl_aset_seq {A} (f : nat → A) (k : nat) :
  foldl (λ a i, aset a (i + 0) (f i)) [] (seq 0 k) = (λ i, Some (f i)) <$> seq 0 k.
Proof.
  induction k as [|k IH]; [done|].
  rewrite seq_S, foldl_snoc, IH, fmap_app. cbn [fmap list_fmap Nat.add].
  unfold aset. rewrite length_fmap, length_seq, Nat.add_0_r, Nat.ltb_irrefl, Nat.sub_diag.
  done.
Qed.

Lemma smooth_solve_open st :
  _closed (this st) = false →
  ∃ x y,
    smooth_solve st
    = ((λ i, Some (Segment._point (deref st (_segments (this st) !!! i))))
         <$> seq 0 (length (_segments (this st))),
       x, y, 0%nat, (length (_segments (this st)) - 1)%nat).
Proof.
  intros Hopen. unfold smooth_solve. rewrite Hopen. cbv beta iota zeta.
  rewrite (foldl_aset_seq (λ i, Segment._point (deref st (_segments (this st) !!! i)))).
  by eexists _, _.
Qed.

Lemma knot_at_open (f : nat → Point.t num) (k i : nat) :
  (i < k)%nat → knot_at ((λ i, Some (f i)) <$> seq 0 k) i = f i.
Proof.
  intros Hi. unfold knot_at, aget.
  by rewrite list_lookup_fmap, lookup_seq_lt.
Qed.

(** One turn of the loop that sets the handles: what it leaves alone,
    what it hands to the next turn, and what it writes. *)
Lemma smooth_set_handleIn_kept segments knots x y overlap n handleIn st i r :
  handleIn = None ∨ segments !!! (i - overlap)%nat ≠ r →
  Segment._handleIn (deref (smooth_set segments knots x y overlap n (handleIn, st) i).2 r)
  = Segment._handleIn (deref st r).
Proof.
  intros Hkept. unfold smooth_set.
  set (st1 := match handleIn with Some _ => _ | None => _ end).
  assert (Segment._handleIn (deref st1 r) = Segment._handleIn (deref st r)) as H1.
  { subst st1. destruct handleIn as [h|]; [|done].
    destruct Hkept as [?|Hne]; [done|]. by rewrite deref_setHandleIn_ne. }
  destruct (i <? n)%nat; [|done].
  destruct (i <? n - 1)%nat; cbn [snd]; by rewrite deref_setHandleOut_handleIn.
Qed.

Lemma smooth_set_handleOut_kept segments knots x y overlap n handleIn st i r :
  (n ≤ i)%nat ∨ segments !!! (i - overlap)%nat ≠ r →
  Segment._handleOut (deref (smooth_set segments knots x y overlap n (handleIn, st) i).2 r)
  = Segment._handleOut (deref st r).
Proof.
  intros Hkept. unfold smooth_set.
  set (st1 := match handleIn with Some _ => _ | None => _ end).
  assert (Segment._handleOut (deref st1 r) = Segment._handleOut (deref st r)) as H1.
  { subst st1. destruct handleIn as [h|]; [|done]. by rewrite deref_setHandleIn_handleOut. }
  destruct (Nat.ltb_spec i n) as [Hlt|Hge]; [|done].
  destruct Hkept as [?|Hne]; [lia|].
  destruct (i <? n - 1)%nat; cbn [snd]; by rewrite deref_setHandleOut_ne.
Qed.

Lemma smooth_loop_handleIn_kept segments knots x y overlap n r (l : list nat) :
  ∀ acc, Forall (λ i, segments !!! (i - overlap)%nat ≠ r) l →
    Segment._handleIn (deref (foldl (smooth_set segments knots x y overlap n) acc l).2 r)
    = Segment._handleIn (deref acc.2 r).
Proof.
  induction l as [|i l IH]; intros acc Hl; [done|].
  apply Forall_cons_1 in Hl as [Hi Hl]. cbn [foldl]. rewrite IH by done.
  destruct acc as [handleIn st]. apply smooth_set_handleIn_kept. by right.
Qed.

Lemma smooth_loop_handleOut_kept segments knots x y overlap n r (l : list nat) :
  ∀ acc, Forall (λ i, (n ≤ i)%nat ∨ segments !!! (i - overlap)%nat ≠ r) l →
    Segment._handleOut (deref (foldl (smooth_set segments knots x y overlap n) acc l).2 r)
    = Segment._handleOut (deref acc.2 r).
Proof.
  induction l as [|i l IH]; intros acc Hl; [done|].
  apply Forall_cons_1 in Hl as [Hi Hl]. cbn [foldl]. rewrite IH by done.
  destruct acc as [handleIn st]. by apply smooth_set_handleOut_kept.
Qed.

Lemma smooth_set_next segments knots x y overlap n acc i :
  (i < n - 1)%nat →
  (smooth_set segments knots x y overlap n acc i).1
  = Some (Point.mk (of_Z 2 * Point._x (knot_at knots (i + 1)) - num_at x (i + 1))%js
                   (of_Z 2 * Point._y (knot_at knots (i + 1)) - num_at y (i + 1))%js).
Proof.
  intros Hi. destruct acc as [handleIn st]. unfold smooth_set.
  rewrite (proj2 (Nat.ltb_lt i n)) by lia.
  by rewrite (proj2 (Nat.ltb_lt i (n - 1))) by lia.
Qed.

Lemma smooth_set_written segments knots x y overlap n h st i :
  (segments !!! (i - overlap)%nat < length (heap st))%nat → (i < n)%nat →
  let r := segments !!! (i - overlap)%nat in
  let st' := (smooth_set segments knots x y overlap n (Some h, st) i).2 in
  Segment._handleIn (deref st' r) = Point.subtract h (Segment._point (deref st r))
  ∧ Segment._handleOut (deref st' r)
    = Point.subtract (Point.mk (num_at x i) (num_at y i)) (Segment._point (deref st r)).
Proof.
  intros Hvalid Hi r st'. subst st'. unfold smooth_set. fold r.
  rewrite (proj2 (Nat.ltb_lt i n)) by lia.
  set (st1 := setHandleIn r _ st).
  assert (r < length (heap st1))%nat as Hvalid1.
  { subst st1. by rewrite setHandleIn_heap, length_alter. }
  assert (Segment._point (deref st1 r) = Segment._point (deref st r)) as Hpoint
    by apply deref_setHandleIn_point.
  assert (Segment._handleIn (deref st1 r)
          = Point.subtract h (Segment._point (deref st r))) as Hin
    by (by apply deref_setHandleIn_eq).
  destruct (i <? n - 1)%nat; cbn [snd];
    by rewrite deref_setHandleOut_handleIn, deref_setHandleOut_eq, Hpoint.
Qed.

(** The segments of a list without repetition, looked up at two places. *)
Lemma segments_apart (segments : list ref) (i j : nat) :
  NoDup segments → (i < length segments)%nat → (j < length segments)%nat → i ≠ j →
  segments !!! i ≠ segments !!! j.
Proof.
  intros Hnodup Hi Hj Hij Heq.
  destruct (lookup_lt_is_Some_2 segments i Hi) as [a Ha].
  destruct (lookup_lt_is_Some_2 segments j Hj) as [b Hb].
  rewrite (list_lookup_total_correct _ _ _ Ha), (list_lookup_total_correct _ _ _ Hb) in Heq.
  subst b. by apply Hij, (NoDup_lookup segments i j a).
Qed.

(** The loop of [smooth] on an open path with more than two segments. *)
Lemma smooth_open st :
  _closed (this st) = false → (2 < length (_segments (this st)))%nat →
  ∃ knots x y,
    let segments := _segments (this st) in
    let n := (length segments - 1)%nat in
    knots = (λ i, Some (Segment._point (deref st (segments !!! i)))) <$> seq 0 (length segments)
    ∧ smooth st
      = (foldl (smooth_set segments knots x y 0 n) (None, st) (seq 0 (length segments))).2.
Proof.
  intros Hopen Hsize. destruct (smooth_solve_open st Hopen) as (x & y & Hsolve).
  set (knots := (λ i, Some (Segment._point (deref st (_segments (this st) !!! i))))
                  <$> seq 0 (length (_segments (this st)))) in *.
  exists knots, x, y. cbv zeta. split; [reflexivity|].
  unfold smooth. rewrite (proj2 (Nat.leb_gt _ _)) by lia. rewrite Hsolve.
  replace (length (_segments (this st)) - 1 - 0 + 1 - 0)%nat
    with (length (_segments (this st))) by lia.
  pose proof (same_frame_smooth_loop (_segments (this st)) knots x y 0
                (length (_segments (this st)) - 1)
                (seq 0 (length (_segments (this st)))) (None, st) st
                (same_frame_refl st)) as (_ & Hclosed & _).
  destruct (foldl _ _ _) as [handleIn st1]. cbn [snd] in Hclosed |- *.
  by rewrite Hclosed, Hopen.
Qed.

(** X22: smoothing an open path whose list holds no segment twice
    leaves the two outer handles as they are: the incoming handle of the
    first segment and the outgoing handle of the last. *)
Theorem smooth_keeps_the_outer_handles st first last :
  _closed (this st) = false →
  NoDup (_segments (this st)) →
  head (_segments (this st)) = Some first →
  list.last (_segments (this st)) = Some last →
  Segment._handleIn (deref (smooth st) first) = Segment._handleIn (deref st first)
  ∧ Segment._handleOut (deref (smooth st) last) = Segment._handleOut (deref st last).
Proof.
  intros Hopen Hnodup Hfirst Hlast.
  destruct (Nat.leb_spec (length (_segments (this st))) 2) as [Hsmall|Hsize].
  { unfold smooth. by rewrite (proj2 (Nat.leb_le _ _)). }
  destruct (smooth_open st Hopen Hsize) as (knots & x & y & _ & ->).
  set (segments := _segments (this st)) in *. set (size := length segments) in *.
  assert (segments !!! 0%nat = first) as H0.
  { apply list_lookup_total_correct. by rewrite <- head_lookup. }
  assert (segments !!! (size - 1)%nat = last) as Hn.
  { apply list_lookup_total_correct. rewrite last_lookup in Hlast.
    by replace (size - 1)%nat with (Nat.pred size) by lia. }
  split.
  - destruct size as [|k] eqn:Hk; [lia|]. cbn [seq foldl].
    rewrite smooth_loop_handleIn_kept.
    + apply smooth_set_handleIn_kept. by left.
    + apply Forall_forall. intros i Hi. apply in_seq in Hi.
      rewrite Nat.sub_0_r, <- H0. apply segments_apart; try done; fold size; lia.
  - rewrite smooth_loop_handleOut_kept; [done|].
    apply Forall_forall. intros i Hi. apply in_seq in Hi.
    destruct (decide (size - 1 ≤ i)%nat); [by left|right].
    rewrite Nat.sub_0_r, <- Hn. apply segments_apart; try done; fold size; lia.
Qed.
(** X23: smoothing an open path holds the two handles of every inner
    segment against one control point. For a list that holds no segment
    twice, of segments of the store, and a segment that is neither the
    first nor the last, with anchor [p]: there is a point [c] such that
    the outgoing handle is [c - p] and the incoming handle is
    [(2 * p - c) - p], the reflection of [c] through the anchor, made
    relative. (In exact arithmetic the two are opposite; doubles round
    each of the subtractions.) *)
Theorem smooth_mirrors_the_control_point st (j : nat) r :
  _closed (this st) = false →
  NoDup (_segments (this st)) →
  (∀ r, r ∈ _segments (this st) → (r < length (heap st))%nat) →
  (0 < j)%nat → (S j < length (_segments (this st)))%nat →
  _segments (this st) !! j = Some r →
  let p := Segment._point (deref st r) in
  ∃ c : Point.t num,
    Segment._handleOut (deref (smooth st) r) = Point.subtract c p
    ∧ Segment._handleIn (deref (smooth st) r)
      = Point.subtract (Point.mk (of_Z 2 * Point._x p - Point._x c)%js
                                 (of_Z 2 * Point._y p - Point._y c)%js) p.
Proof.
  intros Hopen Hnodup Hvalid Hj HSj Hr p.
  destruct (smooth_open st Hopen ltac:(lia)) as (knots & x & y & Hknots & ->). cbv zeta in Hknots.
  set (segments := _segments (this st)) in *. set (size := length segments) in *.
  set (n := (size - 1)%nat).
  destruct j as [|j0]; [lia|].
  assert (segments !!! S j0 = r) as Hrj by (by apply list_lookup_total_correct).
  assert (seq 0 size = seq 0 j0 ++ j0 :: S j0 :: seq (S (S j0)) (size - j0 - 2)) as ->.
  { replace size with (j0 + (2 + (size - j0 - 2)))%nat at 1 by lia.
    rewrite seq_app. cbn [Nat.add seq]. repeat f_equal; lia. }
  rewrite foldl_app. cbn [foldl].
  set (acc0 := foldl _ (None, st) (seq 0 j0)).
  assert (same_frame st acc0.2) as Hframe0.
  { subst acc0. apply same_frame_smooth_loop, same_frame_refl. }
  set (acc1 := smooth_set segments knots x y 0 n acc0 j0).
  assert (same_frame st acc1.2) as Hframe1.
  { subst acc1. destruct acc0 as [h0 st0].
    eapply same_frame_trans; [exact Hframe0 | apply same_frame_smooth_set]. }
  pose proof (smooth_set_next segments knots x y 0 n acc0 j0 ltac:(unfold n; lia)) as Hnext.
  assert (knot_at knots (j0 + 1) = p) as Hknot.
  { rewrite Hknots.
    rewrite (knot_at_open (λ i, Segment._point (deref st (segments !!! i))) size (j0 + 1))
      by (fold size; lia).
    replace (j0 + 1)%nat with (S j0) by lia. by rewrite Hrj. }
  rewrite Hknot in Hnext. replace (j0 + 1)%nat with (S j0) in Hnext by lia.
  fold acc1 in Hnext. destruct acc1 as [h1 st1]. cbn [fst snd] in Hnext, Hframe1. subst h1.
  rewrite smooth_loop_handleIn_kept, smooth_loop_handleOut_kept.
  2,3: apply Forall_forall; intros i Hi; apply in_seq in Hi;
       try right; rewrite Nat.sub_0_r, <- Hrj;
       apply segments_apart; try done; fold size; lia.
  assert (length (heap st1) = length (heap st)) as Hlen.
  { destruct Hframe1 as (_ & _ & Hheap).
    by rewrite <- (length_fmap Segment_frame (heap st1)), Hheap, length_fmap. }
  destruct (smooth_set_written segments knots x y 0 n
              (Point.mk (of_Z 2 * Point._x p - num_at x (S j0))%js
                        (of_Z 2 * Point._y p - num_at y (S j0))%js)
              st1 (S j0)) as [Hin Hout].
  { rewrite Nat.sub_0_r, Hrj, Hlen. apply Hvalid. by eapply list_elem_of_lookup_2. }
  { unfold n. lia. }
  rewrite Nat.sub_0_r, Hrj in Hin, Hout.
  pose proof (same_frame_deref st st1 r Hframe1) as Hsame.
  assert (Segment._point (deref st1 r) = p) as Hpoint
    by (unfold Segment_frame in Hsame; subst p; congruence).
  rewrite Hpoint in Hin, Hout.
  exists (Point.mk (num_at x (S j0)) (num_at y (S j0))). split; [exact Hout|exact Hin].
Qed.
End MoreHandles.

Lemma cubicCurveTo_stores_relative_handles_witness :
  ∃ st', cubicCurveTo (Point.mk 11 12)%Z (Point.mk 13 14)%Z (Point.mk 20 20)%Z
           (corner_path false) = Ret () st'
         ∧ _segments (this st') = [0; 1; 2; 3]%nat
         ∧ Segment._handleOut (deref st' 2%nat) = (Point.mk 1 2)%Z.
Proof.
  assert (2 < length (heap (corner_path false)))%nat as Hvalid by (vm_compute; lia).
  destruct (cubicCurveTo_stores_relative_handles
              (Point.mk 11 12)%Z (Point.mk 13 14)%Z (Point.mk 20 20)%Z
              (corner_path false) 2%nat eq_refl Hvalid)
    as (st' & Hret & Hsegs & _ & _ & Hout & _).
  exists st'. split; [exact Hret|]. split; [exact Hsegs | exact Hout].
Defined.

Lemma smooth_keeps_the_outer_handles_witness :
  Segment._handleIn (deref (smooth (corner_path false)) 0%nat) = Point.zero
  ∧ Segment._handleOut (deref (smooth (corner_path false)) 2%nat) = Point.zero.
Proof.
  assert (NoDup (_segments (this (corner_path false)))) as Hnodup
    by (change (NoDup [0; 1; 2]%nat); by apply (bool_decide_unpack _)).
  exact (smooth_keeps_the_outer_handles (corner_path false) 0%nat 2%nat
           eq_refl Hnodup eq_refl eq_refl).
Defined.

Lemma smooth_mirrors_the_control_point_witness :
  ∃ c : Point.t Z,
    Segment._handleOut (deref (smooth (corner_path false)) 1%nat)
    = Point.subtract c (Point.mk 10 0)%Z
    ∧ Segment._handleIn (deref (smooth (corner_path false)) 1%nat)
      = Point.subtract (Point.mk (2 * 10 - Point._x c) (2 * 0 - Point._y c))%Z
                       (Point.mk 10 0)%Z.
Proof.
  destruct (smooth_mirrors_the_control_point (corner_path false) 1%nat 1%nat)
    as (c & Hout & Hin); [..|exists c; split; [exact Hout | exact Hin]].
  - reflexivity.
  - change (NoDup [0; 1; 2]%nat). by apply (bool_decide_unpack _).
  - intros r Hr. change (r ∈ [0; 1; 2]%nat) in Hr. change (r < 3)%nat.
    rewrite !elem_of_cons in Hr. destruct Hr as [->|[->|[->|Hr]]]; try lia.
    by apply elem_of_nil in Hr.
  - lia.
  - change (2 < 3)%nat. lia.
  - reflexivity.
Defined.
